(* ===== verification/_CoqProject ===== *)
-Q . S2P
Prelude.v
Bytes.v
Num.v
SymTab.v
Input.v
Buf.v
Release.v
Token.v
Subst.v
State.v
Builtins.v
Engine.v
Invariant.v
Safety.v
Liveness.v
Scenarios.v
