(* ===== verification/Prelude.v ===== *)
(** * A verification development of loganpkg/m4 ([src/m4.c])

    The program is one C file, a streaming m4 macro processor: [main] reads
    tokens from a pushback input stream, expands user macros and built-ins
    through a stack of call frames, and writes to one of eleven diversions.
    Each file of this library models one part of it, in the order the parts
    depend on each other:

    - [Prelude] (this file): the engine monad [M S A = S -> exec S A] whose
      outcomes are [Done] (go on), [Eoi] (end of input), [Quit] (the
      [QUIT] macro and its error paths) and [Ub] (undefined behaviour of the
      C code); Hoare triples [{{ P }} c {{ Q }}], the rely-guarantee
      predicate [guarantee R c] (every state change of [c] is in [R]),
      [safe P c U] ([c] started in [P] reaches [Ub] only in a state of
      [U]) and [no_ub c], each with its composition rules; the [size_t]
      arithmetic ([wrap64], [SIZE_MAX]); shared list lemmas, tactics and
      the hint databases [m4] and [m4_rw].
    - [Bytes]: bytes as [Z], the [<ctype.h>] classes, the conversion of a
      read byte to a signed [char] (so that 0xFF reads back as [EOF]),
      C strings ([cstr]) and [nonff] (no 0xFF byte).
    - [Num]: [str_to_num] with its overflow tests, the [%lu] printing of
      [snprintf], and the folds of [add], [mult], [sub], [div], [mod] and
      [incr] on [size_t].
    - [SymTab]: [struct entry] chains in a [gmap] of buckets with
      [hash_str], [lookup_entry], [upsert_entry], [delete_entry] and
      [htdist]; the class [MacroTable] (with its laws [MacroTableLaws])
      is the interface the engine uses, implemented by the hash table and
      by an abstract map.
    - [Input]: the pushback stack [getch], [ungetch], [ungetstr] and
      [include] (the file system is a function from names to contents).
    - [Buf]: [struct buf] with the size of its allocation: [init_buf],
      [grow_buf] with its [MOF]/[AOF] tests, the stores of [ungetch],
      [put_str], [include] and [buf_dump_buf], with [malloc]/[realloc] as
      an oracle [alloc_ok]; its refinement theorem shows that the lists of
      bytes used everywhere else are exact while allocation succeeds.
    - [Release]: [free_buf] and [free_hash_table] as the sequences of
      blocks their [free] calls release, and [main]'s set-up of its
      sixteen buffers followed by [clean_up] on any sequence of [malloc]
      outcomes: every entry and every allocated block is released exactly
      once ([free_hash_table_exact], [setup_no_leak]).
    - [Token]: [getword] and its identifier loop.
    - [Subst]: [sub_args] and [strip_def].
    - [State]: the locals of [main] as the record [state], the call frame
      [struct mcall] as [mcall], the output selection [SET_OUTPUT], the
      macros [OUT_DIV], [READ_TOKEN], [EAT_WS], [DNL], [EQUIT], and the
      scans of [free_mcall] and [terminate_args].
    - [Builtins]: [PROCESS_BI_WITH_ARGS] (all 24 built-ins with arguments)
      and [PROCESS_BI_NO_ARGS]; [strstr] of the C library, which [index]
      calls, as the first offset at which [is_prefix] holds.
    - [Engine]: [step], one iteration of the [while (1)] loop of [main],
      with [macro_token], [arg_comma], [end_call] and [expand_call];
      [end_of_input], [clean_up], [run] and the whole program [m4]; and
      the relation [reachable] of the states the loop reaches.
    - [Invariant]: the engine invariant [engine_inv] (diversion index,
      eleven diversions, cached output, frame shape with 1 to 9 allocated
      argument buffers, bracket depths, [size_t] quote depth, a well-formed
      table, no 0xFF in arguments) and the view relation [same_view]
      that most operations guarantee.
    - [Safety]: triples for every operation, [step_inv] and
      [reachable_inv] (the invariant holds along every run), [step_safe]
      and [m4_undefined] (undefined behaviour happens only when a frame
      holds nine argument buffers), and [nine_arguments_undefined] (the
      closing bracket of a call holding nine argument buffers does reach
      it, for built-ins and user macros).
    - [Liveness]: on input without identifier bytes, every iteration
      consumes a byte and the run ends with an exit status
      ([m4_progress]); without quotes either, the output is the input
      ([m4_text_identity]).
    - [Scenarios]: the stray-closing-quote theorem, and whole runs of
      [m4] evaluated by [vm_compute] as regression examples of the
      specification's scenarios and of the behaviours found above.

    Theorem groups: functional specifications of [getword], [ungetstr],
    [sub_args], [str_to_num], [index] and the arithmetic built-ins; the
    equivalence of [translit] with a reference transliteration; the
    refinement of the abstract map by the hash table along traces that
    avoid the head-of-chain bug of [delete_entry]; the refinement of the
    list model of buffers by [struct buf], the absence of writes past an
    allocation and the bound of three times the contents on its size;
    the absence of leaks and double frees in [free_hash_table] and in
    the set-up and clean-up of [main]'s buffers;
    fuel adequacy of every bounded loop; the invariant and safety
    theorems of [Safety]; progress of the main loop; and
    regression runs that show what the code does where the specification
    says otherwise.

    Fuel: the identifier loop of [getword] and the token loops of [EAT_WS]
    and [DNL] take one more unit of fuel than the bytes pending in the
    input, and each iteration consumes a byte, so the fuel is never
    exhausted ([ident_loop_fuel], [token_loop_fuel]).  The main loop [run]
    counts iterations and gives [None] when its fuel runs out: m4 itself
    need not terminate ([define(x, x)x] loops), so termination is proved
    only where it holds: [m4_progress] gives the exact fuel, the length of
    the input plus one, for input without identifiers.  [reachable_inv]
    holds for every number of iterations, and the scenarios use 10000,
    which every run there finishes within.  The sequences of buffer
    operations of [Buf] are lists, with no fuel.

    Not modelled: allocation failures inside the engine after the
    set-up (the engine works on lists of bytes; [Buf] models them for the
    buffer operations, where [grow_buf] reports them, and [Release] for
    the set-up of the buffers), [fwrite] or [fclose] failing, which the
    code turns into [QUIT], and [fopen] or [getc] failing in [include]
    after [filesize] succeeded (a file is a regular file with fixed
    contents); read errors of [getchar] on standard input (an [EOF]
    with [errno] set, which [getword] reports through [err], lines 270
    and 284): standard input is a fixed list of bytes and [EOF] is
    always its end; the release of call frames and of the
    strings [sd] and [tmp_str], apart from the loops of [free_mcall] and
    [terminate_args], whose read of [arg_buf[10]] is modelled as
    undefined behaviour; [esyscmd] and [maketemp], compiled
    out by [ESYSCMD_MAKETEMP] being 0; the Windows code paths.  The
    [<ctype.h>] classes follow glibc for negative [char] values. *)

From Stdlib Require Import ZArith Lia List.
From stdpp Require Import base list.

Declare Scope m4_scope.
Delimit Scope m4_scope with m4.

(** ** Machine integers: [size_t] on an LP64 host

    Every counter of the program that can wrap ([quote_depth], the
    accumulators of the arithmetic built-ins, sizes) is a [size_t]; it is
    modelled as a [Z] kept in [[0, SIZE_MAX]] with its wrap-around written
    out as [wrap64]. *)

Definition SIZE_MAX : Z := 2 ^ 64 - 1.

Definition wrap64 (z : Z) : Z := z mod 2 ^ 64.

(** The overflow tests of [m4.c] lines 110-113. *)
Definition AOF (a b : Z) : bool := (SIZE_MAX - b <? a)%Z.
Definition MOF (a b : Z) : bool := negb (a =? 0)%Z && (SIZE_MAX / a <? b)%Z.

Definition size_t_ok (z : Z) : Prop := (0 <= z <= SIZE_MAX)%Z.

(** ** The engine monad

    The main loop of [main] leaves a computation in three ways: it goes on
    with the value it computed ([Done]), it jumps to the label
    [end_of_input] ([Eoi], the [goto] of [READ_TOKEN]), it quits through
    [QUIT] ([Quit], which sets [ret = 1] and jumps to [clean_up]), or it
    reaches an operation whose behaviour C leaves undefined ([Ub], an
    out-of-bounds array access), after which nothing is modelled.  The state
    is threaded explicitly, and stdpp's [MRet]/[MBind] classes give the
    [x ← c; k] and [c ;; k] notations. *)

Inductive exec (S A : Type) : Type :=
| Done (a : A) (s : S)
| Eoi (s : S)
| Quit (s : S)
| Ub (s : S).
Arguments Done {S A} a s.
Arguments Eoi {S A} s.
Arguments Quit {S A} s.
Arguments Ub {S A} s.

Definition M (S A : Type) : Type := S -> exec S A.

#[export] Instance M_ret {S} : MRet (M S) := fun A a s => Done a s.
#[export] Instance M_bind {S} : MBind (M S) := fun A B f c s =>
  match c s with
  | Done a s' => f a s'
  | Eoi s' => Eoi s'
  | Quit s' => Quit s'
  | Ub s' => Ub s'
  end.

Definition get {S} : M S S := fun s => Done s s.
Definition put {S} (s : S) : M S unit := fun _ => Done tt s.
Definition modify {S} (f : S -> S) : M S unit := fun s => Done tt (f s).
Definition quit {S A} : M S A := fun s => Quit s.
Definition goto_eoi {S A} : M S A := fun s => Eoi s.
Definition undefined {S A} : M S A := fun s => Ub s.

(** The state of a finished computation, whichever way it left. *)
Definition exec_state {S A} (e : exec S A) : S :=
  match e with Done _ s | Eoi s | Quit s | Ub s => s end.

(** ** Hoare triples for the engine monad

    [hoare P c Q]: from a state satisfying [P], if [c] goes on normally
    ([Done]) it ends in a state satisfying [Q] with its result.  The
    invariants of the engine are proved with these rules, one per
    primitive operation. *)

Definition hoare {S A} (P : S -> Prop) (c : M S A) (Q : A -> S -> Prop) : Prop :=
  forall s a s', P s -> c s = Done a s' -> Q a s'.

Notation "{{ P }} c {{ Q }}" := (hoare P c Q) (at level 90, c at next level) : m4_scope.

Section Hoare.
Context {S : Type}.

Lemma hoare_ret {A} (P : S -> Prop) (Q : A -> S -> Prop) a :
  (forall s, P s -> Q a s) -> hoare P (mret a) Q.
Proof. intros H s a' s' HP [= <- <-]. by apply H. Qed.

Lemma hoare_bind {A B} P (Q : A -> S -> Prop) (R : B -> S -> Prop) (c : M S A) (f : A -> M S B) :
  hoare P c Q -> (forall a, hoare (Q a) (f a) R) -> hoare P (c ≫= f) R.
Proof.
  intros Hc Hf s b s' HP. unfold mbind, M_bind.
  destruct (c s) as [a s1|s1|s1|s1] eqn:E; try discriminate.
  intros H. eapply Hf; [|exact H]. eapply Hc; eauto.
Qed.

Lemma hoare_conseq {A} (P P' : S -> Prop) (Q Q' : A -> S -> Prop) c :
  hoare P' c Q' -> (forall s, P s -> P' s) -> (forall a s, Q' a s -> Q a s) -> hoare P c Q.
Proof. intros H HP HQ s a s' Hs Hc. apply HQ. eapply H; eauto. Qed.

Lemma hoare_weaken {A} (P P' : S -> Prop) (Q : A -> S -> Prop) c :
  hoare P' c Q -> (forall s, P s -> P' s) -> hoare P c Q.
Proof. intros H HP. eapply hoare_conseq; eauto. Qed.

(** The facts a precondition gives about a known state. *)
Lemma hoare_know {A} (P : S -> Prop) (Q : A -> S -> Prop) c s0 :
  (P s0 -> hoare (fun s => P s /\ s = s0) c Q) -> hoare (fun s => P s /\ s = s0) c Q.
Proof. intros H s a s' [HP ->]. by apply H. Qed.

Lemma hoare_get (P : S -> Prop) : hoare P get (fun a s => P s /\ a = s).
Proof. intros s a s' HP [= <- <-]. done. Qed.

Lemma hoare_modify (P : S -> Prop) (Q : unit -> S -> Prop) f :
  (forall s, P s -> Q () (f s)) -> hoare P (modify f) Q.
Proof. intros H s a s' HP [= <- <-]. by apply H. Qed.

Lemma hoare_put (P : S -> Prop) (Q : unit -> S -> Prop) s0 :
  (forall s, P s -> Q () s0) -> hoare P (put s0) Q.
Proof. intros H s a s' HP [= <- <-]. by eapply H. Qed.

Lemma hoare_quit {A} (P : S -> Prop) (Q : A -> S -> Prop) : hoare P quit Q.
Proof. intros s a s' _ [=]. Qed.

Lemma hoare_eoi {A} (P : S -> Prop) (Q : A -> S -> Prop) : hoare P goto_eoi Q.
Proof. intros s a s' _ [=]. Qed.

Lemma hoare_undefined {A} (P : S -> Prop) (Q : A -> S -> Prop) : hoare P undefined Q.
Proof. intros s a s' _ [=]. Qed.

Lemma hoare_if {A} (P : S -> Prop) (Q : A -> S -> Prop) (b : bool) c1 c2 :
  (b = true -> hoare P c1 Q) -> (b = false -> hoare P c2 Q) -> hoare P (if b then c1 else c2) Q.
Proof. destruct b; auto. Qed.

(** A command that starts by reading the state. *)
Lemma hoare_get_bind {A} (P : S -> Prop) (Q : A -> S -> Prop) (f : S -> M S A) :
  (forall s0, hoare (fun s => P s /\ s = s0) (f s0) Q) -> hoare P (get ≫= f) Q.
Proof. intros H s a s' HP Hc. by eapply (H s). Qed.

(** A fact about the state before a command can be used to prove it. *)
Lemma hoare_pre {A} (P : S -> Prop) (Q : A -> S -> Prop) c :
  (forall s0, P s0 -> hoare (fun s => P s /\ s = s0) c Q) -> hoare P c Q.
Proof. intros H s a s' HP Hc. eapply (H s HP); eauto. Qed.

(** [guarantee R c]: every normal run of [c] relates its first and last
    states by [R] (a rely-guarantee style frame condition). *)
Definition guarantee_at {A} (R : S -> S -> Prop) (s0 : S) (c : M S A) : Prop :=
  forall a s', c s0 = Done a s' -> R s0 s'.
Definition guarantee {A} (R : S -> S -> Prop) (c : M S A) : Prop :=
  forall s0, guarantee_at R s0 c.

Section Guarantee.
Context (R : S -> S -> Prop) `{!Reflexive R, !Transitive R}.

Lemma guar_ret {A} (a : A) : guarantee R (mret a).
Proof. intros s0 a' s' [= _ <-]. reflexivity. Qed.

Lemma guar_bind {A B} (c : M S A) (f : A -> M S B) :
  guarantee R c -> (forall a, guarantee R (f a)) -> guarantee R (c ≫= f).
Proof.
  intros Hc Hf s0 b s'. unfold mbind, M_bind.
  destruct (c s0) as [a s1|s1|s1|s1] eqn:E; try discriminate.
  intros H. transitivity s1; [by eapply Hc | by eapply Hf].
Qed.

Lemma guar_get {A} (f : S -> M S A) :
  (forall s0, guarantee_at R s0 (f s0)) -> guarantee R (get ≫= f).
Proof. intros H s0 a s'. apply H. Qed.

Lemma guar_at {A} s0 (c : M S A) : guarantee R c -> guarantee_at R s0 c.
Proof. intros H. apply H. Qed.

Lemma guar_at_put s0 s1 : R s0 s1 -> guarantee_at R s0 (put s1).
Proof. intros H a s' [= _ <-]. exact H. Qed.

Lemma guar_modify f : (forall s, R s (f s)) -> guarantee R (modify f).
Proof. intros H s0 a s' [= _ <-]. apply H. Qed.

Lemma guar_quit {A} : guarantee (A:=A) R quit.
Proof. intros s0 a s' [=]. Qed.

Lemma guar_eoi {A} : guarantee (A:=A) R goto_eoi.
Proof. intros s0 a s' [=]. Qed.

Lemma guar_undefined {A} : guarantee (A:=A) R undefined.
Proof. intros s0 a s' [=]. Qed.

Lemma guar_if {A} (b : bool) (c1 c2 : M S A) :
  guarantee R c1 -> guarantee R c2 -> guarantee R (if b then c1 else c2).
Proof. by destruct b. Qed.

(** A guarantee carries any property that [R] preserves, and the relation
    to a fixed earlier state. *)
Lemma hoare_guarantee {A} (P : S -> Prop) (c : M S A) s0 :
  (forall s s', R s s' -> P s -> P s') -> guarantee R c ->
  hoare (fun s => P s /\ R s0 s) c (fun _ s => P s /\ R s0 s).
Proof.
  intros HP Hc s a s' [Hs H0] Hr. pose proof (Hc s a s' Hr).
  split; [by eapply HP | by transitivity s].
Qed.

End Guarantee.

(** [safe P c U]: from a state satisfying [P], [c] reaches undefined
    behaviour only in a state satisfying [U]. *)
Definition safe {A} (P : S -> Prop) (c : M S A) (U : S -> Prop) : Prop :=
  forall s s', P s -> c s = Ub s' -> U s'.

Lemma safe_bind {A B} P (Q : A -> S -> Prop) (c : M S A) (f : A -> M S B) U :
  safe P c U -> hoare P c Q -> (forall a, safe (Q a) (f a) U) -> safe P (c ≫= f) U.
Proof.
  intros Hc Hh Hf s s' HP. unfold mbind, M_bind.
  destruct (c s) as [a s1|s1|s1|s1] eqn:E; try discriminate.
  - eapply Hf. by eapply Hh.
  - intros [= <-]. by apply (Hc s s1 HP).
Qed.

Lemma safe_weaken {A} (P P' : S -> Prop) (c : M S A) (U U' : S -> Prop) :
  safe P' c U' -> (forall s, P s -> P' s) -> (forall s, U' s -> U s) -> safe P c U.
Proof. intros H HP HU s s' Hs Hc. by eapply HU, H, Hc; apply HP. Qed.

Lemma safe_get_bind {A} P (f : S -> M S A) U :
  (forall s0, safe (fun s => P s /\ s = s0) (f s0) U) -> safe P (get ≫= f) U.
Proof. intros H s s' HP. by apply (H s s s'). Qed.

Lemma safe_know {A} (P : S -> Prop) (c : M S A) U s0 :
  (P s0 -> safe (fun s => P s /\ s = s0) c U) -> safe (fun s => P s /\ s = s0) c U.
Proof. intros H s s' [HP ->]. by apply H. Qed.

Lemma safe_undefined {A} (P U : S -> Prop) : (forall s, P s -> U s) -> safe P (undefined (A:=A)) U.
Proof. intros H s s' HP [= <-]. by apply H. Qed.

Lemma safe_if {A} P (b : bool) (c1 c2 : M S A) U :
  (b = true -> safe P c1 U) -> (b = false -> safe P c2 U) -> safe P (if b then c1 else c2) U.
Proof. destruct b; auto. Qed.

(** [no_ub c]: [c] never reaches undefined behaviour, from any state. *)
Definition no_ub {A} (c : M S A) : Prop := forall s s', c s <> Ub s'.

Lemma no_ub_safe {A} P (c : M S A) U : no_ub c -> safe P c U.
Proof. intros H s s' _ Hc. by destruct (H s s'). Qed.

Lemma no_ub_bind {A B} (c : M S A) (f : A -> M S B) :
  no_ub c -> (forall a, no_ub (f a)) -> no_ub (c ≫= f).
Proof.
  intros Hc Hf s s'. unfold mbind, M_bind.
  destruct (c s) as [a s1|s1|s1|s1] eqn:E; try discriminate; [apply Hf|].
  intros _. by apply (Hc s s1).
Qed.

Lemma no_ub_ret {A} (a : A) : no_ub (mret a).
Proof. by intros s s'. Qed.
Lemma no_ub_get : no_ub get.
Proof. by intros s s'. Qed.
Lemma no_ub_put s0 : no_ub (put s0).
Proof. by intros s s'. Qed.
Lemma no_ub_modify f : no_ub (modify f).
Proof. by intros s s'. Qed.
Lemma no_ub_quit {A} : no_ub (A:=A) quit.
Proof. by intros s s'. Qed.
Lemma no_ub_eoi {A} : no_ub (A:=A) goto_eoi.
Proof. by intros s s'. Qed.
Lemma no_ub_if {A} (b : bool) (c1 c2 : M S A) : no_ub c1 -> no_ub c2 -> no_ub (if b then c1 else c2).
Proof. by destruct b. Qed.

End Hoare.

(** ** Tactics and the hint database of the development *)

Create HintDb m4.

Create Rewrite HintDb m4_rw.

Ltac invc H := inversion H; subst; clear H.

(** Prove a decidable proposition about concrete data by evaluating its
    decision procedure. *)
Ltac decide_by_eval := refine (bool_decide_unpack _ _); vm_compute; exact I.

(** Turn the boolean tests of the models into propositions. *)
Ltac bool_to_prop :=
  repeat match goal with
  | H : (_ =? _)%Z = true |- _ => apply Z.eqb_eq in H
  | H : (_ =? _)%Z = false |- _ => apply Z.eqb_neq in H
  | H : (_ <=? _)%Z = true |- _ => apply Z.leb_le in H
  | H : (_ <=? _)%Z = false |- _ => apply Z.leb_gt in H
  | H : (_ <? _)%Z = true |- _ => apply Z.ltb_lt in H
  | H : (_ <? _)%Z = false |- _ => apply Z.ltb_ge in H
  | H : (_ =? _)%nat = true |- _ => apply Nat.eqb_eq in H
  | H : (_ =? _)%nat = false |- _ => apply Nat.eqb_neq in H
  | H : (_ && _) = true |- _ => apply andb_prop in H as [? ?]
  | H : (_ || _) = false |- _ => apply orb_false_elim in H as [? ?]
  | H : (_ || _) = true |- _ => apply orb_prop in H as [H|H]
  | H : negb _ = true |- _ => apply negb_true_iff in H
  | H : negb _ = false |- _ => apply negb_false_iff in H
  end.

(** Case on every boolean test of the goal, with the test as a
    hypothesis. *)
Ltac case_tests :=
  repeat match goal with
  | |- context [if ?b then _ else _] =>
      lazymatch b with
      | context [if _ then _ else _] => fail
      | _ => let E := fresh "E" in destruct b eqn:E
      end
  end; bool_to_prop.

(** ** Generic lemmas on [size_t] arithmetic *)

Section SizeT.
Local Open Scope Z_scope.

Lemma wrap64_range z : 0 <= wrap64 z <= SIZE_MAX.
Proof.
  unfold wrap64, SIZE_MAX.
  pose proof (Z.mod_pos_bound z (2 ^ 64)). lia.
Qed.

Lemma wrap64_small z : size_t_ok z -> wrap64 z = z.
Proof. unfold size_t_ok, wrap64, SIZE_MAX. intros. apply Z.mod_small. lia. Qed.

(** The addition test is exact: [AOF a b] holds exactly when [a + b] does
    not fit in a [size_t]. *)
Lemma AOF_spec a b : AOF a b = true <-> SIZE_MAX < a + b.
Proof. unfold AOF. rewrite Z.ltb_lt. lia. Qed.

(** The multiplication test is exact on [size_t] values. *)
Lemma MOF_spec a b :
  0 <= a -> 0 <= b -> MOF a b = true <-> SIZE_MAX < a * b.
Proof.
  intros Ha Hb. unfold MOF, SIZE_MAX.
  destruct (Z.eqb_spec a 0) as [->|Ha0]; simpl.
  - split; [discriminate | lia].
  - rewrite Z.ltb_lt. split; intros H.
    + pose proof (Z.mul_div_le (2 ^ 64 - 1) a ltac:(lia)).
      pose proof (Z.mod_pos_bound (2 ^ 64 - 1) a ltac:(lia)).
      pose proof (Z.div_mod (2 ^ 64 - 1) a ltac:(lia)). nia.
    + apply Z.div_lt_upper_bound; lia.
Qed.

End SizeT.

#[export] Hint Resolve wrap64_range wrap64_small : m4.

(** ** Generic lemmas on lists *)

Lemma app_cons_assoc {A} (l1 l2 : list A) x :
  l1 ++ x :: l2 = (l1 ++ [x]) ++ l2.
Proof. by rewrite <- app_assoc. Qed.

Lemma rev_cons_app {A} (x : A) l r : rev (x :: l) ++ r = rev l ++ x :: r.
Proof. simpl. by rewrite <- app_assoc. Qed.

Lemma forallb_false_exists {A} (f : A -> bool) l :
  forallb f l = false -> exists x, x ∈ l /\ f x = false.
Proof.
  induction l as [|x l IH]; simpl; [discriminate|].
  destruct (f x) eqn:E; simpl.
  - intros (y & Hy & Hf)%IH. exists y. split; [by apply elem_of_cons; right | done].
  - intros _. exists x. split; [apply elem_of_cons; by left | done].
Qed.

(** Induction following a scan that may consume two elements at once (the
    [$d] pairs of [sub_args] and [strip_def]). *)
Lemma list_pair_ind {A} (P : list A -> Prop) :
  P [] -> (forall c, P [c]) -> (forall c h r, P r -> P (h :: r) -> P (c :: h :: r)) ->
  forall l, P l.
Proof.
  intros H0 H1 H2 l.
  assert (P l /\ forall c, P (c :: l)) as [? _]; [|done].
  induction l as [|h r [IH1 IH2]]; [split; [done | apply H1]|].
  split; [apply IH2|]. intros c. by apply H2.
Qed.

#[export] Hint Rewrite @app_nil_r @rev_cons_app @length_app @length_rev : m4_rw.
