(* ===== verification/Bytes.v ===== *)
(** * Bytes, C characters and C strings

    The byte-level vocabulary of [m4.c]: bytes as [Z] in [[0, 255]], the
    [<ctype.h>] classes in the C locale, the conversion of an [int] to a
    plain [char] (signed on the modelled x86-64 host, which is what makes
    the byte [0xFF] read back as [EOF]), and C strings as the bytes before
    the first NUL. *)

From Stdlib Require Import ZArith Lia List String Ascii.
From stdpp Require Import base list.
From S2P Require Import Prelude.

Local Open Scope Z_scope.

Abbreviation bytes := (list Z).

(** A string literal of the source as its bytes. *)
Definition bs (s : string) : bytes :=
  map (fun a => Z.of_nat (nat_of_ascii a)) (list_ascii_of_string s).

(** ** [<ctype.h>] in the C locale *)

Definition isalpha (c : Z) : bool :=
  ((65 <=? c) && (c <=? 90)) || ((97 <=? c) && (c <=? 122)).
Definition isdigit (c : Z) : bool := (48 <=? c) && (c <=? 57).
Definition isalnum (c : Z) : bool := isalpha c || isdigit c.
Definition isgraph (c : Z) : bool := (33 <=? c) && (c <=? 126).

Definition EOF : Z := -1.

(** [(char) x]: the byte stored by an assignment to a [char], and the value
    of that [char] read back as an [int]. *)
Definition byte_of (x : Z) : Z := x mod 256.
Definition to_char (x : Z) : Z :=
  let b := byte_of x in if 128 <=? b then b - 256 else b.

Definition is_byte (c : Z) : Prop := 0 <= c < 256.
Definition all_bytes (l : bytes) : Prop := Forall is_byte l.

(** ** C strings *)

(** The C string held by a buffer: its bytes up to the first NUL. *)
Fixpoint cstr (l : bytes) : bytes :=
  match l with
  | [] => []
  | c :: r => if c =? 0 then [] else c :: cstr r
  end.

Definition no_nul (l : bytes) : Prop := Forall (fun c => c <> 0) l.

(** Bytes other than [0xFF]: what the tokenizer can deliver, since the
    byte [0xFF] reads back as [EOF]. *)
Definition nonff (l : bytes) : Prop := Forall (fun c => 0 <= c < 255) l.

(** [!strcmp(a, b)] *)
Definition streq (a b : bytes) : bool := bool_decide (cstr a = cstr b).

(** [WS(s)] of line 862: a single space, tab, newline or carriage return. *)
Definition WS (s : bytes) : bool :=
  streq s [32] || streq s [9] || streq s [10] || streq s [13].

(** ** Lemmas *)

Lemma cstr_no_nul l : no_nul l -> cstr l = l.
Proof.
  induction 1 as [|c l Hc _ IH]; simpl; [done|].
  destruct (Z.eqb_spec c 0); [done | by rewrite IH].
Qed.

Lemma cstr_is_no_nul l : no_nul (cstr l).
Proof.
  induction l as [|c l IH]; simpl; [constructor|].
  destruct (Z.eqb_spec c 0); constructor; auto.
Qed.

Lemma cstr_idem l : cstr (cstr l) = cstr l.
Proof. apply cstr_no_nul, cstr_is_no_nul. Qed.

Lemma cstr_app_no_nul l r : no_nul l -> cstr (l ++ r) = l ++ cstr r.
Proof.
  induction 1 as [|c l Hc _ IH]; simpl; [done|].
  destruct (Z.eqb_spec c 0); [done | by rewrite IH].
Qed.

Lemma all_bytes_cstr s : all_bytes s -> all_bytes (cstr s).
Proof.
  induction 1 as [|c s Hc _ IH]; simpl; [constructor|].
  destruct (c =? 0); [constructor | by constructor].
Qed.

Lemma no_nul_app l r : no_nul (l ++ r) <-> no_nul l /\ no_nul r.
Proof. apply Forall_app. Qed.

Lemma streq_spec a b : streq a b = true <-> cstr a = cstr b.
Proof. unfold streq. by rewrite bool_decide_eq_true. Qed.

Lemma to_char_byte c : is_byte c -> byte_of c = c.
Proof. unfold is_byte, byte_of. intros. apply Z.mod_small. lia. Qed.

(** Reading back a stored byte gives [EOF] exactly for the byte [0xFF]. *)
Lemma to_char_EOF c : is_byte c -> to_char c = EOF <-> c = 255.
Proof.
  intros Hc. unfold to_char. rewrite (to_char_byte c Hc). unfold EOF.
  destruct (Z.leb_spec 128 c); unfold is_byte in Hc; lia.
Qed.

Lemma byte_of_to_char c : is_byte c -> byte_of (to_char c) = c.
Proof.
  intros Hc. unfold to_char. rewrite (to_char_byte c Hc). unfold byte_of, is_byte in *.
  destruct (Z.leb_spec 128 c).
  - replace (c - 256) with (c + (-1) * 256) by lia. rewrite Z.mod_add by lia.
    apply Z.mod_small; lia.
  - apply Z.mod_small; lia.
Qed.

Lemma to_char_idem c : is_byte c -> to_char (to_char c) = to_char c.
Proof.
  intros Hc. unfold to_char at 1. rewrite (byte_of_to_char c Hc).
  unfold to_char. by rewrite (to_char_byte c Hc).
Qed.

Lemma isalpha_not_nul c : isalpha c = true -> c <> 0.
Proof. unfold isalpha. intros H. bool_to_prop; lia. Qed.

Lemma isalnum_not_nul c : isalnum c = true -> c <> 0.
Proof.
  unfold isalnum, isalpha, isdigit. intros H. bool_to_prop; lia.
Qed.

Lemma nonff_cstr l : nonff l -> nonff (cstr l).
Proof.
  induction l as [|c r IH]; intros H; [constructor|]. apply Forall_cons in H as [Hc Hr].
  simpl. destruct (c =? 0); [constructor|]. constructor; [done | by apply IH].
Qed.

Lemma nonff_app l r : nonff l -> nonff r -> nonff (l ++ r).
Proof. apply Forall_app_2. Qed.

(** The [char] read back from a byte other than [0xFF] is not [EOF]. *)
Lemma byte_of_not_EOF x : to_char x <> EOF -> 0 <= byte_of x < 255.
Proof.
  unfold to_char, EOF, byte_of. intros H.
  pose proof (Z.mod_pos_bound x 256 ltac:(lia)).
  destruct (Z.leb_spec 128 (x mod 256)); lia.
Qed.

#[export] Hint Resolve nonff_cstr nonff_app : m4.

#[export] Hint Resolve cstr_is_no_nul isalpha_not_nul isalnum_not_nul : m4.
#[export] Hint Rewrite cstr_idem : m4_rw.
