(* ===== verification/Num.v ===== *)
(** * Numbers: [str_to_num], [%lu] printing and the arithmetic built-ins

    [str_to_num] (lines 652-675) parses an unsigned decimal into a [size_t]
    with the overflow tests [MOF]/[AOF]; [print_lu] is what
    [snprintf(num, NUM_SIZE, "%lu", ...)] writes; the folds [bi_add],
    [bi_mult], [bi_sub], [bi_div], [bi_mod] and [bi_incr] are the
    computations of the built-ins [add], [mult], [sub], [div], [mod] and
    [incr] of [PROCESS_BI_WITH_ARGS] (lines 1068-1160), which return either
    the number to push back or the message [EQUIT] prints. *)

From Stdlib Require Import ZArith Lia List String.
From stdpp Require Import base list.
From S2P Require Import Prelude Bytes.

Local Open Scope Z_scope.

Module Num.

(** ** Parsing: [str_to_num] *)

(** The loop body of [str_to_num] from the accumulated value [n]. *)
Fixpoint str_to_num_go (s : bytes) (n : Z) : option Z :=
  match s with
  | [] => Some n
  | ch :: r =>
      if isdigit ch then
        if MOF n 10 then None
        else let n := n * 10 in
             if AOF n (ch - 48) then None
             else str_to_num_go r (n + (ch - 48))
      else None
  end.

(** [str_to_num(s, &num)] returns 0 and sets [num]: [Some num]; returns 1:
    [None].  The empty string is refused ([if (!len) return 1]). *)
Definition str_to_num (s : bytes) : option Z :=
  match cstr s with
  | [] => None
  | s' => str_to_num_go s' 0
  end.

(** The mathematical value of a string of decimal digits. *)
Definition dec_val (s : bytes) : Z := fold_left (fun n c => n * 10 + (c - 48)) s 0.

(** ** Printing: [snprintf(num, NUM_SIZE, "%lu", n)] *)

(** The decimal digits of [n], most significant first, in front of [acc];
    twenty digits are enough for a [size_t] (see [print_lu_length]). *)
Fixpoint digits_of (fuel : nat) (n : Z) (acc : bytes) : bytes :=
  match fuel with
  | O => acc
  | S f =>
      let acc' := (48 + n mod 10) :: acc in
      if n <? 10 then acc' else digits_of f (n / 10) acc'
  end.

Definition print_lu (n : Z) : bytes := digits_of 20 n [].

(** [snprintf(num, NUM_SIZE, "%d", -1)] *)
Definition minus_one : bytes := [45; 49].

Definition NUM_SIZE : nat := 24.

(** ** The arithmetic built-ins *)

(** The loop [for (k = ...; k < 10; ++k)] of [add], [mult], [sub], [div],
    [mod] over the remaining arguments: empty arguments are skipped, a
    non-numeric one stops with ["<name>: Invalid number"], and [op] is the
    checked operation of the built-in. *)
Fixpoint fold_args (name : string) (op : Z -> Z -> bytes + Z)
    (args : list bytes) (w : Z) : bytes + Z :=
  match args with
  | [] => inr w
  | a :: r =>
      match cstr a with
      | [] => fold_args name op r w
      | _ =>
          match str_to_num a with
          | None => inl (bs (name ++ ": Invalid number"))
          | Some n =>
              match op w n with
              | inl e => inl e
              | inr w' => fold_args name op r w'
              end
          end
      end
  end.

Definition add_op (w n : Z) : bytes + Z :=
  if AOF w n then inl (bs "add: Integer overflow") else inr (w + n).
Definition mult_op (w n : Z) : bytes + Z :=
  if MOF w n then inl (bs "mult: Integer overflow") else inr (w * n).
Definition sub_op (w n : Z) : bytes + Z :=
  if w <? n then inl (bs "sub: Integer underflow") else inr (w - n).
Definition div_op (w n : Z) : bytes + Z :=
  if n =? 0 then inl (bs "div: Divide by zero") else inr (w / n).
Definition mod_op (w n : Z) : bytes + Z :=
  if n =? 0 then inl (bs "mod: Modulo by zero") else inr (w mod n).

(** [add] (lines 1082-1095) and [mult] (lines 1096-1109) fold over
    arguments 1 to 9 from 0 and 1. *)
Definition bi_add (args : list bytes) : bytes + Z := fold_args "add" add_op args 0.
Definition bi_mult (args : list bytes) : bytes + Z := fold_args "mult" mult_op args 1.

(** [sub], [div] and [mod] (lines 1110-1160) need argument 1 and fold over
    arguments 2 to 9 from its value. *)
Definition first_arg_fold (name : string) (op : Z -> Z -> bytes + Z)
    (args : list bytes) : bytes + Z :=
  match args with
  | [] => inl (bs (name ++ ": Argument 1 must be used"))
  | a1 :: rest =>
      match cstr a1 with
      | [] => inl (bs (name ++ ": Argument 1 must be used"))
      | _ =>
          match str_to_num a1 with
          | None => inl (bs (name ++ ": Invalid number"))
          | Some w => fold_args name op rest w
          end
      end
  end.

Definition bi_sub (args : list bytes) : bytes + Z := first_arg_fold "sub" sub_op args.
Definition bi_div (args : list bytes) : bytes + Z := first_arg_fold "div" div_op args.
Definition bi_mod (args : list bytes) : bytes + Z := first_arg_fold "mod" mod_op args.

(** [incr] (lines 1068-1076). *)
Definition bi_incr (a1 : bytes) : bytes + Z :=
  match str_to_num a1 with
  | None => inl (bs "incr: Invalid number")
  | Some n => if AOF n 1 then inl (bs "incr: Integer overflow") else inr (n + 1)
  end.

(** All non-empty arguments parsed, in order ([None] if one is not a
    number). *)
Fixpoint parse_args (args : list bytes) : option (list Z) :=
  match args with
  | [] => Some []
  | a :: r =>
      match cstr a with
      | [] => parse_args r
      | _ => n ← str_to_num a; ns ← parse_args r; Some (n :: ns)
      end
  end.

(** The checked operation folded over numbers already parsed. *)
Fixpoint fold_ops (op : Z -> Z -> bytes + Z) (ns : list Z) (w : Z) : bytes + Z :=
  match ns with
  | [] => inr w
  | n :: r => match op w n with inl e => inl e | inr w' => fold_ops op r w' end
  end.

(** ** Lemmas on parsing *)

Definition dstep (n c : Z) : Z := n * 10 + (c - 48).

Lemma isdigit_range c : isdigit c = true -> 48 <= c <= 57.
Proof. unfold isdigit. intros H. bool_to_prop. lia. Qed.

Lemma fold_dstep_mono s n :
  Forall (fun c => isdigit c = true) s -> 0 <= n -> n <= fold_left dstep s n.
Proof.
  intros Hs. revert n. induction Hs as [|c s Hc _ IH]; intros n Hn; simpl; [lia|].
  apply isdigit_range in Hc. unfold dstep at 2.
  specialize (IH (n * 10 + (c - 48)) ltac:(lia)). unfold dstep in *. lia.
Qed.

(** One step of the loop fails exactly when the next value overflows. *)
Lemma str_to_num_step n c :
  size_t_ok n -> isdigit c = true ->
  (if MOF n 10 then None else if AOF (n * 10) (c - 48) then None else Some (dstep n c))
  = if dstep n c <=? SIZE_MAX then Some (dstep n c) else None.
Proof.
  intros Hn Hc. apply isdigit_range in Hc. unfold size_t_ok, dstep in *.
  destruct (MOF n 10) eqn:E1.
  - apply MOF_spec in E1; [|lia|lia]. destruct (Z.leb_spec (n * 10 + (c - 48)) SIZE_MAX); [lia|done].
  - destruct (AOF (n * 10) (c - 48)) eqn:E2.
    + apply AOF_spec in E2. destruct (Z.leb_spec (n * 10 + (c - 48)) SIZE_MAX); [lia|done].
    + rewrite <- not_true_iff_false, AOF_spec in E2.
      destruct (Z.leb_spec (n * 10 + (c - 48)) SIZE_MAX); [done|lia].
Qed.

Lemma str_to_num_go_digits s n :
  Forall (fun c => isdigit c = true) s -> size_t_ok n ->
  str_to_num_go s n =
    if fold_left dstep s n <=? SIZE_MAX then Some (fold_left dstep s n) else None.
Proof.
  intros Hs. revert n. induction Hs as [|c s Hc Hs IH]; intros n Hn; simpl.
  - unfold size_t_ok in Hn. destruct (Z.leb_spec n SIZE_MAX); [done|lia].
  - rewrite Hc. pose proof (str_to_num_step n c Hn Hc) as Hstep.
    destruct (MOF n 10), (AOF (n * 10) (c - 48));
      destruct (Z.leb_spec (dstep n c) SIZE_MAX) as [Hle|Hgt]; try discriminate.
    all: try (pose proof (fold_dstep_mono s (dstep n c) Hs) as Hm;
              destruct (Z.leb_spec (fold_left dstep s (dstep n c)) SIZE_MAX); [|done];
              apply isdigit_range in Hc; unfold size_t_ok, dstep in *; lia).
    apply IH. apply isdigit_range in Hc. unfold size_t_ok, dstep in *. lia.
Qed.

Lemma str_to_num_go_inv s n v :
  str_to_num_go s n = Some v -> Forall (fun c => isdigit c = true) s.
Proof.
  revert n. induction s as [|c s IH]; intros n; simpl; [constructor|].
  destruct (isdigit c) eqn:Hc; [|discriminate].
  destruct (MOF n 10); [discriminate|]. destruct (AOF (n * 10) (c - 48)); [discriminate|].
  intros H. constructor; eauto.
Qed.

(** The statement of [str_to_num_spec], for the proofs that build on it. *)
Lemma str_to_num_ok s v :
  str_to_num s = Some v <->
  cstr s <> [] /\ Forall (fun c => isdigit c = true) (cstr s) /\
  dec_val (cstr s) <= SIZE_MAX /\ v = dec_val (cstr s).
Proof.
  unfold str_to_num, dec_val. fold dstep.
  destruct (cstr s) as [|c r] eqn:Hs; [split; [discriminate | intros []; done]|].
  split.
  - intros H. pose proof (str_to_num_go_inv _ _ _ H) as Hd.
    rewrite str_to_num_go_digits in H by (done || (unfold size_t_ok, SIZE_MAX; lia)).
    destruct (Z.leb_spec (fold_left dstep (c :: r) 0) SIZE_MAX); [|discriminate].
    injection H as <-. done.
  - intros (_ & Hd & Hle & ->).
    rewrite str_to_num_go_digits by (done || (unfold size_t_ok, SIZE_MAX; lia)).
    destruct (Z.leb_spec (fold_left dstep (c :: r) 0) SIZE_MAX); [done|lia].
Qed.

(** C28: [str_to_num] accepts exactly the non-empty strings of decimal digits
    whose value fits in a [size_t], and returns that value. *)
Theorem str_to_num_spec s v :
  str_to_num s = Some v <->
  cstr s <> [] /\ Forall (fun c => isdigit c = true) (cstr s) /\
  dec_val (cstr s) <= SIZE_MAX /\ v = dec_val (cstr s).
Proof. exact (str_to_num_ok s v). Qed.

Lemma str_to_num_range s v : str_to_num s = Some v -> size_t_ok v.
Proof.
  intros (Hne & Hd & Hle & ->)%str_to_num_ok. split; [|done].
  unfold dec_val. fold dstep. apply fold_dstep_mono; [done|lia].
Qed.

Lemma parse_args_range args ns : parse_args args = Some ns -> Forall size_t_ok ns.
Proof.
  revert ns. induction args as [|a r IH]; intros ns; simpl; [by intros [= <-]|].
  destruct (cstr a); [apply IH|].
  destruct (str_to_num a) eqn:Ha; simpl; [|discriminate].
  destruct (parse_args r); simpl; [|discriminate].
  intros [= <-]. constructor; [eapply str_to_num_range; eauto | by apply IH].
Qed.

Lemma fold_args_parsed name op args ns w :
  parse_args args = Some ns -> fold_args name op args w = fold_ops op ns w.
Proof.
  revert ns w. induction args as [|a r IH]; intros ns w; simpl; [by intros [= <-]|].
  destruct (cstr a); [apply IH|].
  destruct (str_to_num a) eqn:Ha; simpl; [|discriminate].
  destruct (parse_args r) eqn:Hr; simpl; [|discriminate].
  intros [= <-]. simpl. case_match; [done|]. by apply IH.
Qed.

(** ** Lemmas on printing *)

Lemma dec_val_snoc l c : dec_val (l ++ [c]) = dec_val l * 10 + (c - 48).
Proof. unfold dec_val. by rewrite fold_left_app. Qed.

Lemma digits_of_app f n acc : digits_of f n acc = digits_of f n [] ++ acc.
Proof.
  revert n acc. induction f as [|f IH]; intros n acc; simpl; [done|].
  destruct (n <? 10); [done|].
  rewrite (IH _ (_ :: acc)), (IH _ [_]). by rewrite <- app_assoc.
Qed.

Lemma digit_of_mod n : 0 <= n -> isdigit (48 + n mod 10) = true.
Proof.
  intros Hn. pose proof (Z.mod_pos_bound n 10). unfold isdigit.
  apply andb_true_intro; split; apply Z.leb_le; lia.
Qed.

Lemma digits_of_val f n :
  (1 <= f)%nat -> 0 <= n < 10 ^ Z.of_nat f ->
  Forall (fun c => isdigit c = true) (digits_of f n []) /\
  digits_of f n [] <> [] /\ dec_val (digits_of f n []) = n /\
  (length (digits_of f n []) <= f)%nat.
Proof.
  revert n. induction f as [|f IH]; intros n Hf Hn; [lia|]. simpl.
  pose proof (digit_of_mod n ltac:(lia)) as Hd.
  pose proof (Z.mod_pos_bound n 10). pose proof (Z.div_mod n 10).
  destruct (Z.ltb_spec n 10).
  - repeat split; [by constructor | done | | simpl; lia].
    unfold dec_val; simpl. rewrite Z.mod_small; lia.
  - assert (1 <= f)%nat.
    { destruct f; [|lia]. simpl in Hn. lia. }
    assert (0 <= n / 10 < 10 ^ Z.of_nat f).
    { rewrite Nat2Z.inj_succ, Z.pow_succ_r in Hn by lia.
      split; [apply Z.div_pos; lia | apply Z.div_lt_upper_bound; lia]. }
    destruct (IH (n / 10)) as (Hds & Hne & Hv & Hl); [done|done|].
    rewrite digits_of_app. repeat split.
    + apply Forall_app. by split; [|constructor].
    + by destruct (digits_of f (n / 10) []).
    + rewrite dec_val_snoc, Hv. lia.
    + rewrite length_app. simpl. lia.
Qed.

Lemma print_lu_val n :
  size_t_ok n ->
  Forall (fun c => isdigit c = true) (print_lu n) /\ print_lu n <> [] /\
  dec_val (print_lu n) = n /\ (length (print_lu n) <= 20)%nat.
Proof.
  unfold size_t_ok, SIZE_MAX. intros Hn. apply digits_of_val; [lia|].
  change (10 ^ Z.of_nat 20) with 100000000000000000000. lia.
Qed.

Lemma digits_no_nul l : Forall (fun c => isdigit c = true) l -> no_nul l.
Proof.
  intros H. eapply Forall_impl; [exact H|]. intros c Hc. apply isdigit_range in Hc. lia.
Qed.

(** C29: The decimal printing of a [size_t] parses back to the same number:
    what [len], [index], [incr] and the arithmetic built-ins push back is
    read again as that number. *)
Theorem print_lu_roundtrip n : size_t_ok n -> str_to_num (print_lu n) = Some n.
Proof.
  intros Hn. destruct (print_lu_val n Hn) as (Hd & Hne & Hv & _).
  apply str_to_num_ok. rewrite cstr_no_nul by (by apply digits_no_nul).
  repeat split; [done|done| |done]. rewrite Hv. apply Hn.
Qed.

(** Every [size_t] prints in at most 20 digits, so [snprintf] into the
    [NUM_SIZE]-byte buffer [num] (with its NUL) never truncates. *)
Theorem print_lu_fits n : size_t_ok n -> (length (print_lu n) + 1 < NUM_SIZE)%nat.
Proof. intros Hn. destruct (print_lu_val n Hn) as (_ & _ & _ & Hl). unfold NUM_SIZE. lia. Qed.

(** ** Lemmas on the arithmetic built-ins *)

Definition Zsum (ns : list Z) : Z := fold_right Z.add 0 ns.
Definition Zprod (ns : list Z) : Z := fold_right Z.mul 1 ns.

Lemma Zsum_nonneg ns : Forall size_t_ok ns -> 0 <= Zsum ns.
Proof. induction 1 as [|n ns Hn _ IH]; simpl; unfold size_t_ok in *; lia. Qed.

Lemma fold_ops_add ns w :
  Forall size_t_ok ns -> size_t_ok w ->
  fold_ops add_op ns w =
    if w + Zsum ns <=? SIZE_MAX then inr (w + Zsum ns) else inl (bs "add: Integer overflow").
Proof.
  intros Hns. revert w. induction Hns as [|n ns Hn Hns IH]; intros w Hw; simpl.
  - unfold size_t_ok in Hw. destruct (Z.leb_spec (w + 0) SIZE_MAX); [f_equal; lia | lia].
  - pose proof (Zsum_nonneg ns Hns). unfold add_op. destruct (AOF w n) eqn:Ho.
    + apply AOF_spec in Ho. destruct (Z.leb_spec (w + (n + Zsum ns)) SIZE_MAX); [lia|done].
    + rewrite <- not_true_iff_false, AOF_spec in Ho.
      rewrite IH by (unfold size_t_ok in *; lia). by rewrite Z.add_assoc.
Qed.

(** C32: [add] returns the sum of its numeric arguments when it fits in a
    [size_t], and fails with its overflow message otherwise. *)
Theorem bi_add_spec args ns :
  parse_args args = Some ns ->
  bi_add args =
    if Zsum ns <=? SIZE_MAX then inr (Zsum ns) else inl (bs "add: Integer overflow").
Proof.
  intros Hp. unfold bi_add. rewrite (fold_args_parsed _ _ _ _ _ Hp).
  rewrite fold_ops_add; [done | by eapply parse_args_range | unfold size_t_ok, SIZE_MAX; lia].
Qed.

Lemma fold_ops_sub ns w :
  Forall size_t_ok ns -> 0 <= w ->
  fold_ops sub_op ns w =
    if Zsum ns <=? w then inr (w - Zsum ns) else inl (bs "sub: Integer underflow").
Proof.
  intros Hns. revert w. induction Hns as [|n ns Hn Hns IH]; intros w Hw; simpl.
  - destruct (Z.leb_spec 0 w); [f_equal; lia | lia].
  - pose proof (Zsum_nonneg ns Hns). unfold sub_op, size_t_ok in *.
    destruct (Z.ltb_spec w n).
    + destruct (Z.leb_spec (n + Zsum ns) w); [lia|done].
    + rewrite IH by lia.
      destruct (Z.leb_spec (Zsum ns) (w - n)), (Z.leb_spec (n + Zsum ns) w);
        solve [f_equal; lia | lia | done].
Qed.

Lemma str_to_num_nonempty s n : str_to_num s = Some n -> cstr s <> [].
Proof. by intros (? & _)%str_to_num_ok. Qed.

(** C33: [sub] subtracts its other numeric arguments from the first one and
    fails with its underflow message exactly when their sum exceeds it. *)
Theorem bi_sub_spec a1 rest w ns :
  str_to_num a1 = Some w -> parse_args rest = Some ns ->
  bi_sub (a1 :: rest) =
    if Zsum ns <=? w then inr (w - Zsum ns) else inl (bs "sub: Integer underflow").
Proof.
  intros Hw Hp. unfold bi_sub, first_arg_fold.
  pose proof (str_to_num_nonempty _ _ Hw) as Hne. pose proof (str_to_num_range _ _ Hw).
  destruct (cstr a1) eqn:Hc; [done|]. rewrite Hw.
  rewrite (fold_args_parsed _ _ _ _ _ Hp).
  apply fold_ops_sub; [by eapply parse_args_range | apply H].
Qed.

Lemma Zprod_pos ns :
  Forall size_t_ok ns -> existsb (Z.eqb 0) ns = false -> 0 < Zprod ns.
Proof.
  unfold Zprod. induction 1 as [|n ns Hn _ IH]; cbn [fold_right existsb]; [lia|].
  intros Hz. apply orb_false_elim in Hz as [Hz1 Hz2]. apply Z.eqb_neq in Hz1.
  specialize (IH Hz2). unfold size_t_ok in Hn. nia.
Qed.

Lemma fold_ops_div ns w :
  Forall size_t_ok ns -> 0 <= w ->
  fold_ops div_op ns w =
    if existsb (Z.eqb 0) ns then inl (bs "div: Divide by zero") else inr (w / Zprod ns).
Proof.
  intros Hns. revert w. induction Hns as [|n ns Hn Hns IH]; intros w Hw;
    cbn [fold_ops existsb].
  - unfold Zprod. simpl. by rewrite Z.div_1_r.
  - unfold div_op. rewrite (Z.eqb_sym n 0). destruct (Z.eqb_spec 0 n) as [<-|Hn0]; [done|].
    cbn [orb]. unfold size_t_ok in Hn. rewrite IH by (apply Z.div_pos; lia).
    destruct (existsb (Z.eqb 0) ns) eqn:Hz; [done|].
    rewrite Z.div_div; [done|lia|]. by apply Zprod_pos.
Qed.

(** C34: [div] divides its first argument by the product of the others (the
    successive truncating divisions of the loop compose), and fails with its
    message when one of them is zero. *)
Theorem bi_div_spec a1 rest w ns :
  str_to_num a1 = Some w -> parse_args rest = Some ns ->
  bi_div (a1 :: rest) =
    if existsb (Z.eqb 0) ns then inl (bs "div: Divide by zero") else inr (w / Zprod ns).
Proof.
  intros Hw Hp. unfold bi_div, first_arg_fold.
  pose proof (str_to_num_nonempty _ _ Hw) as Hne. pose proof (str_to_num_range _ _ Hw).
  destruct (cstr a1) eqn:Hc; [done|]. rewrite Hw.
  rewrite (fold_args_parsed _ _ _ _ _ Hp).
  apply fold_ops_div; [by eapply parse_args_range | apply H].
Qed.

Lemma existsb_pointwise {A} (f g : A -> bool) l : (forall x, f x = g x) -> existsb f l = existsb g l.
Proof. intros H. induction l as [|x l IH]; simpl; [done|]. by rewrite H, IH. Qed.

Lemma existsb_seq_shift (f : nat -> bool) start len :
  existsb f (seq (S start) len) = existsb (fun k => f (S k)) (seq start len).
Proof.
  revert start. induction len as [|len IH]; intros start; simpl; [done|]. by rewrite IH.
Qed.

(** The running product: [fold_ops mult_op] from [w] fails exactly when
    [w] times some non-empty prefix of [ns] is not a [size_t]. *)
Lemma fold_ops_mult ns w :
  Forall size_t_ok ns -> size_t_ok w ->
  fold_ops mult_op ns w =
    if existsb (fun k => SIZE_MAX <? w * Zprod (take k ns)) (seq 1 (length ns))
    then inl (bs "mult: Integer overflow") else inr (w * Zprod ns).
Proof.
  intros Hns. revert w. induction Hns as [|n ns Hn Hns IH]; intros w Hw; simpl.
  - by rewrite Z.mul_1_r.
  - rewrite existsb_seq_shift. cbn [take Zprod fold_right]. rewrite Z.mul_1_r.
    unfold mult_op. destruct (MOF w n) eqn:Ho.
    + apply MOF_spec in Ho; [|apply Hw|apply Hn]. by rewrite (proj2 (Z.ltb_lt _ _) Ho).
    + rewrite <- not_true_iff_false, MOF_spec in Ho by (unfold size_t_ok in *; lia).
      rewrite (proj2 (Z.ltb_ge _ _)) by lia. simpl.
      rewrite IH by (unfold size_t_ok in *; nia).
      rewrite (existsb_pointwise _ (fun k => SIZE_MAX <? w * (n * Zprod (take k ns))))
        by (intros k; by rewrite Z.mul_assoc).
      unfold Zprod. by rewrite Z.mul_assoc.
Qed.

(** C31: [mult] on parsed arguments fails with its overflow message exactly
    when the running product of some non-empty prefix of the arguments
    exceeds [SIZE_MAX] (even when a later argument is 0), and otherwise
    returns the exact product. *)
Theorem bi_mult_spec args ns :
  parse_args args = Some ns ->
  bi_mult args =
    if existsb (fun k => SIZE_MAX <? Zprod (take k ns)) (seq 1 (length ns))
    then inl (bs "mult: Integer overflow") else inr (Zprod ns).
Proof.
  intros Hp. pose proof (parse_args_range _ _ Hp) as Hr.
  unfold bi_mult. rewrite (fold_args_parsed _ _ _ _ _ Hp).
  rewrite fold_ops_mult by (done || (unfold size_t_ok, SIZE_MAX; lia)).
  rewrite (existsb_pointwise _ (fun k => SIZE_MAX <? Zprod (take k ns)))
    by (intros k; by rewrite Z.mul_1_l).
  by rewrite Z.mul_1_l.
Qed.

(** [incr] adds one, and fails with its overflow message on [SIZE_MAX]. *)
Theorem bi_incr_spec a n :
  str_to_num a = Some n ->
  bi_incr a = if n <? SIZE_MAX then inr (n + 1) else inl (bs "incr: Integer overflow").
Proof.
  intros Ha. pose proof (str_to_num_range _ _ Ha) as [H0 H1].
  unfold bi_incr. rewrite Ha. destruct (AOF n 1) eqn:Ho.
  - apply AOF_spec in Ho. destruct (Z.ltb_spec n SIZE_MAX); [lia|done].
  - rewrite <- not_true_iff_false, AOF_spec in Ho.
    destruct (Z.ltb_spec n SIZE_MAX); [done|lia].
Qed.

(** ** Witnesses *)

Lemma print_lu_roundtrip_witness : str_to_num (print_lu 18446744073709551615) = Some 18446744073709551615.
Proof. apply print_lu_roundtrip. unfold size_t_ok, SIZE_MAX. lia. Defined.

Lemma print_lu_fits_witness : (length (print_lu 18446744073709551615) + 1 < NUM_SIZE)%nat.
Proof. apply print_lu_fits. unfold size_t_ok, SIZE_MAX. lia. Defined.

Lemma bi_add_spec_witness : bi_add [bs "8"; bs "2"; bs "4"] = inr 14.
Proof. rewrite (bi_add_spec _ [8; 2; 4]); vm_compute; reflexivity. Defined.

Lemma bi_sub_spec_witness : bi_sub [bs "80"; bs "20"; bs "5"] = inr 55.
Proof. rewrite (bi_sub_spec _ _ 80 [20; 5]); vm_compute; reflexivity. Defined.

Lemma bi_div_spec_witness : bi_div [bs "100"; bs ""; bs "3"; bs "2"] = inr 16.
Proof. rewrite (bi_div_spec _ _ 100 [3; 2]); vm_compute; reflexivity. Defined.

Lemma bi_mult_spec_witness :
  bi_mult [bs "1099511627776"; bs "1099511627776"; bs "0"] =
    if existsb (fun k => SIZE_MAX <? Zprod (take k [1099511627776; 1099511627776; 0])) (seq 1 3)
    then inl (bs "mult: Integer overflow") else inr (Zprod [1099511627776; 1099511627776; 0]).
Proof. apply (bi_mult_spec _ [1099511627776; 1099511627776; 0]). vm_compute. reflexivity. Defined.

Lemma bi_incr_spec_witness : bi_incr (bs "18446744073709551615") = inl (bs "incr: Integer overflow").
Proof. rewrite (bi_incr_spec _ 18446744073709551615); vm_compute; reflexivity. Defined.

End Num.
