(* ===== verification/SymTab.v ===== *)
(** * The symbol table: a chained hash table of macros

    [struct entry] (lines 133-137) and the table [ht] of [HASH_TABLE_SIZE]
    chains (line 108) with [hash_str] (djb2, lines 375-383),
    [lookup_entry], [get_def], [upsert_entry], [delete_entry] (lines
    407-489) and the histogram [htdist] (lines 385-405).

    The array of [HASH_TABLE_SIZE] chain heads is a [gmap] from the bucket
    index to the chain, head first; a missing bucket is a [NULL] head.  An
    entry's [def] is [None] for a built-in ([NULL]) and [Some d] for a user
    macro.  Names and definitions are C strings ([strdup]), so they are
    stored as [cstr] of the argument.  Allocation failure is not modelled:
    [upsert_entry] always succeeds.

    The interface the macro engine uses is the class [MacroTable] with its
    laws [MacroTableLaws]; the hash table and an abstract map both implement
    it, and [delete_entry] satisfies only the weaker laws because of the
    head-of-chain bug proved in [delete_head_loses_chain]. *)

From Stdlib Require Import ZArith Lia List String.
From stdpp Require Import base list gmap.
From S2P Require Import Prelude Bytes Num.

Local Open Scope Z_scope.

Module SymTab.

Definition HASH_TABLE_SIZE : Z := 16384.

Record entry := mk_entry { e_name : bytes; e_def : option bytes }.

Abbreviation table := (gmap Z (list entry)).

(** ** djb2 *)

(** [h = h * 33 ^ c] on a [size_t] [h] and an [unsigned char] [c]. *)
Definition hash_step (h c : Z) : Z := Z.lxor (wrap64 (h * 33)) c.

Definition hash_str (s : bytes) : Z :=
  fold_left hash_step (cstr s) 5381 mod HASH_TABLE_SIZE.

(** ** Chains *)

Definition bucket (ht : table) (h : Z) : list entry := default [] (ht !! h).

(** The [while (e != NULL)] scan of [lookup_entry] with [strcmp]. *)
Fixpoint chain_find (name : bytes) (c : list entry) : option entry :=
  match c with
  | [] => None
  | e :: r => if bool_decide (name = e_name e) then Some e else chain_find name r
  end.

Definition lookup_entry (ht : table) (name : bytes) : option entry :=
  chain_find (cstr name) (bucket ht (hash_str name)).

(** [get_def]: [NULL] for an unknown name and for a built-in. *)
Definition get_def (ht : table) (name : bytes) : option bytes :=
  e ← lookup_entry ht name; e_def e.

(** The update branch of [upsert_entry]: the definition of the entry found
    is replaced ([free(e->def); e->def = t]). *)
Fixpoint chain_set_def (name : bytes) (d : option bytes) (c : list entry) : list entry :=
  match c with
  | [] => []
  | e :: r =>
      if bool_decide (name = e_name e) then mk_entry (e_name e) d :: r
      else e :: chain_set_def name d r
  end.

(** [upsert_entry(ht, name, def)]: insert at the head of the chain a new
    entry with cloned name and definition, or replace the definition of the
    entry already there. *)
Definition upsert_entry (ht : table) (name : bytes) (def : option bytes) : table :=
  let h := hash_str name in
  let d := cstr <$> def in
  match lookup_entry ht name with
  | None => <[h := mk_entry (cstr name) d :: bucket ht h]> ht
  | Some _ => <[h := chain_set_def (cstr name) d (bucket ht h)]> ht
  end.

(** [prev->next = e->next] for a match after the head of the chain. *)
Fixpoint chain_unlink (name : bytes) (c : list entry) : option (list entry) :=
  match c with
  | [] => None
  | e :: r =>
      if bool_decide (name = e_name e) then Some r
      else r' ← chain_unlink name r; Some (e :: r')
  end.

(** [delete_entry(ht, name)]: [None] is the return value 1 (not found).  A
    match at the head of the chain ([prev == NULL]) sets the chain head to
    [NULL], as line 483 does, whatever follows the deleted entry. *)
Definition delete_entry (ht : table) (name : bytes) : option table :=
  let h := hash_str name in
  match bucket ht h with
  | [] => None
  | e :: r =>
      if bool_decide (cstr name = e_name e) then Some (<[h := []]> ht)
      else r' ← chain_unlink (cstr name) r; Some (<[h := e :: r']> ht)
  end.

(** ** [htdist] *)

(** [freq[k]] for the buckets [0 .. HASH_TABLE_SIZE - 1] (lines 389-397):
    chains of 100 entries or more are counted in [freq[100]]. *)
Definition htdist_count (ht : table) (freq : list Z) (k : nat) : list Z :=
  let count := length (bucket ht (Z.of_nat k)) in
  let slot := Nat.min count 100 in
  <[slot := freq !!! slot + 1]> freq.

Definition htdist_freq (ht : table) : list Z :=
  fold_left (htdist_count ht) (seq 0 (Z.to_nat HASH_TABLE_SIZE)) (replicate 101 0).

(** The report written to [stderr] (lines 398-404). *)
Definition htdist (ht : table) : bytes :=
  let freq := htdist_freq ht in
  bs "entries_per_bucket number_of_buckets" ++ [10] ++
  concat (map (fun k => let n := freq !!! k in
                        if n =? 0 then []
                        else Num.print_lu (Z.of_nat k) ++ [32] ++ Num.print_lu n ++ [10])
              (seq 0 100)) ++
  (let n := freq !!! 100%nat in
   if n =? 0 then [] else bs ">=100 " ++ Num.print_lu n ++ [10]).

(** The definition found for a name: [None] when unknown, [Some None] for a
    built-in, [Some (Some d)] for a user macro. *)
Definition find_def (ht : table) (name : bytes) : option (option bytes) :=
  e_def <$> lookup_entry ht name.

(** ** Well-formedness of the table

    Every entry sits in the chain of its hash, its name is a C string, and
    the names of a chain are distinct. *)
Definition chain_wf (h : Z) (c : list entry) : Prop :=
  Forall (fun e => hash_str (e_name e) = h /\ no_nul (e_name e)) c /\
  NoDup (e_name <$> c).

Definition ht_wf (ht : table) : Prop := map_Forall chain_wf ht.

#[export] Instance chain_wf_dec h c : Decision (chain_wf h c).
Proof. unfold chain_wf, no_nul. apply _. Defined.

#[export] Instance ht_wf_dec ht : Decision (ht_wf ht).
Proof. unfold ht_wf. apply _. Defined.

(** ** Lemmas on chains *)

Lemma bucket_insert ht h h' c :
  bucket (<[h := c]> ht) h' = if bool_decide (h = h') then c else bucket ht h'.
Proof. unfold bucket. case_bool_decide; simplify_map_eq; done. Qed.

Lemma hash_str_cstr n : hash_str (cstr n) = hash_str n.
Proof. unfold hash_str. by rewrite cstr_idem. Qed.

Lemma hash_str_eq n n' : cstr n = cstr n' -> hash_str n = hash_str n'.
Proof. unfold hash_str. by intros ->. Qed.

Lemma chain_find_Some n c e : chain_find n c = Some e -> e ∈ c /\ e_name e = n.
Proof.
  induction c as [|e' c IH]; simpl; [discriminate|].
  case_bool_decide; [intros [= <-]; split; [left | done] |].
  intros (? & ?)%IH. split; [by right | done].
Qed.

Lemma chain_find_None n c : chain_find n c = None <-> n ∉ e_name <$> c.
Proof.
  induction c as [|e c IH]; simpl; [split; [intros _; apply not_elem_of_nil | done]|].
  rewrite elem_of_cons. case_bool_decide; [split; [discriminate | tauto]|].
  rewrite IH. tauto.
Qed.

Lemma chain_find_set_def n n' d c :
  chain_find n' (chain_set_def n d c) =
    if bool_decide (n = n') then (fun _ => mk_entry n d) <$> chain_find n c
    else chain_find n' c.
Proof.
  induction c as [|e c IH]; simpl; [by case_bool_decide|].
  repeat case_bool_decide; simpl; subst; try rewrite IH; repeat case_bool_decide;
    simpl; try congruence; done.
Qed.

(** The definition of a name after [upsert_entry] is the new one, and the
    other names keep theirs. *)
Lemma find_def_upsert ht n d n' :
  find_def (upsert_entry ht n d) n' =
    if bool_decide (cstr n = cstr n') then Some (cstr <$> d) else find_def ht n'.
Proof.
  unfold find_def, upsert_entry, lookup_entry.
  destruct (bool_decide (cstr n = cstr n')) eqn:Hn.
  - apply bool_decide_eq_true in Hn. rewrite <- (hash_str_eq _ _ Hn), <- Hn.
    destruct (chain_find (cstr n) (bucket ht (hash_str n))) eqn:Hf;
      rewrite bucket_insert, bool_decide_true by done; simpl.
    + rewrite chain_find_set_def, bool_decide_true, Hf by done. done.
    + by rewrite bool_decide_true.
  - apply bool_decide_eq_false in Hn.
    destruct (chain_find (cstr n) (bucket ht (hash_str n))) eqn:Hf;
      rewrite bucket_insert; case_bool_decide as Hh; subst; simpl; try done.
    + rewrite chain_find_set_def, bool_decide_false by done. by rewrite Hh.
    + rewrite bool_decide_false by done. by rewrite Hh.
Qed.

Lemma chain_find_app n l1 l2 :
  chain_find n (l1 ++ l2) =
    match chain_find n l1 with Some e => Some e | None => chain_find n l2 end.
Proof. induction l1 as [|e l1 IH]; simpl; [done|]. by case_bool_decide. Qed.

Lemma chain_unlink_Some n c c' :
  chain_unlink n c = Some c' ->
  exists l1 e l2, c = l1 ++ e :: l2 /\ chain_find n l1 = None /\ e_name e = n /\ c' = l1 ++ l2.
Proof.
  revert c'. induction c as [|e c IH]; intros c'; simpl; [discriminate|].
  case_bool_decide as He.
  - intros [= <-]. by exists [], e, c.
  - destruct (chain_unlink n c) as [r|] eqn:Hr; simpl; [|discriminate].
    intros [= <-]. destruct (IH r eq_refl) as (l1 & e' & l2 & -> & Hf & Hn & ->).
    exists (e :: l1), e', l2. simpl. rewrite bool_decide_false by done. done.
Qed.

Lemma chain_unlink_None n c : chain_unlink n c = None <-> chain_find n c = None.
Proof.
  induction c as [|e c IH]; simpl; [done|].
  case_bool_decide; [done|]. destruct (chain_unlink n c); simpl; rewrite <- IH; done.
Qed.

Lemma chain_find_elem c e :
  NoDup (e_name <$> c) -> e ∈ c -> chain_find (e_name e) c = Some e.
Proof.
  induction c as [|e' c IH]; simpl; [by intros _ ?%not_elem_of_nil|].
  rewrite NoDup_cons, elem_of_cons. intros [Hn Hd] [->|He]; [by rewrite bool_decide_true|].
  rewrite bool_decide_false; [by apply IH|].
  intros Heq. apply Hn. rewrite <- Heq. by apply list_elem_of_fmap_2.
Qed.

Lemma bucket_wf ht h : ht_wf ht -> chain_wf h (bucket ht h).
Proof.
  unfold bucket. intros Hwf. destruct (ht !! h) as [c|] eqn:Hc; simpl.
  - by apply Hwf.
  - split; [constructor | constructor].
Qed.

Lemma names_set_def n d c : e_name <$> chain_set_def n d c = e_name <$> c.
Proof. induction c as [|e c IH]; simpl; [done|]. case_bool_decide; simpl; by f_equal. Qed.

Lemma set_def_elem n d c e : e ∈ chain_set_def n d c -> e_name e ∈ e_name <$> c.
Proof.
  intros He. rewrite <- (names_set_def n d). by apply list_elem_of_fmap_2.
Qed.

(** [upsert_entry] keeps the table well formed. *)
Lemma upsert_wf ht n d : ht_wf ht -> ht_wf (upsert_entry ht n d).
Proof.
  intros Hwf. pose proof (bucket_wf ht (hash_str n) Hwf) as [Hf Hd].
  unfold upsert_entry, lookup_entry.
  destruct (chain_find (cstr n) _) eqn:Hc; apply map_Forall_insert_2; try done; split.
  - rewrite Forall_forall in Hf |- *. intros x Hx.
    apply set_def_elem, list_elem_of_fmap in Hx as (y & Hn & Hy).
    destruct (Hf y Hy) as [Hh Hnn]. rewrite Hn. done.
  - by rewrite names_set_def.
  - constructor; [|done]. split; [apply hash_str_cstr | apply cstr_is_no_nul].
  - simpl. constructor; [|done]. by apply chain_find_None.
Qed.

(** The names a chain keeps after [chain_unlink] satisfy the chain's
    invariant. *)
Lemma unlink_wf h l1 e l2 :
  chain_wf h (l1 ++ e :: l2) -> chain_wf h (l1 ++ l2).
Proof.
  intros [Hf Hd]. split.
  - apply Forall_app in Hf as [? Hf2]. apply Forall_app. split; [done|]. by inv Hf2.
  - rewrite fmap_app in Hd |- *. simpl in Hd.
    apply NoDup_app in Hd as (Hd1 & Hdis & Hd2). inv Hd2.
    apply NoDup_app. repeat split; [done| |done].
    intros x Hx1 Hx2. apply (Hdis x Hx1). by right.
Qed.

(** [delete_entry] keeps the table well formed. *)
Lemma delete_wf ht n ht' : ht_wf ht -> delete_entry ht n = Some ht' -> ht_wf ht'.
Proof.
  intros Hwf. pose proof (bucket_wf ht (hash_str n) Hwf) as Hb.
  unfold delete_entry. destruct (bucket ht (hash_str n)) as [|e r] eqn:He; [discriminate|].
  case_bool_decide.
  - intros [= <-]. apply map_Forall_insert_2; [|done]. split; constructor.
  - destruct (chain_unlink (cstr n) r) as [r'|] eqn:Hu; simpl; [|discriminate].
    intros [= <-]. apply map_Forall_insert_2; [|done].
    apply chain_unlink_Some in Hu as (l1 & e' & l2 & -> & _ & _ & ->).
    apply (unlink_wf _ (e :: l1) e' l2 Hb).
Qed.

(** [delete_entry] fails exactly on an unknown name. *)
Lemma delete_None ht n : delete_entry ht n = None <-> find_def ht n = None.
Proof.
  unfold delete_entry, find_def, lookup_entry.
  destruct (bucket ht (hash_str n)) as [|e r]; simpl; [done|].
  case_bool_decide; simpl; [done|].
  destruct (chain_unlink (cstr n) r) eqn:Hu; simpl.
  - split; [discriminate|]. intros Hf%fmap_None%chain_unlink_None. congruence.
  - apply chain_unlink_None in Hu. by rewrite Hu.
Qed.

(** C7: ** The head-of-chain bug of [delete_entry]

    When the deleted entry heads a chain with successors, line 483 sets the
    chain head to [NULL] and every other macro of the chain becomes
    undefined, built-ins included. *)
Theorem delete_head_loses_chain ht n e r :
  ht_wf ht -> bucket ht (hash_str n) = e :: r -> e_name e = cstr n ->
  exists ht', delete_entry ht n = Some ht' /\
    forall e', e' ∈ r ->
      find_def ht (e_name e') = Some (e_def e') /\ find_def ht' (e_name e') = None.
Proof.
  intros Hwf Hb Hn. pose proof (bucket_wf ht (hash_str n) Hwf) as [Hf Hd]. rewrite Hb in Hf, Hd.
  unfold delete_entry. rewrite Hb, bool_decide_true by done.
  eexists; split; [done|]. intros e' He'.
  rewrite Forall_forall in Hf. destruct (Hf e' (list_elem_of_further _ _ _ He')) as [Hh Hnn].
  unfold find_def, lookup_entry. rewrite (cstr_no_nul _ Hnn), Hh, bucket_insert.
  rewrite bool_decide_true by done. split; [|done].
  rewrite Hb, chain_find_elem; [done|done|]. by right.
Qed.

(** The two ways [delete_entry] succeeds. *)
Lemma delete_entry_Some ht n ht' :
  delete_entry ht n = Some ht' ->
  (exists e r, bucket ht (hash_str n) = e :: r /\ e_name e = cstr n /\
               ht' = <[hash_str n := []]> ht) \/
  (exists e l1 x l2, bucket ht (hash_str n) = e :: l1 ++ x :: l2 /\ e_name e <> cstr n /\
               chain_find (cstr n) l1 = None /\ e_name x = cstr n /\
               ht' = <[hash_str n := e :: l1 ++ l2]> ht).
Proof.
  unfold delete_entry. destruct (bucket ht (hash_str n)) as [|e r] eqn:Hb; [discriminate|].
  case_bool_decide as He.
  - intros [= <-]. left. by exists e, r.
  - destruct (chain_unlink (cstr n) r) as [r'|] eqn:Hu; simpl; [|discriminate].
    intros [= <-]. apply chain_unlink_Some in Hu as (l1 & x & l2 & -> & Hf & Hx & ->).
    right. by exists e, l1, x, l2.
Qed.

Lemma chain_find_skip n' l1 x l2 :
  n' <> e_name x -> chain_find n' (l1 ++ x :: l2) = chain_find n' (l1 ++ l2).
Proof.
  intros Hx. rewrite !chain_find_app. destruct (chain_find n' l1); [done|].
  simpl. by rewrite bool_decide_false.
Qed.

(** After [delete_entry] the deleted name is unknown. *)
Lemma find_def_delete_self ht n ht' :
  ht_wf ht -> delete_entry ht n = Some ht' -> find_def ht' n = None.
Proof.
  intros Hwf Hd. pose proof (bucket_wf ht (hash_str n) Hwf) as [_ Hnd].
  unfold find_def, lookup_entry.
  destruct (delete_entry_Some _ _ _ Hd) as [(e & r & Hb & He & ->)|(e & l1 & x & l2 & Hb & He & Hf & Hx & ->)];
    rewrite bucket_insert, bool_decide_true by done; [done|].
  rewrite Hb in Hnd. simpl. rewrite bool_decide_false by congruence.
  rewrite chain_find_app, Hf. apply fmap_None, chain_find_None.
  rewrite fmap_cons, fmap_app, fmap_cons in Hnd. apply NoDup_cons in Hnd as [_ Hnd].
  apply NoDup_app in Hnd as (_ & _ & Hnd). apply NoDup_cons in Hnd as [Hnd _].
  by rewrite <- Hx.
Qed.

(** Whether deleting [n] hits the bug: [n] heads a chain with
    successors. *)
Definition loses_chain (ht : table) (n : bytes) : bool :=
  match bucket ht (hash_str n) with
  | e :: _ :: _ => bool_decide (e_name e = cstr n)
  | _ => false
  end.

Lemma loses_chain_false ht n e r :
  loses_chain ht n = false -> bucket ht (hash_str n) = e :: r -> e_name e = cstr n -> r = [].
Proof.
  unfold loses_chain. intros Hl Hb He. rewrite Hb in Hl.
  destruct r; [done|]. by rewrite bool_decide_true in Hl.
Qed.

(** Unless the bug strikes, [delete_entry] keeps every other name. *)
Lemma find_def_delete_other ht n ht' n' :
  loses_chain ht n = false -> delete_entry ht n = Some ht' -> cstr n <> cstr n' ->
  find_def ht' n' = find_def ht n'.
Proof.
  intros Hl Hd Hn. unfold find_def, lookup_entry.
  destruct (delete_entry_Some _ _ _ Hd) as [(e & r & Hb & He & ->)|(e & l1 & x & l2 & Hb & He & Hf & Hx & ->)];
    rewrite bucket_insert; case_bool_decide as Hh; try done.
  - rewrite (loses_chain_false _ _ _ _ Hl Hb He) in Hb. rewrite <- Hh, Hb. simpl.
    by rewrite bool_decide_false by congruence.
  - rewrite <- Hh, Hb. simpl. case_bool_decide; [done|].
    by rewrite chain_find_skip by congruence.
Qed.

(** A name is looked up as the C string it holds. *)
Lemma find_def_cstr_eq ht n n' : cstr n = cstr n' -> find_def ht n = find_def ht n'.
Proof. intros H. unfold find_def, lookup_entry. by rewrite (hash_str_eq _ _ H), H. Qed.

(** ** Refinement of an abstract map of macros *)

(** The abstract symbol table: a finite map from names to definitions
    ([None] for a built-in). *)
Abbreviation amap := (gmap bytes (option bytes)).

Definition refines (ht : table) (m : amap) : Prop := forall n, find_def ht n = m !! cstr n.

Lemma refines_empty : refines ∅ ∅.
Proof. intros n. unfold find_def, lookup_entry, bucket. by rewrite lookup_empty. Qed.

(** [upsert_entry] implements insertion into the abstract map. *)
Lemma upsert_refines ht m n d :
  refines ht m -> refines (upsert_entry ht n d) (<[cstr n := cstr <$> d]> m).
Proof.
  intros Hr n'. rewrite find_def_upsert, Hr.
  case_bool_decide as H; [rewrite H; by simplify_map_eq | by rewrite lookup_insert_ne].
Qed.

Definition amap_delete (m : amap) (n : bytes) : option amap :=
  match m !! cstr n with None => None | Some _ => Some (delete (cstr n) m) end.

(** [delete_entry] implements deletion from the abstract map (and fails on
    an unknown name) as long as the deleted entry does not head a chain with
    successors. *)
Lemma delete_refines ht m n ht' :
  ht_wf ht -> refines ht m -> loses_chain ht n = false ->
  delete_entry ht n = Some ht' -> exists m', amap_delete m n = Some m' /\ refines ht' m'.
Proof.
  intros Hwf Hr Hl Hd. unfold amap_delete.
  destruct (m !! cstr n) eqn:Hm.
  2:{ rewrite <- Hr, <- delete_None in Hm. congruence. }
  eexists; split; [done|]. intros n'. destruct (decide (cstr n = cstr n')) as [Heq|Hne].
  - rewrite <- Heq, lookup_delete_eq, <- (find_def_cstr_eq _ _ _ Heq).
    apply (find_def_delete_self ht n ht' Hwf Hd).
  - rewrite lookup_delete_ne by done. rewrite <- Hr. by apply (find_def_delete_other ht n).
Qed.

Lemma delete_refines_None ht m n :
  refines ht m -> delete_entry ht n = None -> amap_delete m n = None.
Proof.
  intros Hr Hd. unfold amap_delete. apply delete_None in Hd. rewrite Hr in Hd. by rewrite Hd.
Qed.

(** ** Traces of [define] and [undefine] *)

Inductive tab_op := Upsert (n : bytes) (d : option bytes) | Delete (n : bytes).

(** A sequence of [upsert_entry] and [delete_entry] calls; [None] when a
    deletion fails (the [QUIT] of [undefine]). *)
Fixpoint ht_run (ops : list tab_op) (ht : table) : option table :=
  match ops with
  | [] => Some ht
  | Upsert n d :: r => ht_run r (upsert_entry ht n d)
  | Delete n :: r => ht' ← delete_entry ht n; ht_run r ht'
  end.

Fixpoint abs_run (ops : list tab_op) (m : amap) : option amap :=
  match ops with
  | [] => Some m
  | Upsert n d :: r => abs_run r (<[cstr n := cstr <$> d]> m)
  | Delete n :: r => m' ← amap_delete m n; abs_run r m'
  end.

(** No deletion of the trace hits the head-of-chain bug. *)
Fixpoint trace_safe (ops : list tab_op) (ht : table) : bool :=
  match ops with
  | [] => true
  | Upsert n d :: r => trace_safe r (upsert_entry ht n d)
  | Delete n :: r =>
      negb (loses_chain ht n) &&
      match delete_entry ht n with Some ht' => trace_safe r ht' | None => true end
  end.

Lemma ht_run_refines ops ht m :
  ht_wf ht -> refines ht m -> trace_safe ops ht = true ->
  match ht_run ops ht, abs_run ops m with
  | Some ht', Some m' => refines ht' m'
  | None, None => True
  | _, _ => False
  end.
Proof.
  revert ht m. induction ops as [|[n d|n] ops IH]; intros ht m Hwf Hr Hs; simpl in *.
  - done.
  - apply IH; [by apply upsert_wf | by apply upsert_refines | done].
  - apply andb_prop in Hs as [Hl Hs]. apply negb_true_iff in Hl.
    destruct (delete_entry ht n) as [ht'|] eqn:Hd; simpl.
    + destruct (delete_refines ht m n ht' Hwf Hr Hl Hd) as (m' & -> & Hr'). simpl.
      apply IH; [by eapply delete_wf | done | done].
    + by rewrite (delete_refines_None ht m n Hr Hd).
Qed.

(** C8: The hash table implements the abstract map of macros along any trace
    of definitions and deletions that avoids the head-of-chain bug: both
    succeed or fail together, and the final tables agree on every name. *)
Theorem hash_table_refines ops :
  trace_safe ops ∅ = true ->
  match ht_run ops ∅, abs_run ops ∅ with
  | Some ht', Some m' => forall n, find_def ht' n = m' !! cstr n
  | None, None => True
  | _, _ => False
  end.
Proof.
  intros Hs. apply (ht_run_refines ops ∅ ∅); [apply map_Forall_empty | apply refines_empty | done].
Qed.

(** C30: Every trace of [upsert_entry] and [delete_entry] keeps the table well
    formed. *)
Theorem ht_run_wf ops ht ht' : ht_wf ht -> ht_run ops ht = Some ht' -> ht_wf ht'.
Proof.
  revert ht. induction ops as [|[n d|n] ops IH]; intros ht Hwf; simpl.
  - by intros [= <-].
  - apply IH. by apply upsert_wf.
  - destruct (delete_entry ht n) eqn:Hd; simpl; [|discriminate]. apply IH. by eapply delete_wf.
Qed.

(** ** The hash function *)

(** The bucket index is in range for the array of chain heads. *)
Lemma hash_str_range s : 0 <= hash_str s < HASH_TABLE_SIZE.
Proof. unfold hash_str, HASH_TABLE_SIZE. apply Z.mod_pos_bound. lia. Qed.

(** djb2 computed on the 14 low bits only, the width of the index. *)
Definition hash_str_low (s : bytes) : Z :=
  fold_left (fun h c => Z.lxor (h * 33) c mod HASH_TABLE_SIZE) (cstr s)
            (5381 mod HASH_TABLE_SIZE).

Lemma testbit_mod_low a k i : 0 <= i < k -> Z.testbit (a mod 2 ^ k) i = Z.testbit a i.
Proof. intros. apply Z.mod_pow2_bits_low. lia. Qed.

Lemma hash_step_low h c :
  hash_step h c mod 2 ^ 14 = Z.lxor (h mod 2 ^ 14 * 33) c mod 2 ^ 14.
Proof.
  unfold hash_step, wrap64. apply Z.bits_inj'. intros i Hi.
  destruct (Z.ltb_spec i 14).
  - rewrite !testbit_mod_low, !Z.lxor_spec, testbit_mod_low by lia. f_equal.
    rewrite <- (testbit_mod_low (h * 33) 14), <- (testbit_mod_low (h mod 2 ^ 14 * 33) 14) by lia.
    by rewrite Z.mul_mod_idemp_l by lia.
  - rewrite !Z.mod_pow2_bits_high by lia. done.
Qed.

(** C35: The chain a name goes to does not depend on the width of [size_t]:
    djb2 with 64-bit wrap-around, reduced modulo [HASH_TABLE_SIZE = 2^14],
    equals djb2 computed modulo [2^14] throughout. *)
Theorem hash_str_low_equiv s : hash_str s = hash_str_low s.
Proof.
  unfold hash_str, hash_str_low, HASH_TABLE_SIZE. change 16384 with (2 ^ 14).
  generalize (cstr s) 5381. intros l. induction l as [|c l IH]; intros h; simpl; [done|].
  rewrite IH. f_equal. apply hash_step_low.
Qed.

(** ** [htdist] counts every bucket once *)

Lemma Zsum_insert_incr (l : list Z) i :
  (i < length l)%nat -> Num.Zsum (<[i := l !!! i + 1]> l) = Num.Zsum l + 1.
Proof.
  revert i. induction l as [|x l IH]; intros [|i] Hi; simpl in *; try lia.
  unfold Num.Zsum in *. simpl. rewrite IH by lia. lia.
Qed.

Lemma htdist_freq_go ht ks freq :
  length freq = 101%nat ->
  length (fold_left (htdist_count ht) ks freq) = 101%nat /\
  Num.Zsum (fold_left (htdist_count ht) ks freq) = Num.Zsum freq + Z.of_nat (length ks).
Proof.
  revert freq. induction ks as [|k ks IH]; intros freq Hl; simpl; [split; [done|lia]|].
  destruct (IH (htdist_count ht freq k)) as [IH1 IH2];
    [unfold htdist_count; by rewrite length_insert|].
  split; [done|]. rewrite IH2. unfold htdist_count. rewrite Zsum_insert_incr by lia. lia.
Qed.

(** The histogram of [htdist] accounts for each of the [HASH_TABLE_SIZE]
    buckets exactly once. *)
Theorem htdist_freq_total ht : Num.Zsum (htdist_freq ht) = HASH_TABLE_SIZE.
Proof.
  unfold htdist_freq. destruct (htdist_freq_go ht (seq 0 (Z.to_nat HASH_TABLE_SIZE)) (replicate 101 0))
    as [_ ->]; [by rewrite length_replicate|].
  rewrite length_seq. unfold Num.Zsum. simpl. done.
Qed.

(** ** Witnesses *)

(** The built-in [add] and the name [pdu] share the chain 12868. *)
Definition pdu_table : table :=
  upsert_entry (upsert_entry ∅ (bs "add") None) (bs "pdu") (Some (bs "x")).

Lemma delete_head_loses_chain_witness :
  exists ht', delete_entry pdu_table (bs "pdu") = Some ht' /\
    forall e', e' ∈ [mk_entry (bs "add") None] ->
      find_def pdu_table (e_name e') = Some (e_def e') /\ find_def ht' (e_name e') = None.
Proof.
  apply (delete_head_loses_chain pdu_table (bs "pdu") (mk_entry (bs "pdu") (Some (bs "x")))).
  - decide_by_eval.
  - vm_compute. reflexivity.
  - vm_compute. reflexivity.
Defined.

Definition trace1 : list tab_op :=
  [Upsert (bs "add") None; Upsert (bs "define") None; Upsert (bs "x") (Some (bs "1"));
   Upsert (bs "x") (Some (bs "2")); Delete (bs "define")].

Lemma hash_table_refines_witness :
  match ht_run trace1 ∅, abs_run trace1 ∅ with
  | Some ht', Some m' => forall n, find_def ht' n = m' !! cstr n
  | None, None => True
  | _, _ => False
  end.
Proof. apply (hash_table_refines trace1). vm_compute. reflexivity. Defined.

Lemma ht_run_wf_witness : ht_wf (default ∅ (ht_run trace1 ∅)).
Proof.
  apply (ht_run_wf trace1 ∅).
  - decide_by_eval.
  - vm_compute. reflexivity.
Defined.

End SymTab.

(** ** The interface of the symbol table to the macro engine

    What the engine asks of a table of macros: finding the definition of a
    name ([None]: unknown; [Some None]: built-in), inserting or replacing a
    definition, deleting a name ([None]: not found), and the diagnostic dump
    of [htdist].  [MacroTableLaws] are the laws the engine's theorems rely
    on, under the table's own invariant [mt_wf]. *)

Class MacroTable (T : Type) := {
  mt_empty : T;
  mt_find : T -> bytes -> option (option bytes);
  mt_upsert : T -> bytes -> option bytes -> T;
  mt_delete : T -> bytes -> option T;
  mt_dist : T -> bytes;
  mt_wf : T -> Prop;
}.

Class MacroTableLaws (T : Type) `{MacroTable T} := {
  mt_find_empty n : mt_find mt_empty n = None;
  mt_empty_wf : mt_wf mt_empty;
  mt_find_upsert t n d n' :
    mt_find (mt_upsert t n d) n' =
      if bool_decide (cstr n = cstr n') then Some (cstr <$> d) else mt_find t n';
  mt_upsert_wf t n d : mt_wf t -> mt_wf (mt_upsert t n d);
  mt_delete_None t n : mt_delete t n = None <-> mt_find t n = None;
  mt_delete_wf t n t' : mt_wf t -> mt_delete t n = Some t' -> mt_wf t';
  mt_find_delete t n t' : mt_wf t -> mt_delete t n = Some t' -> mt_find t' n = None;
}.

#[export] Instance hash_table_ops : MacroTable SymTab.table := {|
  mt_empty := ∅;
  mt_find := SymTab.find_def;
  mt_upsert := SymTab.upsert_entry;
  mt_delete := SymTab.delete_entry;
  mt_dist := SymTab.htdist;
  mt_wf := SymTab.ht_wf;
|}.

#[export] Instance hash_table_laws : MacroTableLaws SymTab.table.
Proof.
  split.
  - intros n. simpl. rewrite (SymTab.refines_empty n). apply lookup_empty.
  - apply map_Forall_empty.
  - apply SymTab.find_def_upsert.
  - apply SymTab.upsert_wf.
  - apply SymTab.delete_None.
  - apply SymTab.delete_wf.
  - apply SymTab.find_def_delete_self.
Qed.

(** The abstract table: the behaviour the code means, with a [delete] that
    keeps every other name. *)
Module AbsTab.
Import SymTab.

#[export] Instance amap_ops : MacroTable SymTab.amap := {|
  mt_empty := ∅;
  mt_find m n := m !! cstr n;
  mt_upsert m n d := <[cstr n := cstr <$> d]> m;
  mt_delete := SymTab.amap_delete;
  mt_dist _ := [];
  mt_wf _ := True;
|}.

#[export] Instance amap_laws : MacroTableLaws SymTab.amap.
Proof.
  split; simpl.
  - intros n. apply lookup_empty.
  - done.
  - intros m n d n'. case_bool_decide as H; [rewrite H; by simplify_map_eq|].
    by rewrite lookup_insert_ne.
  - done.
  - intros m n. unfold amap_delete. destruct (m !! cstr n); done.
  - done.
  - intros m n m' _. unfold amap_delete. destruct (m !! cstr n); [|done].
    intros [= <-]. apply lookup_delete_eq.
Qed.

End AbsTab.
