(* ===== verification/Input.v ===== *)
(** * The input stream: a pushback stack of bytes with a [stdin] fallback

    [struct buf input] is used as a LIFO: [getch] (the macro of lines
    118-119) pops its top byte, [ungetch] (lines 194-200) pushes one,
    [ungetstr] (lines 312-319) pushes a C string so that its first byte is
    read first, and [include] (lines 221-255) pushes a whole file the same
    way.  When the stack is empty and [read_stdin] is set, [getch] reads
    [getchar()].

    The stack is the list [input], top first (the reverse of [a[0 .. i-1]]).
    A byte pushed through [ungetch] is stored in a [char] and read back by
    [getch] as that [char]: on the modelled host [char] is signed, so the
    byte [0xFF] reads back as [-1], which is [EOF].  The file system seen by
    [include] and [filesize] is a function from C-string paths to the
    contents of regular files. *)

From Stdlib Require Import ZArith Lia List.
From stdpp Require Import base list.
From S2P Require Import Prelude Bytes.

Local Open Scope Z_scope.

Module Input.

Record stream := mk_stream {
  input : bytes;         (** the pushback stack, top first *)
  stdin : bytes;         (** what [getchar()] has still to read *)
  read_stdin : bool;     (** [read_stdin] of [main] *)
}.

Definition set_input (s : stream) (inp : bytes) : stream :=
  mk_stream inp (stdin s) (read_stdin s).

(** [getch(b, read_stdin)]: the popped byte read back as a [char], else
    [getchar()], else [EOF]. *)
Definition getch (s : stream) : Z * stream :=
  match input s with
  | c :: r => (to_char c, set_input s r)
  | [] =>
      if read_stdin s then
        match stdin s with
        | c :: r => (c, mk_stream [] r true)
        | [] => (EOF, s)
        end
      else (EOF, s)
  end.

(** [ungetch(b, ch)] on a buffer read in index order (the token, the
    result of [sub_args]): the [char] stored is appended and the value of
    the assignment, a [char], is returned. *)
Definition ungetch (b : bytes) (ch : Z) : Z * bytes := (to_char ch, b ++ [byte_of ch]).

(** [ungetch(input, ch)]: the same function on the pushback stack. *)
Definition unget_input (inp : bytes) (ch : Z) : Z * bytes := (to_char ch, byte_of ch :: inp).

(** The loop of [ungetstr] over the bytes still to push, last byte first;
    it stops, returning failure, at the first push that returns [EOF]. *)
Fixpoint ungetstr_go (rs : bytes) (inp : bytes) : bytes * bool :=
  match rs with
  | [] => (inp, true)
  | c :: r =>
      let '(v, inp') := unget_input inp (to_char c) in
      if v =? EOF then (inp', false) else ungetstr_go r inp'
  end.

(** [ungetstr(b, s)]: the stack after the call and whether it returned 0. *)
Definition ungetstr (inp : bytes) (s : bytes) : bytes * bool :=
  ungetstr_go (rev (cstr s)) inp.

(** [include(b, fn)]: [None] when [filesize] or [fopen] fails; otherwise
    the file's bytes are stored below [b->i + fs] backwards, so that its
    first byte is on top. *)
Definition include (files : bytes -> option bytes) (inp : bytes) (fn : bytes) : option bytes :=
  c ← files (cstr fn); Some (c ++ inp).

(** ** Lemmas *)

(** Pushing a C string without the byte [0xFF] puts it on top of the stack,
    first byte first. *)
Lemma ungetstr_go_ok rs inp :
  all_bytes rs -> Forall (fun c => c <> 255) rs ->
  ungetstr_go rs inp = (rev rs ++ inp, true).
Proof.
  revert inp. induction rs as [|c rs IH]; intros inp Hb Hn; simpl; [done|].
  invc Hb. invc Hn. unfold unget_input.
  rewrite byte_of_to_char by done.
  rewrite to_char_idem by done.
  destruct (Z.eqb_spec (to_char c) EOF) as [He|He].
  - exfalso. by apply (to_char_EOF c) in He.
  - rewrite IH by done. by rewrite <- app_assoc.
Qed.

(** C22: Pushing back a string without the byte [0xFF] puts it on top of the
    input, its first byte to be read first. *)
Theorem ungetstr_spec inp s :
  all_bytes s -> Forall (fun c => c <> 255) (cstr s) ->
  ungetstr inp s = (cstr s ++ inp, true).
Proof.
  intros Hb Hn. unfold ungetstr. rewrite ungetstr_go_ok.
  - by rewrite rev_involutive.
  - apply Forall_rev. by apply all_bytes_cstr.
  - by apply Forall_rev.
Qed.

Lemma ungetstr_go_fail r rest inp :
  all_bytes r -> Forall (fun c => c <> 255) r ->
  ungetstr_go (r ++ 255 :: rest) inp = (255 :: rev r ++ inp, false).
Proof.
  revert inp. induction r as [|c r IH]; intros inp Hb Hn; simpl.
  - unfold unget_input. vm_compute. reflexivity.
  - invc Hb. invc Hn. unfold unget_input.
    rewrite byte_of_to_char, to_char_idem by done.
    destruct (Z.eqb_spec (to_char c) EOF) as [He|He].
    + exfalso. by apply (to_char_EOF c) in He.
    + rewrite IH by done. by rewrite <- app_assoc.
Qed.

(** C23: [ungetstr] is not atomic: when the string holds the byte [0xFF], the
    push of its last [0xFF] returns [EOF] and [ungetstr] fails, leaving on
    the stack the bytes after that [0xFF] and the [0xFF] itself. *)
Theorem ungetstr_partial inp s l1 l2 :
  all_bytes s -> cstr s = l1 ++ 255 :: l2 -> Forall (fun c => c <> 255) l2 ->
  ungetstr inp s = (255 :: l2 ++ inp, false).
Proof.
  intros Hb Hs Hn. unfold ungetstr. rewrite Hs, rev_app_distr. simpl.
  rewrite <- app_assoc. simpl. rewrite ungetstr_go_fail.
  - by rewrite rev_involutive.
  - pose proof (all_bytes_cstr s Hb) as Hc. rewrite Hs in Hc.
    apply Forall_app in Hc as [_ Hc]. invc Hc. by apply Forall_rev.
  - by apply Forall_rev.
Qed.

(** [include] pushes the whole file on top of the stack. *)
Lemma include_spec files inp fn c :
  files (cstr fn) = Some c -> include files inp fn = Some (c ++ inp).
Proof. unfold include. intros ->. done. Qed.

(** The bytes [getch] will deliver, in order: the stack, then [stdin] when
    it is read. *)
Definition pending (s : stream) : bytes :=
  input s ++ (if read_stdin s then stdin s else []).

Definition measure (s : stream) : nat := length (input s) + length (stdin s).

(** [getch] pops the first pending byte, read back as a [char], or returns
    [EOF] when nothing is pending. *)
Lemma getch_pending s :
  match pending s with
  | [] => getch s = (EOF, s)
  | c :: r => exists s', getch s = (if bool_decide (input s = []) then c else to_char c, s') /\
                        pending s' = r /\ read_stdin s' = read_stdin s /\ measure s' < measure s
  end%nat.
Proof.
  destruct s as [[|c inp] sin [|]]; unfold pending, measure; simpl.
  - destruct sin as [|c r]; simpl; [done|]. eexists; split; [reflexivity|].
    repeat split; simpl; lia.
  - done.
  - eexists; split; [reflexivity|]. repeat split; simpl; lia.
  - rewrite app_nil_r. eexists; split; [reflexivity|]. repeat split; simpl; [by rewrite app_nil_r|lia].
Qed.

(** ** Witnesses *)

Lemma ungetstr_spec_witness : ungetstr ([99]) ([97; 98]) = ([97; 98; 99], true).
Proof. apply ungetstr_spec; decide_by_eval. Defined.

Lemma ungetstr_partial_witness : ungetstr ([99]) [97; 255; 98] = ([255; 98; 99], false).
Proof. apply (ungetstr_partial _ _ [97] [98]); [decide_by_eval | reflexivity | decide_by_eval]. Defined.

End Input.
