(* ===== verification/Buf.v ===== *)
(** * [struct buf] at the level of its allocation

    The other files see a buffer as the list of its bytes.  This file
    models [struct buf] (lines 123-127) as the code manages it: the bytes
    [a[0 .. i-1]] and the size [s] of the allocation, with [init_buf]
    (lines 152-164), [grow_buf] (lines 174-192) and its [size_t] overflow
    tests, the writes of [ungetch] (lines 194-200), [put_str] (lines
    575-583), [include] (lines 221-255) and [buf_dump_buf] (lines 677-685),
    the pop of [getch] (lines 118-119) and [delete_buf] (lines 257-260).
    Whether [malloc] or [realloc] succeeds is the oracle [alloc_ok], a
    variable of the section.  A write past [s] is undefined behaviour, the
    result [None].

    The theorems: [grow_buf] computes [2 s + will_use] without wrapping
    ([grow_buf_spec]); no operation writes outside the allocation and every
    one keeps [i <= s <= SIZE_MAX] ([buf_run_safe]); the allocation stays
    within three times the largest contents ([buf_capacity_bound]); and
    when allocation succeeds and the contents stay below
    [(SIZE_MAX - 1024) / 7] bytes,
    the buffer holds exactly the bytes of the list model the engine uses
    ([buf_run_refines], with [buf_ungetch_refines] and
    [buf_include_refines] relating single operations to [Input]). *)

From Stdlib Require Import ZArith Lia List.
From stdpp Require Import base list.
From S2P Require Import Prelude Bytes Input.

Local Open Scope Z_scope.

Module Buf.

(** [INIT_BUF_SIZE] (line 106). *)
Definition INIT_BUF_SIZE : Z := 512.

(** [struct buf]: [a] is [a[0 .. i-1]], in index order; [s] is the size
    of the allocation [a] points to. *)
Record buf := mk_buf { a : bytes; s : Z }.

(** [b->i]. *)
Definition i (b : buf) : Z := Z.of_nat (length (a b)).

(** [BUF_FREE_SIZE(b)] (line 121), a [size_t] subtraction. *)
Definition BUF_FREE_SIZE (b : buf) : Z := wrap64 (s b - i b).

(** [delete_buf(b)] (lines 257-260). *)
Definition delete_buf (b : buf) : buf := mk_buf [] (s b).

(** [getch(b, read_stdin)] when [b->i] is not 0: the byte [a[i-1]] is
    read back as a [char]; [None] when the buffer is empty (then [getch]
    reads [stdin], see [Input.getch]). *)
Definition buf_pop (b : buf) : option (Z * buf) :=
  match rev (a b) with
  | c :: r => Some (to_char c, mk_buf (rev r) (s b))
  | [] => None
  end.

(** The well-formedness of a buffer: the used part fits in the allocation,
    whose size is a [size_t]. *)
Definition buf_wf (b : buf) : Prop := 0 <= i b <= s b /\ s b <= SIZE_MAX.

Section Alloc.

(** Whether [malloc] or [realloc] of that many bytes returns memory. *)
Variable alloc_ok : Z -> bool.

(** [init_buf()]: [malloc(sizeof(struct buf))], 24 bytes on the modelled
    host, then [malloc(INIT_BUF_SIZE)]; [NULL] when either fails. *)
Definition init_buf : option buf :=
  if alloc_ok 24 && alloc_ok INIT_BUF_SIZE then Some (mk_buf [] INIT_BUF_SIZE) else None.

(** [grow_buf(b, will_use)]: the returned [int] and the buffer.  When the
    gap is too small the size becomes [2 s + will_use], unless [MOF] or
    [AOF] detects an overflow or [realloc] fails; the contents are kept. *)
Definition grow_buf (b : buf) (will_use : Z) : Z * buf :=
  if will_use <=? BUF_FREE_SIZE b then (0, b)
  else if MOF (s b) 2 then (1, b)
  else
    let new_s := wrap64 (s b * 2) in
    if AOF new_s will_use then (1, b)
    else
      let new_s := wrap64 (new_s + will_use) in
      if alloc_ok new_s then (0, mk_buf (a b) new_s) else (1, b).

(** The store [*(b->a + b->i++) = ch]: the byte of the [char] [ch] at
    index [i], [None] (undefined behaviour) when [i] is not below [s]. *)
Definition store (b : buf) (ch : Z) : option buf :=
  if i b <? s b then Some (mk_buf (a b ++ [byte_of ch]) (s b)) else None.

(** [ungetch(b, ch)]: grow by one byte when full, returning [EOF] if that
    fails, then store; the value returned is the stored [char]. *)
Definition buf_ungetch (b : buf) (ch : Z) : option (Z * buf) :=
  let '(r, b1) := if i b =? s b then grow_buf b 1 else (0, b) in
  if negb (r =? 0) then Some (EOF, b1)
  else b2 ← store b1 ch; Some (to_char ch, b2).

(** A block write at [b->a + b->i] of [l] followed by [b->i += len]: the
    [memcpy] of [put_str] and [buf_dump_buf], and the backward loop of
    [include], whose writes cover the same indices.  [None] when the block
    leaves the allocation. *)
Definition copy_in (b : buf) (l : bytes) : option buf :=
  if i b + Z.of_nat (length l) <=? s b then Some (mk_buf (a b ++ l) (s b)) else None.

(** The guard [len > BUF_FREE_SIZE(b) && grow_buf(b, len)]. *)
Definition make_room (b : buf) (len : Z) : Z * buf :=
  if BUF_FREE_SIZE b <? len then grow_buf b len else (0, b).

(** [put_str(b, s)]: [1] when the room cannot be made. *)
Definition buf_put_str (b : buf) (str : bytes) : option (Z * buf) :=
  let l := cstr str in
  let '(r, b1) := make_room b (Z.of_nat (length l)) in
  if negb (r =? 0) then Some (1, b1)
  else b2 ← copy_in b1 l; Some (0, b2).

(** [buf_dump_buf(dst, src)]: [src] is appended to [dst] and emptied. *)
Definition buf_dump_buf (dst src : buf) : option (Z * buf * buf) :=
  let '(r, d1) := make_room dst (i src) in
  if negb (r =? 0) then Some (1, d1, src)
  else d2 ← copy_in d1 (a src); Some (0, d2, delete_buf src).

(** [include(b, fn)]: [1] when [filesize] fails (not a regular file) or
    the room cannot be made; otherwise the [fs] bytes of the file are
    stored from index [i + fs - 1] down to [i], so the buffer ends with
    the file reversed, and the final check [back_i == b->i] holds. *)
Definition buf_include (files : bytes -> option bytes) (b : buf) (fn : bytes) : option (Z * buf) :=
  match files (cstr fn) with
  | None => Some (1, b)
  | Some c =>
      let '(r, b1) := make_room b (Z.of_nat (length c)) in
      if negb (r =? 0) then Some (1, b1)
      else b2 ← copy_in b1 (rev c); Some (0, b2)
  end.

(** ** Sequences of operations on one buffer *)

(** The operations the program applies to a buffer: [ungetch], [put_str],
    [include] of a file with the given contents, [buf_dump_buf] from
    another buffer, the pop of [getch], and [delete_buf]. *)
Inductive bop :=
| Unget (ch : Z)
| PutStr (str : bytes)
| Include (c : bytes)
| Dump (src : buf)
| Pop
| Delete.

Definition bop_run (o : bop) (b : buf) : option buf :=
  match o with
  | Unget ch => snd <$> buf_ungetch b ch
  | PutStr str => snd <$> buf_put_str b str
  | Include c => snd <$> buf_include (fun _ => Some c) b []
  | Dump src => (fun r => snd (fst r)) <$> buf_dump_buf b src
  | Pop => Some (default b (snd <$> buf_pop b))
  | Delete => Some (delete_buf b)
  end.

Fixpoint buf_run (os : list bop) (b : buf) : option buf :=
  match os with
  | [] => Some b
  | o :: r => b' ← bop_run o b; buf_run r b'
  end.

(** The largest [i] along a run. *)
Fixpoint buf_peak (os : list bop) (b : buf) : Z :=
  match os with
  | [] => i b
  | o :: r =>
      match bop_run o b with
      | Some b' => Z.max (i b) (buf_peak r b')
      | None => i b
      end
  end.

(** ** The reference reading of [grow_buf]

    With unbounded integers: keep the buffer when the gap suffices, else
    take [2 s + will_use] bytes when that is a [size_t] and [realloc]
    succeeds, else fail. *)
Definition grow_ref (b : buf) (w : Z) : Z * buf :=
  if w <=? s b - i b then (0, b)
  else if (2 * s b + w <=? SIZE_MAX) && alloc_ok (2 * s b + w)
  then (0, mk_buf (a b) (2 * s b + w)) else (1, b).

(** The three outcomes of a request for [len] more bytes: the gap was
    enough; the allocation was replaced by one of [2 s + len] bytes; or
    the request failed (overflow or [realloc] failure) and the buffer is
    unchanged. *)
Definition grown (b : buf) (len r : Z) (b1 : buf) : Prop :=
  (r = 0 /\ b1 = b /\ len <= s b - i b) \/
  (r = 0 /\ b1 = mk_buf (a b) (2 * s b + len) /\ s b - i b < len /\ 2 * s b + len <= SIZE_MAX) \/
  (r <> 0 /\ b1 = b /\ s b - i b < len /\ (SIZE_MAX < 2 * s b + len \/ alloc_ok (2 * s b + len) = false)).

End Alloc.

(** The list model of the same operations (the view of [State] and
    [Input]): the bytes [a[0 .. i-1]]. *)
Definition bop_list (o : bop) (l : bytes) : bytes :=
  match o with
  | Unget ch => snd (Input.ungetch l ch)
  | PutStr str => l ++ cstr str
  | Include c => l ++ rev c
  | Dump src => l ++ a src
  | Pop => removelast l
  | Delete => []
  end.

Fixpoint list_run (os : list bop) (l : bytes) : bytes :=
  match os with
  | [] => l
  | o :: r => list_run r (bop_list o l)
  end.

Fixpoint list_peak (os : list bop) (l : bytes) : nat :=
  match os with
  | [] => length l
  | o :: r => length l `max` list_peak r (bop_list o l)
  end.

(** ** Lemmas *)

Lemma i_nonneg b : 0 <= i b.
Proof. unfold i. lia. Qed.

Lemma i_app b l : i (mk_buf (a b ++ l) (s b)) = i b + Z.of_nat (length l).
Proof. unfold i. simpl. rewrite length_app. lia. Qed.

Lemma BUF_FREE_SIZE_wf b : buf_wf b -> BUF_FREE_SIZE b = s b - i b.
Proof. intros [? ?]. unfold BUF_FREE_SIZE. apply wrap64_small. unfold size_t_ok. lia. Qed.

(** [store] is the one-byte block write. *)
Lemma store_copy b ch : store b ch = copy_in b [byte_of ch].
Proof.
  unfold store, copy_in. change (Z.of_nat (length [byte_of ch])) with 1.
  destruct (Z.ltb_spec (i b) (s b)), (Z.leb_spec (i b + 1) (s b)); done || lia.
Qed.

Lemma removelast_rev {A} (l r : list A) c : rev l = c :: r -> removelast l = rev r.
Proof.
  intros H. apply (f_equal (@rev A)) in H. rewrite rev_involutive in H. simpl in H.
  subst l. apply removelast_last.
Qed.

#[export] Hint Resolve i_nonneg : m4.

Section Proofs.
Variable alloc_ok : Z -> bool.

(** C12: [grow_buf] on a well-formed buffer is its reading with unbounded
    integers: the tests [MOF(b->s, 2)] and [AOF(new_s, will_use)] fail
    exactly when [2 s + will_use] is not a [size_t], so the new size never
    wraps around. *)
Theorem grow_buf_spec b w : buf_wf b -> grow_buf alloc_ok b w = grow_ref alloc_ok b w.
Proof.
  intros [Hi Hs]. unfold grow_buf, grow_ref. rewrite BUF_FREE_SIZE_wf by done.
  destruct (Z.leb_spec w (s b - i b)); [done|].
  destruct (MOF (s b) 2) eqn:Hm.
  - apply MOF_spec in Hm; [|lia|lia]. rewrite (proj2 (Z.leb_gt _ _)) by lia. done.
  - assert (s b * 2 <= SIZE_MAX).
    { destruct (Z_le_gt_dec (s b * 2) SIZE_MAX) as [|Hg]; [done|].
      rewrite <- not_true_iff_false, MOF_spec in Hm; lia. }
    rewrite wrap64_small by (unfold size_t_ok; lia).
    destruct (AOF (s b * 2) w) eqn:Ha.
    + apply AOF_spec in Ha. rewrite (proj2 (Z.leb_gt _ _)) by lia. done.
    + assert (s b * 2 + w <= SIZE_MAX).
      { destruct (Z_le_gt_dec (s b * 2 + w) SIZE_MAX) as [|Hg]; [done|].
        rewrite <- not_true_iff_false, AOF_spec in Ha; lia. }
      rewrite wrap64_small by (unfold size_t_ok; lia).
      rewrite (proj2 (Z.leb_le _ _)) by lia. replace (2 * s b + w) with (s b * 2 + w) by lia.
      done.
Qed.

Lemma grow_grown b w : buf_wf b -> grown alloc_ok b w (grow_buf alloc_ok b w).1 (grow_buf alloc_ok b w).2.
Proof.
  intros Hwf. rewrite grow_buf_spec by done. unfold grow_ref, grown.
  destruct (Z.leb_spec w (s b - i b)); [left; done|].
  destruct (Z.leb_spec (2 * s b + w) SIZE_MAX), (alloc_ok (2 * s b + w)) eqn:Ha; simpl;
    [right; left | right; right.. ]; split_and!; try done; lia.
Qed.

Lemma make_room_grown b len :
  buf_wf b -> grown alloc_ok b len (make_room alloc_ok b len).1 (make_room alloc_ok b len).2.
Proof.
  intros Hwf. unfold make_room. rewrite BUF_FREE_SIZE_wf by done.
  destruct (Z.ltb_spec (s b - i b) len); [by apply grow_grown | left; done].
Qed.

Lemma unget_grown b : buf_wf b ->
  let p := if i b =? s b then grow_buf alloc_ok b 1 else (0, b) in grown alloc_ok b 1 p.1 p.2.
Proof.
  intros Hwf. destruct (Z.eqb_spec (i b) (s b)); [by apply grow_grown|].
  left. destruct Hwf. split_and!; simpl; done || lia.
Qed.

(** A successful request is followed by a block write that fits. *)
Lemma commit b len l r b1 :
  buf_wf b -> grown alloc_ok b len r b1 -> r = 0 -> Z.of_nat (length l) = len ->
  copy_in b1 l = Some (mk_buf (a b ++ l) (s b1)) /\ buf_wf (mk_buf (a b ++ l) (s b1)) /\
  (s b1 = s b \/ s b1 <= 3 * i (mk_buf (a b ++ l) (s b1))).
Proof.
  unfold buf_wf, grown, copy_in. intros [Hi Hs] G -> Hl.
  pose proof (i_app b l) as Ha. change (i (mk_buf (a b ++ l) (s b1)) = i b + Z.of_nat (length l)) in Ha.
  destruct G as [(_ & -> & ?)|[(_ & -> & ? & ?)|(? & _)]]; [..|done]; simpl in *;
    unfold i in *; simpl in *; rewrite length_app in *;
    (rewrite (proj2 (Z.leb_le _ _)) by lia); split_and!; done || lia.
Qed.

(** A failed request leaves the buffer as it was. *)
Lemma grown_fail b len r b1 : grown alloc_ok b len r b1 -> r <> 0 -> b1 = b.
Proof. by intros [(-> & _)|[(-> & _)|(_ & -> & _)]]. Qed.

(** When every allocation succeeds, a request for at most the room that
    [2 s + len <= SIZE_MAX] allows succeeds. *)
Lemma grown_ok b len r b1 :
  (forall n, alloc_ok n = true) -> grown alloc_ok b len r b1 -> 2 * s b + len <= SIZE_MAX -> r = 0.
Proof.
  intros Ha [(-> & _)|[(-> & _)|(_ & _ & _ & [?|Hf])]] ?; [done|done|lia|].
  by rewrite Ha in Hf.
Qed.

(** One operation on a well-formed buffer: it writes inside the
    allocation (the result is not [None]), keeps the buffer well formed,
    and when it changes the size the new size is at most three times the
    new contents. *)
Lemma bop_run_safe o b : buf_wf b ->
  exists b', bop_run alloc_ok o b = Some b' /\ buf_wf b' /\ (s b' = s b \/ s b' <= 3 * i b').
Proof.
  intros Hwf. destruct o as [ch|str|c|src| |]; simpl.
  - unfold buf_ungetch. pose proof (unget_grown b Hwf) as G.
    destruct (if i b =? s b then _ else _) as [r b1]; simpl in G.
    destruct (Z.eqb_spec r 0) as [->|Hr]; simpl.
    + rewrite store_copy. destruct (commit b 1 [byte_of ch] 0 b1 Hwf G eq_refl eq_refl) as (-> & ? & ?); eauto.
    + rewrite (grown_fail _ _ _ _ G Hr). eauto.
  - unfold buf_put_str. pose proof (make_room_grown b (Z.of_nat (length (cstr str))) Hwf) as G.
    destruct (make_room _ _ _) as [r b1]; simpl in G.
    destruct (Z.eqb_spec r 0) as [->|Hr]; simpl.
    + destruct (commit b _ (cstr str) 0 b1 Hwf G eq_refl eq_refl) as (-> & ? & ?); eauto.
    + rewrite (grown_fail _ _ _ _ G Hr). eauto.
  - unfold buf_include. pose proof (make_room_grown b (Z.of_nat (length c)) Hwf) as G.
    destruct (make_room _ _ _) as [r b1]; simpl in G.
    destruct (Z.eqb_spec r 0) as [->|Hr]; simpl.
    + destruct (commit b _ (rev c) 0 b1 Hwf G eq_refl ltac:(by rewrite length_rev)) as (-> & ? & ?); eauto.
    + rewrite (grown_fail _ _ _ _ G Hr). eauto.
  - unfold buf_dump_buf. pose proof (make_room_grown b (i src) Hwf) as G.
    destruct (make_room _ _ _) as [r b1]; simpl in G.
    destruct (Z.eqb_spec r 0) as [->|Hr]; simpl.
    + destruct (commit b _ (a src) 0 b1 Hwf G eq_refl eq_refl) as (-> & ? & ?); eauto.
    + rewrite (grown_fail _ _ _ _ G Hr). eauto.
  - unfold buf_pop. destruct (rev (a b)) as [|x r] eqn:Hr; simpl; [eauto|].
    exists (mk_buf (rev r) (s b)). destruct Hwf. unfold buf_wf, i in *. simpl.
    apply (f_equal length) in Hr. rewrite length_rev in Hr. simpl in Hr.
    rewrite length_rev. split_and!; auto with lia.
  - exists (delete_buf b). destruct Hwf. unfold buf_wf, i in *. simpl. split_and!; auto with lia.
Qed.

(** C10: Every sequence of buffer operations from a well-formed buffer runs
    without writing outside the allocation, and every buffer it passes
    through is well formed: [0 <= i <= s <= SIZE_MAX]. *)
Theorem buf_run_safe os b : buf_wf b ->
  exists b', buf_run alloc_ok os b = Some b' /\ buf_wf b'.
Proof.
  revert b. induction os as [|o os IH]; intros b Hwf; simpl; [eauto|].
  destruct (bop_run_safe o b Hwf) as (b1 & -> & Hwf1 & _). simpl. by apply IH.
Qed.

Lemma buf_peak_ge os b : i b <= buf_peak alloc_ok os b.
Proof. destruct os; simpl; [lia|]. destruct (bop_run _ _ _); lia. Qed.

Lemma init_buf_wf b : init_buf alloc_ok = Some b -> buf_wf b /\ i b = 0 /\ s b = INIT_BUF_SIZE.
Proof.
  unfold init_buf. destruct (_ && _); intros H; [|done]. injection H as <-.
  unfold buf_wf, i, INIT_BUF_SIZE, SIZE_MAX. simpl. lia.
Qed.

Lemma buf_run_cap os b b' P :
  buf_wf b -> i b <= P -> s b <= Z.max INIT_BUF_SIZE (3 * P) ->
  buf_run alloc_ok os b = Some b' ->
  s b' <= Z.max INIT_BUF_SIZE (3 * Z.max P (buf_peak alloc_ok os b)).
Proof.
  revert b P. induction os as [|o os IH]; intros b P Hwf HP Hs Hr; simpl in *.
  - injection Hr as <-. lia.
  - destruct (bop_run_safe o b Hwf) as (b1 & Hb1 & Hwf1 & Hg). rewrite Hb1 in Hr |- *. simpl in Hr.
    pose proof (buf_peak_ge os b1).
    pose proof (IH b1 (Z.max P (i b1)) Hwf1 ltac:(lia) ltac:(lia) Hr). lia.
Qed.

(** C11: The allocation of a buffer never exceeds three times the largest
    contents it has held, or [INIT_BUF_SIZE]: [grow_buf] gives
    [2 s + will_use] bytes only when the contents are about to exceed [s]. *)
Theorem buf_capacity_bound os b0 b' :
  init_buf alloc_ok = Some b0 -> buf_run alloc_ok os b0 = Some b' ->
  s b' <= Z.max INIT_BUF_SIZE (3 * buf_peak alloc_ok os b0).
Proof.
  intros (Hwf & Hi & Hs)%init_buf_wf Hr.
  pose proof (buf_run_cap os b0 b' 0 Hwf ltac:(lia) ltac:(lia) Hr).
  pose proof (buf_peak_ge os b0). lia.
Qed.

(** One operation refines its list model when every allocation succeeds
    and [2 s] plus the new contents is a [size_t]. *)
Lemma bop_run_refines o b b' : (forall n, alloc_ok n = true) -> buf_wf b ->
  2 * s b + Z.of_nat (length (bop_list o (a b))) <= SIZE_MAX ->
  bop_run alloc_ok o b = Some b' -> a b' = bop_list o (a b).
Proof.
  intros Ha Hwf. destruct o as [ch|str|c|src| |]; simpl; rewrite ?length_app.
  - unfold buf_ungetch, Input.ungetch. simpl. rewrite ?length_app. intros Hb.
    pose proof (unget_grown b Hwf) as G.
    destruct (if i b =? s b then _ else _) as [r b1]; simpl in G.
    assert (r = 0) as -> by (apply (grown_ok b 1 r b1 Ha G); simpl in Hb; lia).
    simpl. rewrite store_copy.
    destruct (commit b 1 [byte_of ch] 0 b1 Hwf G eq_refl eq_refl) as (-> & _). by intros [= <-].
  - unfold buf_put_str. intros Hb. pose proof (make_room_grown b (Z.of_nat (length (cstr str))) Hwf) as G.
    destruct (make_room _ _ _) as [r b1]; simpl in G.
    assert (r = 0) as -> by (apply (grown_ok _ _ r b1 Ha G); unfold i in *; lia).
    destruct (commit b _ (cstr str) 0 b1 Hwf G eq_refl eq_refl) as (-> & _). by intros [= <-].
  - unfold buf_include. rewrite length_rev. intros Hb. pose proof (make_room_grown b (Z.of_nat (length c)) Hwf) as G.
    destruct (make_room _ _ _) as [r b1]; simpl in G.
    assert (r = 0) as -> by (apply (grown_ok _ _ r b1 Ha G); lia).
    destruct (commit b _ (rev c) 0 b1 Hwf G eq_refl ltac:(by rewrite length_rev)) as (-> & _).
    by intros [= <-].
  - unfold buf_dump_buf. intros Hb. pose proof (make_room_grown b (i src) Hwf) as G.
    destruct (make_room _ _ _) as [r b1]; simpl in G.
    assert (r = 0) as -> by (apply (grown_ok _ _ r b1 Ha G); unfold i in *; lia).
    destruct (commit b _ (a src) 0 b1 Hwf G eq_refl eq_refl) as (-> & _). by intros [= <-].
  - unfold buf_pop. intros _. destruct (rev (a b)) as [|x r] eqn:Hr; simpl; intros [= <-].
    + apply (f_equal (@rev Z)) in Hr. rewrite rev_involutive in Hr. by rewrite Hr.
    + symmetry. by apply (removelast_rev _ _ x).
  - by intros _ [= <-].
Qed.

Lemma list_peak_ge os l : (length l <= list_peak os l)%nat.
Proof. destruct os; simpl; lia. Qed.

Lemma buf_run_refines_gen os b P : (forall n, alloc_ok n = true) ->
  buf_wf b -> i b <= P -> s b <= Z.max INIT_BUF_SIZE (3 * P) ->
  7 * Z.max P (Z.of_nat (list_peak os (a b))) + 1024 <= SIZE_MAX ->
  exists b', buf_run alloc_ok os b = Some b' /\ a b' = list_run os (a b).
Proof.
  intros Ha. revert b P. induction os as [|o os IH]; intros b P Hwf HP Hs Hb; simpl in *; [eauto|].
  destruct (bop_run_safe o b Hwf) as (b1 & Hb1 & Hwf1 & Hg). rewrite Hb1. simpl.
  pose proof (list_peak_ge os (bop_list o (a b))).
  assert (a b1 = bop_list o (a b)) as Hab.
  { pose proof (i_nonneg b). rewrite Nat2Z.inj_max in Hb.
    apply (bop_run_refines o b b1 Ha Hwf); [unfold INIT_BUF_SIZE in *; clear -Hs Hb H H0 HP; lia | done]. }
  rewrite <- Hab in *. pose proof (i_nonneg b).
  apply (IH b1 (Z.max P (i b1)) Hwf1); unfold i in *; lia.
Qed.

(** C9: The buffer with its allocation refines the list model that the
    engine uses: when every allocation succeeds and the contents stay
    below [(SIZE_MAX - 1024) / 7] bytes, every sequence of operations from
    [init_buf] succeeds and leaves exactly the bytes the list model
    computes, so [grow_buf] is never seen to fail. *)
Theorem buf_run_refines os b0 : (forall n, alloc_ok n = true) ->
  init_buf alloc_ok = Some b0 ->
  7 * Z.of_nat (list_peak os []) + 1024 <= SIZE_MAX ->
  exists b', buf_run alloc_ok os b0 = Some b' /\ a b' = list_run os [].
Proof.
  intros Ha (Hwf & Hi & Hs)%init_buf_wf Hb.
  assert (a b0 = []) as Ha0 by (unfold i in Hi; destruct (a b0); done || simpl in Hi; lia).
  rewrite <- Ha0 in Hb |- *. apply (buf_run_refines_gen os b0 0 Ha Hwf); unfold INIT_BUF_SIZE in *; lia.
Qed.

(** A request succeeds when the growth it may need is possible. *)
Lemma grown_succeeds b len r b1 : grown alloc_ok b len r b1 ->
  (s b - i b < len -> 2 * s b + len <= SIZE_MAX /\ alloc_ok (2 * s b + len) = true) -> r = 0.
Proof.
  intros [(-> & _)|[(-> & _)|(_ & _ & Hlt & Hf)]] Hok; [done|done|].
  destruct (Hok Hlt) as [? Ha]. destruct Hf as [?|Hf]; [lia|congruence].
Qed.

(** [ungetch] on the pushback buffer is the list model of [Input]: when
    the buffer is full and [2 s + 1] bytes can be allocated, or when it is
    not full, the byte is stored, the stored [char] is returned, and the
    stack read by [getch] (the buffer reversed) gets it on top. *)
Theorem buf_ungetch_refines b ch : buf_wf b ->
  (i b = s b -> 2 * s b + 1 <= SIZE_MAX /\ alloc_ok (2 * s b + 1) = true) ->
  exists b', buf_ungetch alloc_ok b ch = Some (to_char ch, b') /\
    Input.ungetch (a b) ch = (to_char ch, a b') /\
    Input.unget_input (rev (a b)) ch = (to_char ch, rev (a b')).
Proof.
  intros Hwf Hok. unfold buf_ungetch. pose proof (unget_grown b Hwf) as G.
  destruct (if i b =? s b then _ else _) as [r b1]; simpl in G.
  assert (r = 0) as -> by (apply (grown_succeeds _ _ _ _ G); destruct Hwf; intros; apply Hok; lia).
  simpl. rewrite store_copy.
  destruct (commit b 1 [byte_of ch] 0 b1 Hwf G eq_refl eq_refl) as (-> & _).
  eexists. split_and!; [done | done |]. simpl. by rewrite rev_unit.
Qed.

(** When the buffer is full and [realloc] fails, [ungetch] returns
    [EOF] and leaves the buffer unchanged: the caller cannot tell the
    failure from the store of the byte [0xFF]. *)
Theorem buf_ungetch_alloc_fail b ch : buf_wf b -> i b = s b ->
  alloc_ok (2 * s b + 1) = false -> buf_ungetch alloc_ok b ch = Some (EOF, b).
Proof.
  intros Hwf Hi Ha. unfold buf_ungetch. rewrite Hi, Z.eqb_refl, grow_buf_spec by done.
  unfold grow_ref. rewrite Hi, Z.sub_diag, Ha, andb_false_r. done.
Qed.

(** C24: [include] on the pushback buffer is [Input.include]: when the room
    for the file can be made, the file's bytes end up on top of the stack
    read by [getch], its first byte first. *)
Theorem buf_include_refines files b fn c : buf_wf b -> files (cstr fn) = Some c ->
  (s b - i b < Z.of_nat (length c) ->
     2 * s b + Z.of_nat (length c) <= SIZE_MAX /\ alloc_ok (2 * s b + Z.of_nat (length c)) = true) ->
  exists b', buf_include alloc_ok files b fn = Some (0, b') /\
    Input.include files (rev (a b)) fn = Some (rev (a b')).
Proof.
  intros Hwf Hf Hok. unfold buf_include, Input.include. rewrite Hf.
  pose proof (make_room_grown b (Z.of_nat (length c)) Hwf) as G.
  destruct (make_room _ _ _) as [r b1]; simpl in G.
  assert (r = 0) as -> by (by apply (grown_succeeds _ _ _ _ G)).
  destruct (commit b _ (rev c) 0 b1 Hwf G eq_refl ltac:(by rewrite length_rev)) as (-> & _).
  eexists. split; [done|]. simpl. by rewrite rev_app_distr, rev_involutive.
Qed.

End Proofs.

(** ** Witnesses *)

Definition always : Z -> bool := fun _ => true.

(** A run that grows the buffer (600 bytes in an allocation of 512),
    includes a file, pops, copies another buffer and empties it. *)
Definition ops1 : list bop :=
  [PutStr (repeat 97 600); Unget 98; Include [1; 2; 3]; Pop; Dump (mk_buf [7; 8] 512); Delete; Unget 99].

Definition buf1 : buf := mk_buf [1; 2] 2.

Lemma grow_buf_spec_witness : grow_buf always buf1 5 = grow_ref always buf1 5.
Proof. apply grow_buf_spec. unfold buf_wf, i, SIZE_MAX. simpl. lia. Defined.

Lemma buf_run_safe_witness :
  exists b', buf_run always ops1 (mk_buf [] INIT_BUF_SIZE) = Some b' /\ buf_wf b'.
Proof. apply buf_run_safe. unfold buf_wf, i, INIT_BUF_SIZE, SIZE_MAX. simpl. lia. Defined.

Lemma buf_capacity_bound_witness :
  match buf_run always ops1 (mk_buf [] INIT_BUF_SIZE) with
  | Some b' => s b' <= Z.max INIT_BUF_SIZE (3 * buf_peak always ops1 (mk_buf [] INIT_BUF_SIZE))
  | None => False
  end.
Proof.
  destruct (buf_run always ops1 (mk_buf [] INIT_BUF_SIZE)) as [b'|] eqn:E.
  - exact (buf_capacity_bound always ops1 _ b' eq_refl E).
  - vm_compute in E. discriminate.
Defined.

Lemma buf_run_refines_witness :
  exists b', buf_run always ops1 (mk_buf [] INIT_BUF_SIZE) = Some b' /\ a b' = list_run ops1 [].
Proof. apply (buf_run_refines always ops1); [done | reflexivity | vm_compute; discriminate]. Defined.

Lemma buf_ungetch_refines_witness :
  exists b', buf_ungetch always buf1 97 = Some (to_char 97, b') /\
    Input.ungetch (a buf1) 97 = (to_char 97, a b') /\
    Input.unget_input (rev (a buf1)) 97 = (to_char 97, rev (a b')).
Proof. apply buf_ungetch_refines; [unfold buf_wf, i, SIZE_MAX; simpl; lia | done]. Defined.

Lemma buf_ungetch_alloc_fail_witness : buf_ungetch (fun _ => false) buf1 97 = Some (EOF, buf1).
Proof. apply buf_ungetch_alloc_fail; [unfold buf_wf, i, SIZE_MAX; simpl; lia | reflexivity | reflexivity]. Defined.

Lemma buf_include_refines_witness :
  exists b', buf_include always (fun _ => Some [5; 6]) buf1 [] = Some (0, b') /\
    Input.include (fun _ => Some [5; 6]) (rev (a buf1)) [] = Some (rev (a b')).
Proof.
  apply (buf_include_refines always _ buf1 [] [5; 6]); [unfold buf_wf, i, SIZE_MAX; simpl; lia | done |].
  intros _. split; [vm_compute; discriminate | done].
Defined.

End Buf.
