(* ===== verification/Release.v ===== *)
(** * Releasing memory: [free_buf] and [free_hash_table]

    The clean-up of [main] (lines 1320-1332) calls [free_buf] on every
    buffer and [free_hash_table] on the symbol table.  A [free] has no
    observable effect of its own, so these functions are modelled by the
    sequence of blocks their [free] calls release, in order: for a buffer
    its array and its [struct buf] (lines 166-172); for the table, bucket
    by bucket from 0 to [HASH_TABLE_SIZE - 1] and along each chain, the
    name, the definition (a built-in's [NULL] definition is not a block:
    [free(NULL)] does nothing), the [struct entry], and at the end the
    bucket array (lines 491-508).

    The theorem [free_hash_table_exact] shows that on a well-formed table
    this walk releases exactly the bucket array and the name, definition
    and [struct entry] of every entry of the table, and no block twice:
    no leak and no double free. *)

From Stdlib Require Import ZArith Lia List.
From stdpp Require Import base list.
From S2P Require Import Prelude Bytes SymTab Buf.

Local Open Scope Z_scope.

Module Release.
Import SymTab Buf.

(** The blocks [free_hash_table] releases. *)
Inductive block :=
| EntryName (e : entry)
| EntryDef (e : entry)
| EntryStruct (e : entry)
| Buckets.


(** The [while (e != NULL)] loop of [free_hash_table] on one chain. *)
Fixpoint free_chain (c : list entry) : list block :=
  match c with
  | [] => []
  | e :: r =>
      EntryName e :: (match e_def e with Some _ => [EntryDef e] | None => [] end) ++
      EntryStruct e :: free_chain r
  end.

(** [free_hash_table(ht)]: nothing for [NULL]; otherwise the chains of the
    buckets [0 .. HASH_TABLE_SIZE - 1] in order, then the bucket array. *)
Definition free_hash_table (ht : option table) : list block :=
  match ht with
  | Some t => (seq 0 (Z.to_nat HASH_TABLE_SIZE) ≫= fun j => free_chain (bucket t (Z.of_nat j))) ++ [Buckets]
  | None => []
  end.

(** The entry a block belongs to. *)
Definition block_entry (x : block) : option entry :=
  match x with
  | EntryName e | EntryDef e | EntryStruct e => Some e
  | _ => None
  end.

(** ** Lemmas *)

Lemma free_chain_entry c x : x ∈ free_chain c -> exists e, block_entry x = Some e /\ e ∈ c.
Proof.
  induction c as [|e r IH]; simpl; [by intros ?%elem_of_nil|].
  rewrite elem_of_cons, elem_of_app, elem_of_cons.
  intros [->|[Hd|[->|Hr]]].
  - exists e. split; [done | left].
  - exists e. destruct (e_def e); [|by apply elem_of_nil in Hd].
    apply list_elem_of_singleton in Hd as ->. split; [done | left].
  - exists e. split; [done | left].
  - destruct (IH Hr) as (e' & ? & ?). exists e'. split; [done | by right].
Qed.

Lemma free_chain_NoDup c : NoDup c -> NoDup (free_chain c).
Proof.
  induction c as [|e r IH]; simpl; intros Hn; [constructor|]. invc Hn.
  assert (Hnot : forall x, x ∈ free_chain r -> block_entry x <> Some e).
  { intros x (e' & He' & Hin)%free_chain_entry. rewrite He'. intros [= ->]. done. }
  constructor.
  - rewrite elem_of_app, elem_of_cons.
    intros [Hd|[[=]|Hr]]; [destruct (e_def e); [apply list_elem_of_singleton in Hd|apply elem_of_nil in Hd]; done|].
    by apply (Hnot _ Hr).
  - apply NoDup_app. split_and!.
    + destruct (e_def e); [apply NoDup_singleton | constructor].
    + intros x Hd. destruct (e_def e); [|by apply elem_of_nil in Hd].
      apply list_elem_of_singleton in Hd as ->. rewrite elem_of_cons.
      intros [[=]|Hr]. by apply (Hnot _ Hr).
    + constructor; [|by apply IH]. intros Hr. by apply (Hnot _ Hr).
Qed.

(** The blocks an entry owns: its name, its definition when it has one,
    and its [struct entry]. *)
Definition owned (e : entry) (x : block) : Prop :=
  x = EntryName e \/ (x = EntryDef e /\ e_def e <> None) \/ x = EntryStruct e.

Lemma free_chain_elem c x : x ∈ free_chain c <-> exists e, e ∈ c /\ owned e x.
Proof.
  unfold owned. induction c as [|e r IH]; simpl.
  - rewrite elem_of_nil. split; [done|]. by intros (e & ?%elem_of_nil & _).
  - rewrite elem_of_cons, elem_of_app, elem_of_cons, IH. split.
    + intros [->|[Hd|[->|(e' & Hin & Ho)]]].
      * exists e. split; [left | left]; done.
      * exists e. split; [left|]. destruct (e_def e) eqn:Hd'; [|by apply elem_of_nil in Hd].
        apply list_elem_of_singleton in Hd as ->. right; left. split; [done|discriminate].
      * exists e. split; [left | right; right]; done.
      * exists e'. split; [by right | done].
    + intros (e' & Hin & Ho). apply elem_of_cons in Hin as [->|Hin]; [|right; right; right; by exists e'].
      destruct Ho as [->|[[-> Hd]| ->]].
      * by left.
      * right; left. destruct (e_def e); [|done]. by apply list_elem_of_singleton.
      * by right; right; left.
Qed.

Lemma chain_NoDup h c : chain_wf h c -> NoDup c.
Proof. intros [_ Hn]. by eapply NoDup_fmap_1. Qed.

(** An entry of a bucket of a well-formed table hashes to that bucket. *)
Lemma bucket_hash t h e : ht_wf t -> e ∈ bucket t h -> hash_str (e_name e) = h.
Proof.
  intros Hwf Hin. destruct (bucket_wf t h Hwf) as [Hf _].
  rewrite Forall_forall in Hf. by apply Hf.
Qed.

Section Exact.
Variable t : table.
Hypothesis Hwf : ht_wf t.

Lemma free_hash_table_NoDup : NoDup (free_hash_table (Some t)).
Proof.
  unfold free_hash_table. apply NoDup_app. split_and!.
  - apply NoDup_bind; [| |apply NoDup_seq].
    + intros j1 j2 x _ _ (e1 & H1 & Hin1)%free_chain_entry (e2 & H2 & Hin2)%free_chain_entry.
      rewrite H1 in H2. injection H2 as <-.
      apply (bucket_hash _ _ _ Hwf) in Hin1, Hin2. lia.
    + intros j _. apply free_chain_NoDup, (chain_NoDup (Z.of_nat j)), bucket_wf, Hwf.
  - intros x (j & Hx & _)%list_elem_of_bind ->%list_elem_of_singleton.
    by destruct (free_chain_entry _ _ Hx) as (? & ? & _).
  - apply NoDup_singleton.
Qed.

Lemma free_hash_table_elem x :
  x ∈ free_hash_table (Some t) <-> x = Buckets \/ exists h e, e ∈ bucket t h /\ owned e x.
Proof.
  unfold free_hash_table. rewrite elem_of_app, list_elem_of_singleton, list_elem_of_bind. split.
  - intros [(j & (e & Hin & Ho)%free_chain_elem & _)| ->]; [|by left].
    right. by exists (Z.of_nat j), e.
  - intros [->|(h & e & Hin & Ho)]; [by right|]. left.
    pose proof (bucket_hash _ _ _ Hwf Hin) as Hh. pose proof (hash_str_range (e_name e)) as Hr.
    exists (Z.to_nat h). split.
    + apply free_chain_elem. exists e. by rewrite Z2Nat.id by lia.
    + apply elem_of_seq. unfold HASH_TABLE_SIZE in *. lia.
Qed.

End Exact.

(** C14: On a well-formed table, [free_hash_table] releases no block twice,
    and the blocks it releases are exactly the bucket array and, for every
    entry of the table, its name, its definition when it has one, and its
    [struct entry]: no leak and no double free. *)
Theorem free_hash_table_exact t : ht_wf t ->
  NoDup (free_hash_table (Some t)) /\
  forall x, x ∈ free_hash_table (Some t) <-> x = Buckets \/ exists h e, e ∈ bucket t h /\ owned e x.
Proof. intros Hwf. split; [by apply free_hash_table_NoDup | by apply free_hash_table_elem]. Qed.

(** ** The set-up of [main] and its clean-up

    Buffers are followed by the identities of their blocks.  The
    allocator is given by the outcomes of its successive calls: [malloc]
    returns a fresh identity (the next number) or [NULL]; [heap] records
    what has been allocated and released, in order. *)
Record heap := mk_heap { next_id : nat; outcomes : list bool; allocated : list nat; released : list nat }.

Definition malloc (h : heap) : option nat * heap :=
  match outcomes h with
  | true :: r => (Some (next_id h), mk_heap (S (next_id h)) r (allocated h ++ [next_id h]) (released h))
  | _ => (None, mk_heap (next_id h) (tail (outcomes h)) (allocated h) (released h))
  end.

Definition free (p : nat) (h : heap) : heap :=
  mk_heap (next_id h) (outcomes h) (allocated h) (released h ++ [p]).

(** A [struct buf *]: the identities of the struct and of its array. *)
Record bufptr := mk_bufptr { p_struct : nat; p_array : nat }.

(** [init_buf()] (lines 152-164) on the allocator: when the array cannot
    be allocated the struct is freed before [NULL] is returned. *)
Definition init_buf_alloc (h : heap) : option bufptr * heap :=
  match malloc h with
  | (None, h1) => (None, h1)
  | (Some b, h1) =>
      match malloc h1 with
      | (None, h2) => (None, free b h2)
      | (Some a, h2) => (Some (mk_bufptr b a), h2)
      end
  end.

(** [free_buf(b)] (lines 166-172): the array, then the struct; nothing
    for [NULL]. *)
Definition free_buf (b : option bufptr) : list nat :=
  match b with
  | Some p => [p_array p; p_struct p]
  | None => []
  end.

(** The [n] calls to [init_buf] of lines 727-741 ([input], [token],
    [next_token], [result], [tmp_buf], then the eleven diversions), which
    stop at the first [NULL] with [QUIT]: the pointers set so far, whether
    all succeeded, and the allocator. *)
Fixpoint setup_bufs (n : nat) (h : heap) : list (option bufptr) * bool * heap :=
  match n with
  | O => ([], true, h)
  | S n' =>
      match init_buf_alloc h with
      | (None, h1) => ([], false, h1)
      | (Some p, h1) => let '(ps, ok, h2) := setup_bufs n' h1 in (Some p :: ps, ok, h2)
      end
  end.

(** The sixteen [free_buf] calls of [clean_up] on the sixteen pointers,
    those never set being [NULL]. *)
Definition clean_up_bufs (ps : list (option bufptr)) : list nat :=
  (ps ++ replicate (16 - length ps) None) ≫= free_buf.

(** [main] up to its set-up of buffers, then [clean_up] (which also runs
    when the set-up succeeds, at the end of the run): what the allocator
    released in the end. *)
Definition setup_then_clean_up (os : list bool) : heap :=
  let '(ps, _, h) := setup_bufs 16 (mk_heap 0 os [] []) in
  foldl (fun h p => free p h) h (clean_up_bufs ps).

(** The identities held by pointers. *)
Definition live (ps : list (option bufptr)) : list nat := ps ≫= free_buf.

(** ** Lemmas on the allocator *)

(** What has been released, together with what the pointers still hold,
    is what has been allocated; allocated identities are [0 .. next_id - 1]. *)
Definition balanced (h : heap) (ps : list (option bufptr)) : Prop :=
  allocated h = seq 0 (next_id h) /\ released h ++ live ps ≡ₚ allocated h.

Lemma live_app ps qs : live (ps ++ qs) = live ps ++ live qs.
Proof. apply bind_app. Qed.

Lemma live_replicate_None k : live (replicate k None) = [].
Proof. induction k; simpl; done. Qed.

Lemma malloc_cases h :
  (malloc h = (Some (next_id h), mk_heap (S (next_id h)) (tail (outcomes h)) (allocated h ++ [next_id h]) (released h))) \/
  (malloc h = (None, mk_heap (next_id h) (tail (outcomes h)) (allocated h) (released h))).
Proof. unfold malloc. destruct (outcomes h) as [|[] r]; simpl; auto. Qed.

Lemma init_buf_alloc_balanced h ps r h' :
  init_buf_alloc h = (r, h') -> balanced h ps -> balanced h' (ps ++ [r]).
Proof.
  unfold init_buf_alloc, balanced. intros Hi [Ha Hp]. rewrite live_app.
  destruct (malloc_cases h) as [Hm|Hm]; rewrite Hm in Hi; cbn iota beta in Hi.
  - set (h1 := mk_heap _ _ _ _) in Hi.
    destruct (malloc_cases h1) as [Hm1|Hm1]; rewrite Hm1 in Hi; cbn iota beta in Hi;
      injection Hi as <- <-; cbn [next_id allocated released free h1 live free_buf].
    + split; [by rewrite Ha, !seq_S|]. rewrite <- Hp. cbn. solve_Permutation.
    + split; [by rewrite Ha, seq_S|]. rewrite <- Hp. cbn. solve_Permutation.
  - injection Hi as <- <-. cbn [next_id allocated released live free_buf]. split; [done|].
    rewrite <- Hp. cbn. solve_Permutation.
Qed.

Lemma setup_bufs_balanced n h ps ok h' qs :
  setup_bufs n h = (ps, ok, h') -> balanced h qs -> balanced h' (qs ++ ps) /\ (length ps <= n)%nat.
Proof.
  revert h ps ok h' qs. induction n as [|n IH]; intros h ps ok h' qs Hs Hb; simpl in Hs.
  - injection Hs as <- _ <-. rewrite app_nil_r. split; [done | simpl; lia].
  - destruct (init_buf_alloc h) as [[p|] h1] eqn:Hi.
    + destruct (setup_bufs n h1) as [[ps' ok'] h2] eqn:Hs'. injection Hs as <- _ <-.
      pose proof (init_buf_alloc_balanced h qs _ _ Hi Hb) as Hb1.
      destruct (IH _ _ _ _ _ Hs' Hb1) as [Hb2 Hl]. rewrite <- app_assoc in Hb2. simpl. split; [done | lia].
    + injection Hs as <- _ <-. pose proof (init_buf_alloc_balanced h qs _ _ Hi Hb) as [Ha Hp].
      rewrite live_app in Hp. simpl in Hp. rewrite app_nil_r in Hp |- *. split; [by split | simpl; lia].
Qed.

Lemma foldl_free l h :
  foldl (fun h p => free p h) h l = mk_heap (next_id h) (outcomes h) (allocated h) (released h ++ l).
Proof.
  revert h. induction l as [|p l IH]; intros h; simpl.
  - destruct h. simpl. by rewrite app_nil_r.
  - rewrite IH. simpl. by rewrite <- app_assoc.
Qed.

(** C13: Whatever the allocator returns, the set-up of the sixteen buffers
    of [main] followed by [clean_up] releases exactly the blocks that were
    allocated, each once: a failing [init_buf] frees its struct, [QUIT]
    leaves the pointers not yet set at [NULL], and [free_buf] ignores
    them. *)
Theorem setup_no_leak os :
  released (setup_then_clean_up os) ≡ₚ allocated (setup_then_clean_up os) /\
  NoDup (released (setup_then_clean_up os)).
Proof.
  unfold setup_then_clean_up.
  destruct (setup_bufs 16 (mk_heap 0 os [] [])) as [[ps ok] h] eqn:Hs.
  destruct (setup_bufs_balanced _ _ _ _ _ [] Hs ltac:(split; reflexivity)) as [[Ha Hp] _].
  rewrite foldl_free. simpl. unfold clean_up_bufs. fold (live (ps ++ replicate (16 - length ps) None)).
  rewrite live_app, live_replicate_None, app_nil_r. split; [done|].
  rewrite Hp, Ha. apply NoDup_seq.
Qed.

(** ** Witness *)

Lemma free_hash_table_exact_witness :
  NoDup (free_hash_table (Some pdu_table)) /\
  forall x, x ∈ free_hash_table (Some pdu_table) <->
    x = Buckets \/ exists h e, e ∈ bucket pdu_table h /\ owned e x.
Proof. apply free_hash_table_exact. decide_by_eval. Defined.

Lemma setup_no_leak_witness :
  released (setup_then_clean_up [true; true; true; true; true; false]) ≡ₚ
    allocated (setup_then_clean_up [true; true; true; true; true; false]) /\
  NoDup (released (setup_then_clean_up [true; true; true; true; true; false])).
Proof. exact (setup_no_leak [true; true; true; true; true; false]). Defined.

End Release.
