(* ===== verification/Token.v ===== *)
(** * The tokenizer [getword] (lines 262-310)

    [getword] reads one byte; an identifier start (a letter or [_]) is
    followed by every further identifier byte (letters, digits, [_]), and
    the byte that ends it is pushed back into the input; any other byte is
    a token of its own.  The token buffer holds the bytes read, without the
    NUL terminator that the code appends.

    The result [GWTok] is [getword] returning 0, [GWEnd] is returning 1
    without setting [err] (the [goto end_of_input] of [READ_TOKEN]) and
    [GWErr] is returning 1 with [err] set (the [QUIT] of [READ_TOKEN]).  The
    identifier loop is a [Fixpoint] on fuel; [getword] gives it one more
    unit than the bytes that can be read, which [ident_loop_fuel] shows is
    never exhausted.

    Standard input is a fixed list of bytes appended to the stream, so
    [getchar] never fails: a read error ([getch] giving [EOF] with [errno]
    set, lines 268-272 and 283-286, which sets [err] and makes
    [READ_TOKEN] [QUIT]) is not modelled, and [EOF] from [getch] is always
    the end of input ([GWEnd]). *)

From Stdlib Require Import ZArith Lia List.
From stdpp Require Import base list.
From S2P Require Import Prelude Bytes Input.

Local Open Scope Z_scope.

Module Token.
Import Input.

Inductive gw :=
| GWTok (tok : bytes) (s : stream)
| GWEnd (s : stream)
| GWErr (s : stream).

Definition is_ident_start (c : Z) : bool := isalpha c || (c =? 95).
Definition is_ident_char (c : Z) : bool := isalnum c || (c =? 95).

(** The [while (1)] loop of lines 280-302. *)
Fixpoint ident_loop (fuel : nat) (tok : bytes) (s : stream) : gw :=
  match fuel with
  | O => GWEnd s
  | S f =>
      let '(x, s) := getch s in
      if x =? EOF then GWEnd s
      else if is_ident_char x then
        let '(v, tok') := ungetch tok x in
        if v =? EOF then GWErr s else ident_loop f tok' s
      else
        let '(v, inp) := unget_input (input s) x in
        if v =? EOF then GWErr (set_input s inp) else GWTok tok (set_input s inp)
  end.

Definition getword (s : stream) : gw :=
  let '(x, s) := getch s in
  if x =? EOF then GWEnd s
  else
    let '(v, tok) := ungetch [] x in
    if v =? EOF then GWEnd s
    else if is_ident_start x then ident_loop (S (measure s)) tok s
    else GWTok tok s.

(** ** The reference tokenizer *)

(** The longest prefix of identifier bytes, and the rest. *)
Fixpoint ident_span (l : bytes) : bytes * bytes :=
  match l with
  | [] => ([], [])
  | c :: r => if is_ident_char c then let '(w, rest) := ident_span r in (c :: w, rest) else ([], l)
  end.

(** A stream whose pending bytes are bytes other than [0xFF]. *)
Definition clean (s : stream) : Prop :=
  all_bytes (pending s) /\ Forall (fun c => c <> 255) (pending s).

(** ** Lemmas *)

Lemma ident_ascii c : is_ident_char c = true -> 0 <= c < 128.
Proof.
  unfold is_ident_char, isalnum, isalpha, isdigit. intros H. bool_to_prop; lia.
Qed.

Lemma ident_start_char c : is_ident_start c = true -> is_ident_char c = true.
Proof.
  unfold is_ident_start, is_ident_char, isalnum. intros H.
  apply orb_prop in H as [H|H]; rewrite H; [done | by rewrite orb_true_r].
Qed.

Lemma to_char_ascii c : 0 <= c < 128 -> to_char c = c.
Proof.
  intros Hc. unfold to_char, byte_of. rewrite Z.mod_small by lia.
  destruct (Z.leb_spec 128 c); lia.
Qed.

(** The classes of a byte do not change when it is read back as a [char]. *)
Lemma ident_char_to_char c : is_byte c -> is_ident_char (to_char c) = is_ident_char c.
Proof.
  intros Hc. destruct (Z.ltb_spec c 128) as [Hl|Hl].
  - by rewrite to_char_ascii by (unfold is_byte in Hc; lia).
  - unfold to_char, byte_of, is_byte in *. rewrite Z.mod_small by lia.
    destruct (Z.leb_spec 128 c); [|lia].
    destruct (is_ident_char c) eqn:E1; [apply ident_ascii in E1; lia|].
    destruct (is_ident_char (c - 256)) eqn:E2; [apply ident_ascii in E2; lia|done].
Qed.

Lemma ident_start_to_char c : is_byte c -> is_ident_start (to_char c) = is_ident_start c.
Proof.
  intros Hc. destruct (Z.ltb_spec c 128) as [Hl|Hl].
  - by rewrite to_char_ascii by (unfold is_byte in Hc; lia).
  - destruct (is_ident_start c) eqn:E1; [apply ident_start_char, ident_ascii in E1; lia|].
    destruct (is_ident_start (to_char c)) eqn:E2; [|done].
    apply ident_start_char in E2. rewrite ident_char_to_char in E2 by done.
    apply ident_ascii in E2. lia.
Qed.

(** Reading a clean byte: what [getch] returns stores back as the same
    byte, is not [EOF], and has the byte's classes. *)
Lemma getch_clean s c r :
  clean s -> pending s = c :: r ->
  exists x s', getch s = (x, s') /\ x <> EOF /\ to_char x <> EOF /\ byte_of x = c /\
    is_ident_char x = is_ident_char c /\ is_ident_start x = is_ident_start c /\
    pending s' = r /\ read_stdin s' = read_stdin s /\ (measure s' < measure s)%nat /\
    clean s'.
Proof.
  intros [Hb Hn] Hp. pose proof (getch_pending s) as Hg. rewrite Hp in Hg.
  destruct Hg as (s' & Hg & Hp' & Hr & Hm). rewrite Hp in Hb, Hn.
  apply Forall_cons in Hb as [Hb1 Hb2]. apply Forall_cons in Hn as [Hn1 Hn2].
  assert (to_char c <> EOF) as Hc by (by rewrite to_char_EOF).
  assert (clean s') as Hcl by (unfold clean; by rewrite Hp').
  eexists _, s'. split; [exact Hg|].
  destruct Hcl as [Hcl1 Hcl2].
  case_bool_decide; repeat split;
    first [done | apply Hcl1 | apply Hcl2 | by rewrite to_char_idem | by apply byte_of_to_char
          | by apply ident_char_to_char | by apply ident_start_to_char | by apply to_char_byte
          | unfold is_byte, EOF in *; lia].
Qed.

Lemma pending_set_input s inp :
  pending (set_input s inp) = inp ++ (if read_stdin s then stdin s else []).
Proof. done. Qed.

Lemma ident_loop_spec f tok s :
  clean s -> (measure s < f)%nat ->
  match ident_span (pending s) with
  | (w, []) => exists s', ident_loop f tok s = GWEnd s'
  | (w, d :: rest) => exists s', ident_loop f tok s = GWTok (tok ++ w) s' /\
                        pending s' = d :: rest /\ read_stdin s' = read_stdin s /\ clean s'
  end.
Proof.
  revert tok s. induction f as [|f IH]; intros tok s Hc Hm; [lia|].
  destruct (pending s) as [|c r] eqn:Hp.
  - pose proof (getch_pending s) as Hg. rewrite Hp in Hg. simpl. rewrite Hg. by eexists.
  - destruct (getch_clean s c r Hc Hp)
      as (x & s' & Hg & Hx & Htx & Hbx & Hic & _ & Hp' & Hr & Hm' & Hc'). simpl. rewrite Hg.
    rewrite (proj2 (Z.eqb_neq x EOF) Hx), Hic. unfold ungetch, unget_input.
    rewrite (proj2 (Z.eqb_neq _ EOF) Htx), Hbx.
    destruct (is_ident_char c).
    + specialize (IH (tok ++ [c]) s' Hc' ltac:(lia)). rewrite Hp' in IH.
      destruct (ident_span r) as [w [|d rest]]; [exact IH|].
      rewrite <- app_assoc, Hr in IH. exact IH.
    + rewrite app_nil_r. eexists. split; [done|]. rewrite pending_set_input. simpl.
      split; [|split; [done|]].
      * f_equal. rewrite <- Hp'. done.
      * destruct Hc as [Hb Hn]. unfold clean. rewrite pending_set_input. simpl.
        assert (c :: input s' ++ (if read_stdin s' then stdin s' else []) = c :: r) as ->
          by (rewrite <- Hp'; done).
        rewrite Hp in Hb, Hn. done.
Qed.

(** C16: [getword] on bytes other than [0xFF] splits off the next token: a
    one-byte token, or the longest identifier, whose delimiting byte stays
    pending.  An identifier that runs to the end of the input is not
    returned: [getword] reports the end of input and the identifier is
    lost. *)
Theorem getword_spec s :
  clean s ->
  match pending s with
  | [] => exists s', getword s = GWEnd s'
  | c :: r =>
      if is_ident_start c then
        match ident_span r with
        | (w, []) => exists s', getword s = GWEnd s'
        | (w, d :: rest) => exists s', getword s = GWTok (c :: w) s' /\ pending s' = d :: rest
        end
      else exists s', getword s = GWTok [c] s' /\ pending s' = r
  end.
Proof.
  intros Hc. destruct (pending s) as [|c r] eqn:Hp.
  - pose proof (getch_pending s) as Hg. rewrite Hp in Hg. unfold getword. rewrite Hg. by eexists.
  - destruct (getch_clean s c r Hc Hp)
      as (x & s' & Hg & Hx & Htx & Hbx & _ & His & Hp' & Hr & Hm' & Hc').
    unfold getword. rewrite Hg, (proj2 (Z.eqb_neq x EOF) Hx). unfold ungetch.
    rewrite (proj2 (Z.eqb_neq _ EOF) Htx), His, Hbx. simpl.
    destruct (is_ident_start c).
    + pose proof (ident_loop_spec (S (measure s')) [c] s' Hc' ltac:(lia)) as H.
      rewrite Hp' in H. destruct (ident_span r) as [w [|d rest]]; [exact H|].
      destruct H as (s'' & H1 & H2 & _). by exists s''.
    + by exists s'.
Qed.

Lemma getch_consumes s x s' : getch s = (x, s') -> x <> EOF -> S (measure s') = measure s.
Proof.
  unfold getch, measure. destruct s as [[|c inp] sin [|]]; simpl.
  - destruct sin; simpl; [congruence|]. intros [= <- <-] _. simpl. lia.
  - congruence.
  - intros [= <- <-] _. simpl. lia.
  - intros [= <- <-] _. simpl. lia.
Qed.

(** C26: The identifier loop terminates before its fuel runs out: any fuel
    larger than the number of bytes left gives the same result, so the
    fuel [S (measure s)] of [getword] is never exhausted. *)
Theorem ident_loop_fuel f1 f2 tok s :
  (measure s < f1)%nat -> (measure s < f2)%nat -> ident_loop f1 tok s = ident_loop f2 tok s.
Proof.
  revert f2 tok s. induction f1 as [|f1 IH]; intros [|f2] tok s H1 H2; try lia. simpl.
  destruct (getch s) as [x s'] eqn:Hg.
  destruct (Z.eqb_spec x EOF) as [|Hx]; [done|].
  pose proof (getch_consumes s x s' Hg Hx).
  destruct (is_ident_char x); [|done].
  unfold ungetch. destruct (to_char x =? EOF); [done|]. apply IH; lia.
Qed.

(** Reading a token of [n] bytes takes [n] bytes from the input: the
    delimiter of an identifier is given back. *)
Lemma ident_loop_measure f tok s tok' s' :
  ident_loop f tok s = GWTok tok' s' -> (measure s' + length tok' = measure s + length tok)%nat.
Proof.
  revert tok s. induction f as [|f IH]; intros tok s; simpl; [discriminate|].
  destruct (getch s) as [x s1] eqn:Hg.
  destruct (Z.eqb_spec x EOF) as [|Hx]; [discriminate|].
  pose proof (getch_consumes s x s1 Hg Hx).
  destruct (is_ident_char x).
  - unfold ungetch. destruct (to_char x =? EOF); [discriminate|].
    intros Hl%IH. rewrite length_app in Hl. simpl in Hl. lia.
  - unfold unget_input. destruct (to_char x =? EOF); [discriminate|].
    intros [= <- <-]. unfold measure, set_input in *. simpl in *. lia.
Qed.

Lemma ident_loop_prefix f tok s tok' s' :
  ident_loop f tok s = GWTok tok' s' -> exists w, tok' = tok ++ w.
Proof.
  revert tok s. induction f as [|f IH]; intros tok s; simpl; [discriminate|].
  destruct (getch s) as [x s1]. destruct (x =? EOF); [discriminate|].
  destruct (is_ident_char x).
  - unfold ungetch. destruct (to_char x =? EOF); [discriminate|].
    intros (w & ->)%IH. exists ([byte_of x] ++ w). by rewrite app_assoc.
  - unfold unget_input. destruct (to_char x =? EOF); [discriminate|].
    intros [= <- <-]. exists []. by rewrite app_nil_r.
Qed.

(** A token of [n] bytes takes [n] bytes of the pending input, and is
    never empty. *)
Theorem getword_measure s tok s' :
  getword s = GWTok tok s' -> tok <> [] /\ (measure s' + length tok = measure s)%nat.
Proof.
  unfold getword. destruct (getch s) as [x s1] eqn:Hg.
  destruct (Z.eqb_spec x EOF) as [|Hx]; [discriminate|].
  pose proof (getch_consumes s x s1 Hg Hx) as Hc. unfold ungetch.
  destruct (to_char x =? EOF); [discriminate|].
  destruct (is_ident_start x).
  - intros Hl. pose proof (ident_loop_measure _ _ _ _ _ Hl) as Hm. simpl in Hm.
    destruct (ident_loop_prefix _ _ _ _ _ Hl) as (w & ->). split; [done|lia].
  - intros [= <- <-]. split; [done|]. simpl. lia.
Qed.

Lemma ident_loop_nonff f tok s tok' s' :
  nonff tok -> ident_loop f tok s = GWTok tok' s' -> nonff tok'.
Proof.
  revert tok s. induction f as [|f IH]; intros tok s Ht; simpl; [discriminate|].
  destruct (getch s) as [x s1]. destruct (x =? EOF); [discriminate|].
  destruct (is_ident_char x) eqn:Hi.
  - unfold ungetch. destruct (Z.eqb_spec (to_char x) EOF) as [|Hx]; [discriminate|].
    apply IH. apply nonff_app; [done|]. constructor; [by apply byte_of_not_EOF | constructor].
  - unfold unget_input. destruct (to_char x =? EOF); [discriminate|]. by intros [= <- _].
Qed.

(** The statement of [getword_nonff], for the proofs that build on it. *)
Lemma getword_tok_nonff s tok s' : getword s = GWTok tok s' -> nonff tok.
Proof.
  unfold getword. destruct (getch s) as [x s1]. destruct (x =? EOF); [discriminate|].
  unfold ungetch. destruct (Z.eqb_spec (to_char x) EOF) as [|Hx]; [discriminate|].
  assert (nonff [byte_of x]) by (constructor; [by apply byte_of_not_EOF | constructor]).
  destruct (is_ident_start x); [by apply ident_loop_nonff|]. by intros [= <- _].
Qed.

(** C27: A token delivered by [getword] never holds the byte [0xFF]. *)
Theorem getword_nonff s tok s' : getword s = GWTok tok s' -> nonff tok.
Proof. exact (getword_tok_nonff s tok s'). Qed.

(** ** Witnesses *)

Lemma getword_spec_witness :
  exists s', getword (mk_stream ([97; 98; 40]) [] false) = GWTok ([97; 98]) s' /\ pending s' = [40].
Proof. exact (getword_spec (mk_stream ([97; 98; 40]) [] false) ltac:(decide_by_eval)). Defined.

Lemma getword_nonff_witness : nonff [97; 98].
Proof.
  apply (getword_nonff (mk_stream [97; 98; 40] [] false) [97; 98] (mk_stream [40] [] false)).
  vm_compute. reflexivity.
Defined.

Lemma getword_measure_witness :
  [97; 98] <> [] /\
  Nat.add (measure (mk_stream [40] [] false)) (length [97; 98]) = measure (mk_stream [97; 98; 40] [] false).
Proof.
  apply (getword_measure (mk_stream [97; 98; 40] [] false) [97; 98] (mk_stream [40] [] false)).
  vm_compute. reflexivity.
Defined.

Lemma ident_loop_fuel_witness :
  ident_loop 10 [] (mk_stream ([97; 98; 99; 32; 100]) [] false) = ident_loop 20 [] (mk_stream ([97; 98; 99; 32; 100]) [] false).
Proof. apply ident_loop_fuel; vm_compute; lia. Defined.

End Token.
