(* ===== verification/Subst.v ===== *)
(** * Parameter substitution: [sub_args] and [strip_def]

    [sub_args] (lines 585-617) expands the body of a user macro called with
    arguments: each [$d], [d] a digit from 1 to 9, is replaced by the
    contents of argument buffer [d] (nothing when that argument was never
    started), every other byte is copied through [ungetch], and the result
    is NUL-terminated.  [strip_def] (lines 619-639) is the expansion of a
    macro called without arguments: the [$d] are removed.

    A body is parsed by [parse_def] into literal bytes and parameters; the
    theorems show that [sub_args] and [strip_def] evaluate that parse, that
    [strip_def] is [sub_args] with no arguments, and that printing the parse
    gives the body back. *)

From Stdlib Require Import ZArith Lia List.
From stdpp Require Import base list.
From S2P Require Import Prelude Bytes Input.

Local Open Scope Z_scope.

Module Subst.

(** The argument buffers [arg_buf[0..9]] of a call frame: [None] is a
    [NULL] buffer, [Some b] a buffer with contents [b]. *)
Abbreviation arg_bufs := (list (option bytes)).

(** [isdigit(h) && h != '0'] *)
Definition is_param_digit (h : Z) : bool := isdigit h && negb (h =? 48).

(** The contents copied for [$d] ([memcpy] of [b->i] bytes), empty for a
    [NULL] buffer. *)
Definition arg_contents (args : arg_bufs) (k : Z) : bytes :=
  match args !! Z.to_nat k with Some (Some b) => b | _ => [] end.

(** The loop of [sub_args] from the result [acc] built so far; [None] is
    the return value 1 of a failing [ungetch] (a byte [0xFF] of the body
    read back as [EOF]). *)
Fixpoint sub_args_go (d : bytes) (args : arg_bufs) (acc : bytes) : option bytes :=
  match d with
  | [] => Some acc
  | ch :: r =>
      match r with
      | h :: r' =>
          if (ch =? 36) && is_param_digit h then sub_args_go r' args (acc ++ arg_contents args (h - 48))
          else if to_char ch =? EOF then None else sub_args_go r args (acc ++ [ch])
      | [] => if to_char ch =? EOF then None else sub_args_go r args (acc ++ [ch])
      end
  end.

(** [sub_args(result, stack)] on the definition [stack->def]. *)
Definition sub_args (def : bytes) (args : arg_bufs) : option bytes :=
  sub_args_go (cstr def) args [].

(** [strip_def(def)] *)
Fixpoint strip_def_go (d : bytes) : bytes :=
  match d with
  | [] => []
  | ch :: r =>
      match r with
      | h :: r' => if (ch =? 36) && is_param_digit h then strip_def_go r' else ch :: strip_def_go r
      | [] => [ch]
      end
  end.

Definition strip_def (def : bytes) : bytes := strip_def_go (cstr def).

(** ** The reference reading of a body *)

Inductive piece := Lit (c : Z) | Param (k : Z).

Fixpoint parse_def (d : bytes) : list piece :=
  match d with
  | [] => []
  | ch :: r =>
      match r with
      | h :: r' => if (ch =? 36) && is_param_digit h then Param (h - 48) :: parse_def r'
                   else Lit ch :: parse_def r
      | [] => [Lit ch]
      end
  end.

Definition print_piece (p : piece) : bytes :=
  match p with Lit c => [c] | Param k => [36; 48 + k] end.

Definition eval_piece (args : arg_bufs) (p : piece) : bytes :=
  match p with Lit c => [c] | Param k => arg_contents args k end.

Definition lit_ok (p : piece) : Prop :=
  match p with Lit c => c <> 255 | Param _ => True end.

#[export] Instance piece_eq_dec : EqDecision piece.
Proof. solve_decision. Defined.

(** ** Lemmas *)

(** The equations of the two-byte step of each scan. *)
Lemma parse_def_cons2 c h r :
  parse_def (c :: h :: r) =
    if (c =? 36) && is_param_digit h then Param (h - 48) :: parse_def r
    else Lit c :: parse_def (h :: r).
Proof. done. Qed.

Lemma sub_args_go_cons2 c h r args acc :
  sub_args_go (c :: h :: r) args acc =
    if (c =? 36) && is_param_digit h then sub_args_go r args (acc ++ arg_contents args (h - 48))
    else if to_char c =? EOF then None else sub_args_go (h :: r) args (acc ++ [c]).
Proof. done. Qed.

Lemma strip_def_go_cons2 c h r :
  strip_def_go (c :: h :: r) =
    if (c =? 36) && is_param_digit h then strip_def_go r else c :: strip_def_go (h :: r).
Proof. done. Qed.

(** Printing the parse of a body gives the body back. *)
Theorem parse_def_roundtrip d : concat (map print_piece (parse_def d)) = d.
Proof.
  induction d as [|c|c h r IH1 IH2] using list_pair_ind; [done|done|].
  rewrite parse_def_cons2. destruct ((c =? 36) && is_param_digit h) eqn:E.
  - bool_to_prop. subst. simpl. rewrite IH1. do 2 f_equal. lia.
  - cbn [map concat print_piece app]. rewrite IH2. done.
Qed.

Lemma byte_EOF c : is_byte c -> (to_char c =? EOF) = bool_decide (c = 255).
Proof.
  intros Hc. destruct (Z.eqb_spec (to_char c) EOF) as [H|H]; case_bool_decide as H'.
  - done.
  - exfalso. apply H'. by apply to_char_EOF.
  - exfalso. apply H. by apply to_char_EOF.
  - done.
Qed.

Lemma sub_args_go_eval d args acc :
  all_bytes d ->
  sub_args_go d args acc =
    if bool_decide (Lit 255 ∈ parse_def d) then None
    else Some (acc ++ concat (map (eval_piece args) (parse_def d))).
Proof.
  revert acc.
  induction d as [|c|c h r IH1 IH2] using list_pair_ind; intros acc Hb.
  - cbn. rewrite bool_decide_false by apply not_elem_of_nil. by rewrite app_nil_r.
  - invc Hb. cbn. rewrite byte_EOF by done.
    case_bool_decide as H; case_bool_decide as H'; [done| | |done].
    + exfalso. apply H'. subst. by left.
    + exfalso. apply H. apply list_elem_of_singleton in H'. by injection H'.
  - pose proof Hb as Hb'. invc Hb'. rewrite sub_args_go_cons2, parse_def_cons2.
    destruct ((c =? 36) && is_param_digit h) eqn:E.
    + invc H2. rewrite IH1 by done. rewrite (bool_decide_ext (Lit 255 ∈ Param (h - 48) :: parse_def r)
        (Lit 255 ∈ parse_def r));
        [|rewrite elem_of_cons; split; [intros [Hx|Hx]; [discriminate Hx|exact Hx] | by right]].
      destruct (bool_decide _); [done|]. cbn [map concat eval_piece]. by rewrite app_assoc.
    + rewrite byte_EOF by done. rewrite IH2 by done.
      rewrite (bool_decide_ext (Lit 255 ∈ Lit c :: parse_def (h :: r))
        (c = 255 \/ Lit 255 ∈ parse_def (h :: r)));
        [|rewrite elem_of_cons; split; [intros [Hx|Hx]; [injection Hx as ->; by left | by right]
                                        | intros [->|Hx]; [by left | by right]]].
      destruct (decide (c = 255)) as [Hc|Hc]; [by rewrite !bool_decide_true by auto|].
      destruct (decide (Lit 255 ∈ parse_def (h :: r))) as [Hr|Hr].
      * by rewrite (bool_decide_false (c = 255)), !bool_decide_true by auto.
      * rewrite !bool_decide_false by tauto. cbn [map concat eval_piece]. by rewrite app_assoc.
Qed.

(** The statement of [sub_args_spec], for the proofs that build on it. *)
Lemma sub_args_ok def args :
  all_bytes def ->
  sub_args def args =
    if bool_decide (Lit 255 ∈ parse_def (cstr def)) then None
    else Some (concat (map (eval_piece args) (parse_def (cstr def)))).
Proof. intros Hb. unfold sub_args. by rewrite sub_args_go_eval by (by apply all_bytes_cstr). Qed.

(** C19: [sub_args] replaces every parameter of the body by the contents of its
    argument and copies the literal bytes; it fails exactly when a literal
    byte of the body is [0xFF]. *)
Theorem sub_args_spec def args :
  all_bytes def ->
  sub_args def args =
    if bool_decide (Lit 255 ∈ parse_def (cstr def)) then None
    else Some (concat (map (eval_piece args) (parse_def (cstr def)))).
Proof. exact (sub_args_ok def args). Qed.

Lemma strip_def_go_eval d : strip_def_go d = concat (map (eval_piece []) (parse_def d)).
Proof.
  induction d as [|c|c h r IH1 IH2] using list_pair_ind; [done|done|].
  rewrite strip_def_go_cons2, parse_def_cons2. destruct ((c =? 36) && is_param_digit h).
  - rewrite IH1. cbn [map concat eval_piece]. unfold arg_contents.
    by rewrite lookup_nil.
  - rewrite IH2. done.
Qed.

(** C21: A macro called without arguments expands as one called with no
    argument buffers: [strip_def] is [sub_args] with every argument
    empty. *)
Theorem strip_def_sub_args def :
  all_bytes def -> Lit 255 ∉ parse_def (cstr def) ->
  sub_args def [] = Some (strip_def def).
Proof.
  intros Hb Hn. rewrite sub_args_ok by done. rewrite bool_decide_false by done.
  unfold strip_def. by rewrite strip_def_go_eval.
Qed.

(** ** Witnesses *)

Lemma sub_args_spec_witness :
  sub_args ([36; 49; 45; 36; 50]) [None; Some ([97]); Some ([98])] =
    Some (concat (map (eval_piece [None; Some ([97]); Some ([98])]) (parse_def ([36; 49; 45; 36; 50])))).
Proof. rewrite sub_args_spec by decide_by_eval. reflexivity. Defined.

Lemma strip_def_sub_args_witness : sub_args ([120; 36; 49; 121]) [] = Some (strip_def ([120; 36; 49; 121])).
Proof. apply strip_def_sub_args; decide_by_eval. Defined.

End Subst.
