(* ===== verification/State.v ===== *)
(** * The state of the macro engine and its primitive operations

    The local variables of [main] that live across iterations of the main
    loop form the record [state]: the input stream, the symbol table (any
    [MacroTable]), the call stack of [struct mcall] frames, the quote state
    ([quote_on], [quote_depth], [left_quote], [right_quote]), the active
    diversion [act_div] and the eleven diversion buffers, the cached output
    pointer [output], and what has been written to [stdout] and [stderr].

    [output] points to a buffer: a diversion ([SDiv n]) or argument buffer
    [k] of the frame at depth [f] from the bottom of the stack ([SArg f k]).
    The macros of [main] that act on this state are defined here:
    [SET_OUTPUT], [put_str] on [output], [OUT_DIV], [UNDIVERT_ALL],
    [READ_TOKEN], [EAT_WS], [DNL], [DIVNUM], [EQUIT], [ungetstr] on the
    input and [ARG]. *)

From Stdlib Require Import ZArith Lia List String.
From stdpp Require Import base list.
From S2P Require Import Prelude Bytes Num SymTab Input Token Subst.

Local Open Scope Z_scope.

Module State.
Import Input Token.

(** [struct mcall] (lines 143-150) without its [next] link: the stack is a
    list, top first.  [bracket_depth] counts unquoted brackets; an increment
    needs one input byte, so it stays far below [SIZE_MAX]. *)
Record mcall := mk_mcall {
  mc_name : bytes;
  mc_def : option bytes;
  bracket_depth : Z;
  act_arg : nat;
  arg_buf : list (option bytes);
}.

(** A frame as [stack_on_mcall] leaves it once [main] has filled it (lines
    1233-1243): [calloc] zeroes it, [init_mcall] allocates argument buffer 1
    and sets [act_arg = 1], and the first bracket is counted. *)
Definition new_mcall (name : bytes) (def : option bytes) : mcall :=
  mk_mcall name def 1 1 (None :: Some [] :: replicate 8 None).

Definition set_bracket_depth (m : mcall) (d : Z) : mcall :=
  mk_mcall (mc_name m) (mc_def m) d (act_arg m) (arg_buf m).

(** [ARG(n)] (line 872): the C string of argument [n], [""] for a [NULL]
    buffer. *)
Definition ARG (m : mcall) (n : nat) : bytes :=
  match arg_buf m !! n with Some (Some b) => cstr b | _ => [] end.

(** [ARG(1)] to [ARG(9)] *)
Definition args_of (m : mcall) : list bytes := map (ARG m) (seq 1 9).

(** The loop [while ( *(m->arg_buf + j) != NULL && j < 10) ++j] of
    [free_mcall] (lines 516-519) from [j = 1], over the slots [arg_buf[j]]
    onwards: the condition reads [arg_buf[j]] before it tests [j < 10],
    so when the nine buffers 1 to 9 are all allocated it reads
    [arg_buf[10]], one past the array: [None], undefined behaviour. *)
Fixpoint free_bufs_from (j : nat) (rest : list (option bytes)) : option unit :=
  match rest with
  | [] => None
  | None :: _ => Some ()
  | Some _ :: r => if Nat.ltb j 10 then free_bufs_from (S j) r else Some ()
  end.

Definition free_mcall (m : mcall) : option unit := free_bufs_from 1 (drop 1 (arg_buf m)).

(** [terminate_args] (lines 641-650): the same loop, appending a NUL to
    each allocated argument buffer. *)
Fixpoint terminate_from (j : nat) (rest : list (option bytes)) : option (list (option bytes)) :=
  match rest with
  | [] => None
  | None :: r => Some (None :: r)
  | Some b :: r =>
      if Nat.ltb j 10 then (fun r' => Some (b ++ [0]) :: r') <$> terminate_from (S j) r
      else Some rest
  end.

Definition terminate_args (m : mcall) : option mcall :=
  bufs ← terminate_from 1 (drop 1 (arg_buf m));
  Some (mk_mcall (mc_name m) (mc_def m) (bracket_depth m) (act_arg m) (take 1 (arg_buf m) ++ bufs)).

Inductive sink := SDiv (n : nat) | SArg (frame : nat) (k : nat).

Section WithTable.
Context {T : Type} `{!MacroTable T}.

Record state := mk_state {
  strm : stream;
  ht : T;
  stack : list mcall;
  quote_on : bool;
  quote_depth : Z;
  left_quote : Z;
  right_quote : Z;
  act_div : nat;
  diversion : list bytes;
  output : sink;
  out : bytes;
  err : bytes;
}.

(** ** Field updates *)

Definition set_strm (st : state) x := mk_state x (ht st) (stack st) (quote_on st) (quote_depth st)
  (left_quote st) (right_quote st) (act_div st) (diversion st) (output st) (out st) (err st).
Definition set_ht (st : state) x := mk_state (strm st) x (stack st) (quote_on st) (quote_depth st)
  (left_quote st) (right_quote st) (act_div st) (diversion st) (output st) (out st) (err st).
Definition set_stack (st : state) x := mk_state (strm st) (ht st) x (quote_on st) (quote_depth st)
  (left_quote st) (right_quote st) (act_div st) (diversion st) (output st) (out st) (err st).
Definition set_quote (st : state) on d := mk_state (strm st) (ht st) (stack st) on d
  (left_quote st) (right_quote st) (act_div st) (diversion st) (output st) (out st) (err st).
Definition set_quotes (st : state) l r := mk_state (strm st) (ht st) (stack st) (quote_on st)
  (quote_depth st) l r (act_div st) (diversion st) (output st) (out st) (err st).
Definition set_act_div (st : state) x := mk_state (strm st) (ht st) (stack st) (quote_on st)
  (quote_depth st) (left_quote st) (right_quote st) x (diversion st) (output st) (out st) (err st).
Definition set_diversion (st : state) x := mk_state (strm st) (ht st) (stack st) (quote_on st)
  (quote_depth st) (left_quote st) (right_quote st) (act_div st) x (output st) (out st) (err st).
Definition set_output (st : state) x := mk_state (strm st) (ht st) (stack st) (quote_on st)
  (quote_depth st) (left_quote st) (right_quote st) (act_div st) (diversion st) x (out st) (err st).
Definition add_out (st : state) b := mk_state (strm st) (ht st) (stack st) (quote_on st)
  (quote_depth st) (left_quote st) (right_quote st) (act_div st) (diversion st) (output st)
  (out st ++ b) (err st).
Definition add_err (st : state) b := mk_state (strm st) (ht st) (stack st) (quote_on st)
  (quote_depth st) (left_quote st) (right_quote st) (act_div st) (diversion st) (output st)
  (out st) (err st ++ b).

Definition set_input (st : state) (inp : bytes) : state := set_strm st (Input.set_input (strm st) inp).

(** ** The output pointer *)

(** [SET_OUTPUT] (line 847): the top frame's current argument buffer, or
    the active diversion. *)
Definition sink_of (stk : list mcall) (d : nat) : sink :=
  match stk with
  | [] => SDiv d
  | m :: rest => SArg (length rest) (act_arg m)
  end.

Definition SET_OUTPUT : M state unit :=
  modify (fun st => set_output st (sink_of (stack st) (act_div st))).

(** The frame at depth [f] from the bottom of the stack, changed by [g]. *)
Fixpoint update_frame (f : nat) (g : mcall -> mcall) (stk : list mcall) : list mcall :=
  match stk with
  | [] => []
  | m :: rest => if Nat.eqb (length rest) f then g m :: rest else m :: update_frame f g rest
  end.

Definition arg_append (k : nat) (b : bytes) (m : mcall) : mcall :=
  mk_mcall (mc_name m) (mc_def m) (bracket_depth m) (act_arg m)
           (alter (fmap (fun a => a ++ b)) k (arg_buf m)).

(** Appending bytes to the buffer [output] points to. *)
Definition write (st : state) (b : bytes) : state :=
  match output st with
  | SDiv n => set_diversion st (<[n := diversion st !!! n ++ b]> (diversion st))
  | SArg f k => set_stack st (update_frame f (arg_append k b) (stack st))
  end.

(** [put_str(output, s)] (lines 575-583). *)
Definition put_str (s : bytes) : M state unit := modify (fun st => write st (cstr s)).

(** [OUT_DIV(n)] (lines 852-856): diversion [n] is written to [stdout] and
    emptied. *)
Definition OUT_DIV (n : nat) : M state unit :=
  modify (fun st => set_diversion (add_out st (diversion st !!! n))
                                  (<[n := []]> (diversion st))).

(** [UNDIVERT_ALL] (lines 858-859). *)
Definition UNDIVERT_ALL : M state unit :=
  fold_left (fun c k => c;; OUT_DIV k) (seq 0 10) (mret ()).

(** [buf_dump_buf(dst, src)] (lines 677-685) on two diversions. *)
Definition dump_div (dst src : nat) : M state unit :=
  modify (fun st =>
    let d := diversion st in
    set_diversion st (<[src := []]> (<[dst := d !!! dst ++ d !!! src]> d))).

(** ** Input *)

(** [READ_TOKEN(t)] (lines 874-882). *)
Definition READ_TOKEN : M state bytes := fun st =>
  match getword (strm st) with
  | GWTok tok s' => Done tok (set_strm st s')
  | GWEnd s' => Eoi (set_strm st s')
  | GWErr s' => Quit (set_strm st s')
  end.

(** [if (ungetstr(input, s)) QUIT;] *)
Definition unget_str (s : bytes) : M state unit := fun st =>
  let '(inp, ok) := ungetstr (input (strm st)) s in
  if ok then Done () (set_input st inp) else Quit (set_input st inp).

(** The bytes still to be read: the fuel of the token loops below. *)
Definition pending_len (st : state) : nat := measure (strm st).

(** The loop [do READ_TOKEN(next_token); while (again(NTS));] shared by
    [EAT_WS] and [DNL], continued by [k] with the last token.  Every token
    read takes at least one byte, so the fuel [S (pending_len st)] is never
    exhausted ([token_loop_fuel]). *)
Fixpoint token_loop {A} (again : bytes -> bool) (k : bytes -> M state A) (fuel : nat) : M state A :=
  match fuel with
  | O => goto_eoi
  | S f => t ← READ_TOKEN; if again t then token_loop again k f else k t
  end.

Definition run_token_loop {A} (again : bytes -> bool) (k : bytes -> M state A) : M state A :=
  st ← get; token_loop again k (S (pending_len st)).

(** [EAT_WS] (lines 885-891): skip whitespace tokens and push back the
    first other one. *)
Definition EAT_WS : M state unit := run_token_loop WS unget_str.

(** [DNL] (lines 894-898): read up to and including a newline. *)
Definition DNL : M state unit := run_token_loop (fun t => negb (streq t [10])) (fun _ => mret ()).

(** [DIVNUM] (lines 900-907). *)
Definition DIVNUM : M state unit :=
  st ← get;
  unget_str (if Nat.eqb (act_div st) 10 then Num.minus_one else Num.print_lu (Z.of_nat (act_div st))).

(** [EQUIT(m)] (lines 911-916): the message and a newline on [stderr],
    then [QUIT]. *)
Definition EQUITb {A} (msg : bytes) : M state A :=
  modify (fun st => add_err st (msg ++ [10]));; quit.

Definition EQUIT {A} (msg : string) : M state A := EQUITb (bs msg).

(** [ISMACRO(s)] (lines 843-844) with the [e->def] it finds: [None] when
    [s] does not start like an identifier or is unknown. *)
Definition ISMACRO (t : T) (s : bytes) : option (option bytes) :=
  match cstr s with
  | c :: _ => if is_ident_start c then mt_find t s else None
  | [] => None
  end.

(** The top frame changed by [g] ([stack->...] updates). *)
Definition map_top (g : mcall -> mcall) (stk : list mcall) : list mcall :=
  match stk with [] => [] | m :: r => g m :: r end.

Definition modify_top (g : mcall -> mcall) : M state unit :=
  modify (fun st => set_stack st (map_top g (stack st))).

(** ** Lemmas *)

(** A token read takes at least one byte of the input. *)
Lemma READ_TOKEN_measure (st st' : state) t :
  READ_TOKEN st = Done t st' -> (pending_len st' < pending_len st)%nat.
Proof.
  unfold READ_TOKEN, pending_len. destruct (getword (strm st)) as [tok s'|s'|s'] eqn:Hg; try discriminate.
  intros [= <- <-]. destruct (getword_measure _ _ _ Hg) as [Hne Hm]. simpl.
  destruct tok; [done|]. simpl in Hm. lia.
Qed.

(** C25: The token loops of [EAT_WS] and [DNL] terminate within their fuel:
    any fuel above the number of pending bytes gives the same result. *)
Theorem token_loop_fuel {A} (again : bytes -> bool) (k : bytes -> M state A) f1 f2 st :
  (pending_len st < f1)%nat -> (pending_len st < f2)%nat ->
  token_loop again k f1 st = token_loop again k f2 st.
Proof.
  revert f2 st. induction f1 as [|f1 IH]; intros [|f2] st H1 H2; try lia. simpl.
  unfold mbind, M_bind. destruct (READ_TOKEN st) as [t st'|st'|st'|st'] eqn:Hr; try done.
  pose proof (READ_TOKEN_measure _ _ _ Hr). destruct (again t); [|done]. apply IH; lia.
Qed.

End WithTable.

Arguments state T : clear implicits.

(** ** Witnesses *)

Definition state1 : state SymTab.table :=
  mk_state (Input.mk_stream (bs " a") [] false) ∅ [] false 0 96 39 0 (replicate 11 []) (SDiv 0) [] [].

Lemma token_loop_fuel_witness : token_loop WS unget_str 3 state1 = token_loop WS unget_str 5 state1.
Proof. apply token_loop_fuel; vm_compute; lia. Defined.

End State.
