(* ===== verification/Builtins.v ===== *)
(** * The built-in macros

    [PROCESS_BI_WITH_ARGS] (lines 941-1161) runs a built-in whose call
    frame has collected its arguments; [PROCESS_BI_NO_ARGS] (lines
    1179-1202) runs a built-in named without a following [(].  The pure
    computations ([strstr] for [index], the [translit] map, the checks of
    [changequote], [divert] and [undivert], the lines of [dumpdef]) come
    first, then the two dispatchers over the engine state.

    [translit] fills [int map[UCHAR_MAX]]: 255 entries, indices 0 to 254,
    while it indexes it with any [unsigned char]; the byte 255 makes it
    read or write out of bounds, modelled as undefined behaviour ([None]
    here, [Ub] in the engine).

    The theorems: [translit] computes a reference transliteration
    ([translit_spec]), and [index] pushes back the 0-based offset of the
    first occurrence of its second argument ([index_first_offset]). *)

From Stdlib Require Import ZArith Lia List String.
From stdpp Require Import base list sets.
From S2P Require Import Prelude Bytes Num SymTab Input Token Subst State.

Local Open Scope Z_scope.

Module Builtins.
Import State.

(** [!strcmp(s, "<name>")] for the name of a built-in. *)
Definition is_name (s : bytes) (n : string) : bool := streq s (bs n).

(** ** [index]: [strstr] *)

Fixpoint is_prefix (p s : bytes) : bool :=
  match p, s with
  | [], _ => true
  | c :: p', d :: s' => (c =? d) && is_prefix p' s'
  | _ :: _, [] => false
  end.

(** The offset of the first occurrence of [needle] in [hay]. *)
Fixpoint strstr_go (hay needle : bytes) (i : nat) : option nat :=
  if is_prefix needle hay then Some i
  else match hay with [] => None | _ :: h => strstr_go h needle (S i) end.

Definition strstr (hay needle : bytes) : option nat := strstr_go (cstr hay) (cstr needle) 0.

(** ** [translit] *)

Definition UCHAR_MAX : nat := 255.

(** [*(map + uc) = v]: [None] when [uc] is out of the array. *)
Definition map_set (mp : list Z) (uc v : Z) : option (list Z) :=
  if Nat.ltb (Z.to_nat uc) (length mp) then Some (<[Z.to_nat uc := v]> mp) else None.

(** The parallel loop (lines 1009-1011): [map[from[i]] = to[i]] unless
    already set.  It stops at the end of [from], or at the end of [to] with
    the current byte of [from] still to handle. *)
Fixpoint tl_pairs (p q : bytes) (mp : list Z) : option (list Z * bytes) :=
  match p with
  | [] => Some (mp, [])
  | uc :: p' =>
      match q with
      | [] => Some (mp, p)
      | uc2 :: q' =>
          v ← mp !! Z.to_nat uc;
          mp' ← (if v =? -1 then map_set mp uc uc2 else Some mp);
          tl_pairs p' q' mp'
      end
  end.

(** The rest of [from] is mapped to delete (lines 1013-1016). *)
Fixpoint tl_delete (p : bytes) (mp : list Z) : option (list Z) :=
  match p with
  | [] => Some mp
  | uc :: p' => mp' ← map_set mp uc 0; tl_delete p' mp'
  end.

(** The copy of [ARG(1)] through the map (lines 1019-1028). *)
Fixpoint tl_apply (s : bytes) (mp : list Z) : option bytes :=
  match s with
  | [] => Some []
  | uc :: s' =>
      x ← mp !! Z.to_nat uc;
      r ← tl_apply s' mp;
      Some (if x =? -1 then uc :: r else if x =? 0 then r else x :: r)
  end.

Definition translit (s from to : bytes) : option bytes :=
  '(mp1, rest) ← tl_pairs (cstr from) (cstr to) (replicate UCHAR_MAX (-1));
  mp2 ← tl_delete rest mp1;
  tl_apply (cstr s) mp2.

(** The reference behaviour of [translit] on one byte [c] of [ARG(1)]: a
    byte of [from] at a position with no partner in [to] is deleted, even
    when an earlier occurrence has a partner (the deleting loop writes the
    map unconditionally); otherwise the partner of its first occurrence
    replaces it, and a byte not in [from] passes through. *)
Fixpoint pair_lookup (p q : bytes) (c : Z) : option Z :=
  match p, q with
  | uc :: p', uc2 :: q' => if uc =? c then Some uc2 else pair_lookup p' q' c
  | _, _ => None
  end.

Definition tl_ref (from to : bytes) (c : Z) : option Z :=
  if bool_decide (c ∈ drop (length to) from) then None
  else Some (default c (pair_lookup from to c)).

Definition translit_ref (s from to : bytes) : bytes :=
  omap (tl_ref (cstr from) (cstr to)) (cstr s).

(** What the copy loop does with byte [c] given the map [mp]. *)
Definition tl_char (mp : list Z) (c : Z) : option Z :=
  match mp !! Z.to_nat c with
  | Some x => if x =? -1 then Some c else if x =? 0 then None else Some x
  | None => None
  end.

(** ** Argument checks *)

(** The condition of [changequote] (lines 949-953), negated: the quotes
    are single graphic bytes, distinct, and none of [(], [)], [,]. *)
Definition quotes_ok (a b : bytes) : bool :=
  match cstr a, cstr b with
  | [l], [r] =>
      negb (l =? r) && isgraph l && isgraph r &&
      negb ((l =? 40) || (r =? 40) || (l =? 41) || (r =? 41) || (l =? 44) || (r =? 44))
  | _, _ => false
  end.

(** The diversion named by the argument of [divert] (lines 960-965): a
    single digit, or [-1] for diversion 10. *)
Definition divert_target (a : bytes) : option nat :=
  match cstr a with
  | [c] => if isdigit c then Some (Z.to_nat (c - 48)) else None
  | [45; 49] => Some 10%nat
  | _ => None
  end.

(** An argument of [undivert] naming a held diversion: a single digit
    other than [0] (lines 1054 and 1059). *)
Definition undivert_digit (a : bytes) : option nat :=
  match cstr a with
  | [c] => if isdigit c && negb (c =? 48) then Some (Z.to_nat (c - 48)) else None
  | _ => None
  end.

(** The line of [errprint] for one argument (lines 976-978). *)
Definition errprint_line (a : bytes) : bytes :=
  if bool_decide (cstr a = []) then [] else cstr a ++ [10].

Section WithTable.
Context {T : Type} `{!MacroTable T}.

(** The line of [dumpdef] for one argument (lines 969-973). *)
Definition dumpdef_line (t : T) (a : bytes) : bytes :=
  match ISMACRO t a with
  | Some d => cstr a ++ bs ": " ++ default (bs "built-in") (cstr <$> d) ++ [10]
  | None => if bool_decide (cstr a = []) then [] else cstr a ++ bs ": undefined" ++ [10]
  end.

(** The result of an arithmetic built-in: the message of [EQUIT], or the
    number printed and pushed back. *)
Definition push_num (r : bytes + Z) : M (state T) unit :=
  match r with
  | inl e => EQUITb e
  | inr n => unget_str (Num.print_lu n)
  end.

Section Files.
(** The regular files [include] can open, by path. *)
Variable files : bytes -> option bytes.

(** [substr] (lines 1033-1049). *)
Definition bi_substr (a1 a2 a3 : bytes) : M (state T) unit :=
  let s := cstr a1 in
  let len := Z.of_nat (length s) in
  if len =? 0 then mret ()
  else
    match Num.str_to_num a2, Num.str_to_num a3 with
    | Some w, Some n =>
        if w <? len then
          if AOF n 1 then quit
          else unget_str (take (Z.to_nat (Z.min len n)) (drop (Z.to_nat w) s))
        else mret ()
    | _, _ => EQUIT "substr: Invalid index or length"
    end.

(** [undivert] with arguments (lines 1050-1063). *)
Definition bi_undivert (args : list bytes) : M (state T) unit :=
  st ← get;
  let a := act_div st in
  fold_left (fun c arg =>
    c;;
    match undivert_digit arg with
    | Some d =>
        if Nat.eqb a 0 then OUT_DIV d
        else if Nat.eqb d a then mret () else dump_div a d
    | None => mret ()
    end) args (mret ()).

(** [PROCESS_BI_WITH_ARGS] for the frame [m] on top of the stack. *)
Definition PROCESS_BI_WITH_ARGS (m : mcall) : M (state T) unit :=
  let SN := mc_name m in
  let A := ARG m in
  if is_name SN "define" then
    modify (fun st => set_ht st (mt_upsert (ht st) (A 1%nat) (Some (A 2%nat))))
  else if is_name SN "undefine" then
    st ← get;
    match mt_delete (ht st) (A 1%nat) with
    | None => quit
    | Some t => put (set_ht st t)
    end
  else if is_name SN "changequote" then
    if quotes_ok (A 1%nat) (A 2%nat) then
      modify (fun st => set_quotes st (hd 0 (A 1%nat)) (hd 0 (A 2%nat)))
    else EQUIT "changequote: quotes must be different single graph chars that cannot a comma or parentheses"
  else if is_name SN "divert" then
    match divert_target (A 1%nat) with
    | Some d => modify (fun st => set_act_div st d);; SET_OUTPUT
    | None => EQUIT "divert: Diversion number must be 0 to 9 or -1"
    end
  else if is_name SN "dumpdef" then
    modify (fun st => add_err st (concat (map (dumpdef_line (ht st)) (args_of m))))
  else if is_name SN "errprint" then
    modify (fun st => add_err st (concat (map errprint_line (args_of m))))
  else if is_name SN "ifdef" then
    st ← get;
    unget_str (match ISMACRO (ht st) (A 1%nat) with Some _ => A 2%nat | None => A 3%nat end)
  else if is_name SN "ifelse" then
    unget_str (if streq (A 1%nat) (A 2%nat) then A 3%nat else A 4%nat)
  else if is_name SN "include" then
    st ← get;
    match Input.include files (Input.input (strm st)) (A 1%nat) with
    | None => modify (fun st => add_err st (bs "include: Failed to include file: " ++ A 1%nat ++ [10]));; quit
    | Some inp => put (set_input st inp)
    end
  else if is_name SN "len" then
    unget_str (Num.print_lu (Z.of_nat (length (A 1%nat))))
  else if is_name SN "index" then
    unget_str (match strstr (A 1%nat) (A 2%nat) with
               | None => Num.minus_one
               | Some i => Num.print_lu (Z.of_nat i)
               end)
  else if is_name SN "translit" then
    match translit (A 1%nat) (A 2%nat) (A 3%nat) with
    | None => undefined
    | Some r => unget_str r
    end
  else if is_name SN "substr" then bi_substr (A 1%nat) (A 2%nat) (A 3%nat)
  else if is_name SN "undivert" then bi_undivert (args_of m)
  else if is_name SN "dnl" then DNL
  else if is_name SN "divnum" then DIVNUM
  else if is_name SN "incr" then push_num (Num.bi_incr (A 1%nat))
  else if is_name SN "htdist" then modify (fun st => add_err st (mt_dist (ht st)))
  else if is_name SN "dirsep" then unget_str (bs "/")
  else if is_name SN "add" then push_num (Num.bi_add (args_of m))
  else if is_name SN "mult" then push_num (Num.bi_mult (args_of m))
  else if is_name SN "sub" then push_num (Num.bi_sub (args_of m))
  else if is_name SN "div" then push_num (Num.bi_div (args_of m))
  else if is_name SN "mod" then push_num (Num.bi_mod (args_of m))
  else mret ().

End Files.

(** [PROCESS_BI_NO_ARGS] for the token [TS] naming a built-in. *)
Definition PROCESS_BI_NO_ARGS (TS : bytes) : M (state T) unit :=
  if is_name TS "dnl" then DNL
  else if is_name TS "divnum" then DIVNUM
  else if is_name TS "undivert" then
    st ← get;
    if Nat.eqb (act_div st) 0 then UNDIVERT_ALL
    else EQUIT "undivert: Can only call from diversion 0 when called without arguments"
  else if is_name TS "divert" then modify (fun st => set_act_div st 0);; SET_OUTPUT
  else if is_name TS "htdist" then modify (fun st => add_err st (mt_dist (ht st)))
  else if is_name TS "dirsep" then unget_str (bs "/")
  else put_str TS.

End WithTable.

(** ** [translit] *)

Lemma map_set_in mp uc v :
  (Z.to_nat uc < length mp)%nat -> map_set mp uc v = Some (<[Z.to_nat uc := v]> mp).
Proof. intros H. unfold map_set. by rewrite (proj2 (Nat.ltb_lt _ _) H). Qed.

Lemma lookup_map_byte (mp : list Z) c :
  length mp = UCHAR_MAX -> 0 <= c < 255 -> is_Some (mp !! Z.to_nat c).
Proof. intros Hl Hc. apply lookup_lt_is_Some. unfold UCHAR_MAX in Hl. lia. Qed.

Lemma lookup_insert_byte (mp : list Z) uc c v :
  length mp = UCHAR_MAX -> 0 <= uc < 255 -> 0 <= c < 255 ->
  <[Z.to_nat uc := v]> mp !! Z.to_nat c = if uc =? c then Some v else mp !! Z.to_nat c.
Proof.
  intros Hl Hu Hc. unfold UCHAR_MAX in Hl. destruct (Z.eqb_spec uc c) as [->|Hne].
  - apply list_lookup_insert_eq. lia.
  - apply list_lookup_insert_ne. lia.
Qed.

(** The parallel loop: the map gains the partner of each first occurrence,
    and the rest of [from] is the part beyond the length of [to]. *)
Lemma tl_pairs_spec p q mp :
  length mp = UCHAR_MAX -> nonff p -> nonff q ->
  exists mp', tl_pairs p q mp = Some (mp', drop (length q) p) /\ length mp' = UCHAR_MAX /\
    forall c, 0 <= c < 255 ->
      mp' !! Z.to_nat c =
        (fun x => if x =? -1 then default (-1) (pair_lookup p q c) else x) <$> mp !! Z.to_nat c.
Proof.
  revert q mp. induction p as [|uc p IH]; intros q mp Hl Hp Hq.
  - exists mp. split_and!; [by destruct q | done |]. intros c _.
    destruct (mp !! _); [|done]. simpl. by destruct (_ =? -1) eqn:E; [apply Z.eqb_eq in E as ->|].
  - destruct q as [|uc2 q].
    + exists mp. split_and!; [done | done |]. intros c _.
      destruct (mp !! _); [|done]. simpl. by destruct (_ =? -1) eqn:E; [apply Z.eqb_eq in E as ->|].
    + apply Forall_cons in Hp as [Hu Hp]. apply Forall_cons in Hq as [Hu2 Hq].
      destruct (lookup_map_byte mp uc Hl Hu) as [v Hv]. simpl. rewrite Hv. simpl.
      destruct (Z.eqb_spec v (-1)) as [Hv1|Hv1].
      * rewrite map_set_in by (unfold UCHAR_MAX in Hl; lia).
        destruct (IH q (<[Z.to_nat uc := uc2]> mp)) as (mp' & H1 & H2 & H3);
          [by rewrite length_insert | done | done |].
        exists mp'. split_and!; [done | done |]. intros c Hc. rewrite H3 by done.
        rewrite lookup_insert_byte by done. destruct (Z.eqb_spec uc c) as [<-|]; [|done].
        rewrite Hv, Hv1. simpl. destruct (Z.eqb_spec uc2 (-1)); [lia | done].
      * destruct (IH q mp) as (mp' & H1 & H2 & H3); [done..|].
        exists mp'. split_and!; [done | done |]. intros c Hc. rewrite H3 by done.
        destruct (Z.eqb_spec uc c) as [<-|]; [|done].
        rewrite Hv. simpl. by rewrite (proj2 (Z.eqb_neq v (-1)) Hv1).
Qed.

(** The deleting loop maps every byte of the rest of [from] to 0. *)
Lemma tl_delete_spec p mp :
  length mp = UCHAR_MAX -> nonff p ->
  exists mp', tl_delete p mp = Some mp' /\ length mp' = UCHAR_MAX /\
    forall c, 0 <= c < 255 ->
      mp' !! Z.to_nat c = if bool_decide (c ∈ p) then Some 0 else mp !! Z.to_nat c.
Proof.
  revert mp. induction p as [|uc p IH]; intros mp Hl Hp.
  - exists mp. split_and!; [done | done |]. intros c _. by rewrite bool_decide_false by set_solver.
  - apply Forall_cons in Hp as [Hu Hp]. simpl.
    rewrite map_set_in by (unfold UCHAR_MAX in Hl; lia).
    destruct (IH (<[Z.to_nat uc := 0]> mp)) as (mp' & H1 & H2 & H3); [by rewrite length_insert | done |].
    exists mp'. split_and!; [done | done |]. intros c Hc. rewrite H3, lookup_insert_byte by done.
    destruct (Z.eqb_spec uc c) as [->|Hne].
    + rewrite (bool_decide_true (c ∈ c :: p)) by (apply elem_of_cons; by left).
      by destruct (bool_decide _).
    + replace (bool_decide (c ∈ uc :: p)) with (bool_decide (c ∈ p)); [done|].
      apply bool_decide_ext. rewrite elem_of_cons. naive_solver.
Qed.

(** The copy loop. *)
Lemma tl_apply_spec s mp :
  length mp = UCHAR_MAX -> nonff s -> tl_apply s mp = Some (omap (tl_char mp) s).
Proof.
  intros Hl. induction s as [|c s IH]; intros Hs; [done|]. apply Forall_cons in Hs as [Hc Hs].
  destruct (lookup_map_byte mp c Hl Hc) as [x Hx]. simpl. rewrite Hx, IH by done. simpl.
  unfold tl_char. rewrite Hx. by destruct (x =? -1), (x =? 0).
Qed.

Lemma pair_lookup_elem p q c v : pair_lookup p q c = Some v -> v ∈ q.
Proof.
  revert q. induction p as [|uc p IH]; intros [|uc2 q]; simpl; try discriminate.
  destruct (uc =? c); [intros [= ->]; apply elem_of_cons; by left|].
  intros H. apply elem_of_cons. right. by apply IH.
Qed.

(** The statement of [translit_spec], for the proofs that build on it. *)
Lemma translit_ref_ok s from to :
  nonff s -> nonff from -> nonff to -> translit s from to = Some (translit_ref s from to).
Proof.
  intros Hs Hf Ht. unfold translit, translit_ref.
  destruct (tl_pairs_spec (cstr from) (cstr to) (replicate UCHAR_MAX (-1)))
    as (mp1 & H1 & L1 & S1); [apply length_replicate | by apply nonff_cstr.. |].
  rewrite H1. simpl.
  destruct (tl_delete_spec (drop (length (cstr to)) (cstr from)) mp1) as (mp2 & H2 & L2 & S2);
    [done | by apply Forall_drop, nonff_cstr |].
  rewrite H2. simpl. rewrite tl_apply_spec by (done || by apply nonff_cstr). f_equal.
  apply list_omap_ext, Forall_Forall2_diag. pose proof (nonff_cstr s Hs) as Hcs.
  eapply Forall_impl; [exact Hcs|]. intros c Hc. simpl in Hc. unfold tl_char, tl_ref.
  rewrite S2 by done. case_bool_decide; [done|]. rewrite S1 by done.
  rewrite lookup_replicate_2 by (unfold UCHAR_MAX; lia). simpl.
  destruct (pair_lookup _ _ c) as [v|] eqn:E; simpl; [|done].
  apply pair_lookup_elem in E.
  pose proof (proj1 (Forall_forall _ _) (nonff_cstr to Ht) v E).
  pose proof (proj1 (Forall_forall _ _) (cstr_is_no_nul to) v E). simpl in *.
  destruct (Z.eqb_spec v (-1)); [lia|]. destruct (Z.eqb_spec v 0); [lia | done].
Qed.

(** C15: [translit] on arguments without the byte [0xFF] is defined, and
    computes the reference transliteration [translit_ref]. *)
Theorem translit_spec s from to :
  nonff s -> nonff from -> nonff to -> translit s from to = Some (translit_ref s from to).
Proof. exact (translit_ref_ok s from to). Qed.

Lemma is_prefix_spec p s : is_prefix p s = true <-> p `prefix_of` s.
Proof.
  revert s. induction p as [|c p IH]; intros [|d s]; simpl.
  - split; [intros _; apply prefix_nil|done].
  - split; [intros _; apply prefix_nil|done].
  - split; [done|intros H; by apply prefix_nil_not in H].
  - rewrite andb_true_iff, Z.eqb_eq, IH. split.
    + intros [-> H]. by apply prefix_cons.
    + intros H. apply prefix_cons_inv_1 in H as Hc. subst d. split; [done|].
      by apply prefix_cons_inv_2 in H.
Qed.

(** [strstr_go] from offset [i] finds the first offset at which [n] occurs. *)
Lemma strstr_go_spec h n i :
  match strstr_go h n i with
  | Some k => (i <= k)%nat /\ n `prefix_of` drop (k - i) h /\
              forall j, (j < k - i)%nat -> ~ n `prefix_of` drop j h
  | None => forall j, (j <= length h)%nat -> ~ n `prefix_of` drop j h
  end.
Proof.
  revert i. induction h as [|c h IH]; intros i.
  - change (strstr_go [] n i) with (if is_prefix n [] then Some i else None).
    destruct (is_prefix n []) eqn:E.
    + rewrite Nat.sub_diag. split_and!; [lia|by apply is_prefix_spec|lia].
    + intros j _. rewrite drop_nil, <- is_prefix_spec, E. done.
  - change (strstr_go (c :: h) n i) with (if is_prefix n (c :: h) then Some i else strstr_go h n (S i)).
    destruct (is_prefix n (c :: h)) eqn:E.
    + rewrite Nat.sub_diag. split_and!; [lia|by apply is_prefix_spec|lia].
    + specialize (IH (S i)). destruct (strstr_go h n (S i)) as [k|].
      * destruct IH as (Hk & Hp & Hmin). split_and!; [lia| |].
        -- by replace (k - i)%nat with (S (k - S i)) by lia; cbn [drop].
        -- intros [|j] Hj; cbn [drop]; [by rewrite <- is_prefix_spec, E|]. apply Hmin. lia.
      * intros [|j] Hj; cbn [drop]; [by rewrite <- is_prefix_spec, E|]. apply IH. simpl in Hj. lia.
Qed.

Lemma is_name_cstr s s' n : cstr s = cstr s' -> is_name s n = is_name s' n.
Proof. intros H. unfold is_name, streq. by rewrite H. Qed.

Lemma ARG_cstr m n : cstr (ARG m n) = ARG m n.
Proof. unfold ARG. destruct (arg_buf m !! n) as [[b|]|]; [apply cstr_idem|done|done]. Qed.

(** ** [index] *)

Section Index.
Context {T : Type} `{!MacroTable T}.
Variable files : bytes -> option bytes.

(** C20: The [index] built-in (lines 994-1001) pushes back the offset,
    counted from 0, of the first occurrence of its second argument in its
    first, and [-1] when there is none. *)
Theorem index_first_offset (m : mcall) :
  is_name (mc_name m) "index" = true ->
  PROCESS_BI_WITH_ARGS files m =
    unget_str (match strstr (ARG m 1) (ARG m 2) with
               | None => Num.minus_one
               | Some i => Num.print_lu (Z.of_nat i)
               end) /\
  match strstr (ARG m 1) (ARG m 2) with
  | Some i => ARG m 2 `prefix_of` drop i (ARG m 1) /\
              forall j, (j < i)%nat -> ~ ARG m 2 `prefix_of` drop j (ARG m 1)
  | None => forall j, (j <= length (ARG m 1))%nat -> ~ ARG m 2 `prefix_of` drop j (ARG m 1)
  end.
Proof.
  intros H. split.
  - unfold PROCESS_BI_WITH_ARGS. cbv zeta.
    assert (Hc : cstr (mc_name m) = cstr (bs "index")) by (unfold is_name, streq in H; by apply bool_decide_eq_true in H).
    rewrite !(fun n => is_name_cstr _ _ n Hc). reflexivity.
  - pose proof (strstr_go_spec (cstr (ARG m 1)) (cstr (ARG m 2)) 0) as Hs.
    unfold strstr. rewrite !ARG_cstr in *.
    destruct (strstr_go _ _ 0) as [k|]; [|done]. rewrite Nat.sub_0_r in Hs. by destruct Hs as (_ & ? & ?).
Qed.
End Index.

(** ** Witnesses *)

Lemma translit_spec_witness :
  translit (bs "bananas") (bs "abcs") (bs "xyz") = Some (translit_ref (bs "bananas") (bs "abcs") (bs "xyz")).
Proof. apply translit_spec; decide_by_eval. Defined.

(** The frame of [index(elephant, ha)]. *)
Definition index_call : mcall :=
  mk_mcall (bs "index") None 1 2 [None; Some (bs "elephant"); Some (bs "ha")].

Lemma index_first_offset_witness :
  PROCESS_BI_WITH_ARGS (T:=SymTab.table) (fun _ => None) index_call
    = unget_str (T:=SymTab.table) (Num.print_lu 4) /\
  (ARG index_call 2 `prefix_of` drop 4 (ARG index_call 1)).
Proof.
  destruct (index_first_offset (T:=SymTab.table) (fun _ => None) index_call) as [H1 H2];
    [reflexivity|].
  change (strstr (ARG index_call 1) (ARG index_call 2)) with (Some 4%nat) in H1, H2.
  split; [exact H1|exact (proj1 H2)].
Defined.

End Builtins.
