(* ===== verification/Engine.v ===== *)
(** * The macro engine: the main loop of [main]

    [step] is one iteration of the [while (1)] loop (lines 1206-1308):
    flush diversion 0 to [stdout], read a token, and dispatch on it as the
    chain of [if]s does: quotes, pass-through inside quotes, a macro name
    (a call with arguments pushes a frame, a call without runs the built-in
    or pushes back the stripped body), the end of an argument list (run the
    built-in or push back the substituted body, pop the frame), an argument
    comma, nested brackets, and any other token.  [end_of_input] is the code
    after the label [end_of_input] (lines 1310-1318); [run] iterates [step]
    with fuel; [init] is the set-up of [main] (lines 726-819). *)

From Stdlib Require Import ZArith Lia List String.
From stdpp Require Import base list.
From S2P Require Import Prelude Bytes Num SymTab Input Token Subst State Builtins.

Local Open Scope Z_scope.

Module Engine.
Import State Builtins.

Section WithTable.
Context {T : Type} `{!MacroTable T}.
Variable files : bytes -> option bytes.

(** [ARG_END], [ARG_COMMA], [NESTED_CB] and [NESTED_OB] (lines 828-836)
    for the token [TS] and the stack. *)
Definition ARG_END (stk : list mcall) (TS : bytes) : bool :=
  match stk with m :: _ => (bracket_depth m =? 1) && streq TS (bs ")") | [] => false end.
Definition ARG_COMMA (stk : list mcall) (TS : bytes) : bool :=
  match stk with m :: _ => (bracket_depth m =? 1) && streq TS (bs ",") | [] => false end.
Definition NESTED_CB (stk : list mcall) (TS : bytes) : bool :=
  match stk with m :: _ => (1 <? bracket_depth m) && streq TS (bs ")") | [] => false end.
Definition NESTED_OB (stk : list mcall) (TS : bytes) : bool :=
  match stk with _ :: _ => streq TS (bs "(") | [] => false end.

(** [delete_stack_head] (lines 555-563), whose [free_mcall] can read past
    the argument buffers. *)
Definition delete_stack_head : M (state T) unit :=
  st ← get;
  match stack st with
  | [] => mret ()
  | m :: r =>
      match free_mcall m with
      | None => undefined
      | Some _ => put (set_stack st r)
      end
  end.

(** [REMOVE_SH] (lines 866-869). *)
Definition REMOVE_SH : M (state T) unit := delete_stack_head;; SET_OUTPUT.

(** The expansion of the finished call [m] on top of the stack (lines
    1268-1283): a built-in runs on its NUL-terminated arguments, a user
    macro's body with its arguments substituted is pushed back. *)
Definition expand_call (m : mcall) : M (state T) unit :=
  match mc_def m with
  | None =>
      match terminate_args m with
      | None => undefined
      | Some m' => modify_top (fun _ => m');; PROCESS_BI_WITH_ARGS files m'
      end
  | Some def =>
      match Subst.sub_args def (arg_buf m) with
      | None => quit
      | Some r => unget_str r
      end
  end.

(** The end of an argument list (lines 1265-1285). *)
Definition end_call : M (state T) unit :=
  modify_top (fun m => set_bracket_depth m (bracket_depth m - 1));;
  st ← get;
  match stack st with
  | [] => mret ()
  | m :: _ => expand_call m
  end;;
  REMOVE_SH.

(** An argument comma (lines 1286-1294). *)
Definition arg_comma : M (state T) unit :=
  st ← get;
  match stack st with
  | [] => mret ()
  | m :: _ =>
      if Nat.eqb (act_arg m) 9 then EQUIT "Macro call has too many arguments"
      else
        modify_top (fun m => mk_mcall (mc_name m) (mc_def m) (bracket_depth m) (S (act_arg m))
                                      (<[S (act_arg m) := Some []]> (arg_buf m)));;
        SET_OUTPUT;;
        EAT_WS
  end.

(** A name found in the table (lines 1226-1264). *)
Definition macro_token (TS : bytes) (d : option bytes) : M (state T) unit :=
  NTS ← READ_TOKEN;
  if streq NTS (bs "(") then
    modify (fun st => set_stack st (new_mcall (cstr TS) (cstr <$> d) :: stack st));;
    SET_OUTPUT;;
    EAT_WS
  else
    unget_str NTS;;
    match d with
    | None => PROCESS_BI_NO_ARGS TS
    | Some def => unget_str (Subst.strip_def def)
    end.

(** One iteration of the main loop. *)
Definition step : M (state T) unit :=
  OUT_DIV 0;;
  tok ← READ_TOKEN;
  st ← get;
  let TS := cstr tok in
  if bool_decide (TS = [left_quote st]) then
    (if quote_depth st =? 0 then mret () else put_str TS);;
    modify (fun st => set_quote st true (wrap64 (quote_depth st + 1)))
  else if bool_decide (TS = [right_quote st]) then
    (if 1 <? quote_depth st then put_str TS else mret ());;
    modify (fun st =>
      let d := wrap64 (quote_depth st - 1) in
      set_quote st (if d =? 0 then false else quote_on st) d)
  else if quote_on st then put_str TS
  else match ISMACRO (ht st) TS with
  | Some d => macro_token TS d
  | None =>
      if ARG_END (stack st) TS then end_call
      else if ARG_COMMA (stack st) TS then arg_comma
      else if NESTED_CB (stack st) TS then
        put_str TS;; modify_top (fun m => set_bracket_depth m (bracket_depth m - 1))
      else if NESTED_OB (stack st) TS then
        put_str TS;; modify_top (fun m => set_bracket_depth m (bracket_depth m + 1))
      else put_str TS
  end.

(** The checks and the flush after [end_of_input] (lines 1312-1318). *)
Definition end_of_input : M (state T) unit :=
  st ← get;
  if bool_decide (stack st <> []) then EQUIT "Input finished without unwinding the stack"
  else if quote_on st then EQUIT "Input finished without exiting quotes"
  else UNDIVERT_ALL.

(** How a run of the program ends: its exit status and final state, or
    undefined behaviour. *)
Inductive final := Exit (code : Z) (st : state T) | Undefined (st : state T).

(** [free_stack] (lines 565-573) at [clean_up]: [free_mcall] on every
    frame left on the stack. *)
Definition free_stack (stk : list mcall) : bool :=
  forallb (fun m => match free_mcall m with Some _ => true | None => false end) stk.

(** The label [clean_up] (lines 1320-1332), reached with [ret]. *)
Definition clean_up (code : Z) (st : state T) : final :=
  if free_stack (stack st) then Exit code st else Undefined st.

Definition finish (st : state T) : final :=
  match end_of_input st with
  | Done _ st' => clean_up 0 st'
  | Eoi st' | Quit st' => clean_up 1 st'
  | Ub st' => Undefined st'
  end.

Fixpoint run (fuel : nat) (st : state T) : option final :=
  match fuel with
  | O => None
  | S f =>
      match step st with
      | Done _ st' => run f st'
      | Eoi st' => Some (finish st')
      | Quit st' => Some (clean_up 1 st')
      | Ub st' => Some (Undefined st')
      end
  end.

(** The names [main] enters as built-ins (lines 748-801), with
    [ESYSCMD_MAKETEMP] at 0. *)
Definition builtin_names : list string :=
  ["define"; "undefine"; "changequote"; "divert"; "dumpdef"; "errprint"; "ifdef"; "ifelse";
   "include"; "len"; "index"; "translit"; "substr"; "dnl"; "divnum"; "undivert"; "incr";
   "htdist"; "dirsep"; "add"; "mult"; "sub"; "div"; "mod"]%string.

Definition init_table : T :=
  fold_left (fun t n => mt_upsert t (bs n) None) builtin_names mt_empty.

(** The command-line files pushed right to left onto the input so that the
    first file's first byte is read first (lines 803-819); [None] when one
    of them is not a regular file. *)
Definition load_files (args : list bytes) : option bytes :=
  if forallb (fun a => match files (cstr a) with Some _ => true | None => false end) args
  then fold_right (fun a acc => inp ← acc; Input.include files inp a) (Some []) args
  else None.

Definition init_state (inp : bytes) (sin : bytes) (rs : bool) : state T :=
  mk_state (Input.mk_stream inp sin rs) init_table [] false 0 96 39 0 (replicate 11 []) (SDiv 0) [] [].

(** The states the main loop reaches from its initial state: the
    iterations that go on normally. *)
Inductive reachable (inp sin : bytes) (rs : bool) : state T -> Prop :=
| reach_init : reachable inp sin rs (init_state inp sin rs)
| reach_step st st' : reachable inp sin rs st -> step st = Done () st' -> reachable inp sin rs st'.

(** [m4 file...] with [stdin], run for at most [fuel] iterations. *)
Definition m4 (fuel : nat) (args : list bytes) (sin : bytes) : option final :=
  match args with
  | [] => run fuel (init_state [] sin true)
  | _ =>
      match load_files args with
      | None => Some (Exit 1 (init_state [] sin false))
      | Some inp => run fuel (init_state inp sin false)
      end
  end.

End WithTable.

End Engine.
