(* ===== verification/Invariant.v ===== *)
(** * The invariant of the engine state

    Between two iterations of the main loop of [main], the state satisfies
    [engine_inv]: the active diversion is one of the eleven buffers
    ([act_div <= 10], lines 849-850 index [div[act_div]]), the cached
    [output] pointer is what [SET_OUTPUT] would compute, every frame of the
    call stack has argument buffers 1 to [act_arg] allocated and no other
    ([1 <= act_arg <= 9], so [arg_buf[act_arg]] is always a buffer),
    every frame has [bracket_depth >= 1], [quote_depth] is a [size_t],
    the symbol table satisfies its own invariant, and no argument buffer
    holds the byte [0xFF].  While the built-in of a finished call runs, the
    top frame's depth has already dropped to 0: that intermediate state
    satisfies [mid_inv].

    The proofs are Hoare triples ([Prelude.hoare]) over the engine monad:
    most operations only change what the invariant does not look at, which
    is the guarantee [same_view]; the others have a triple of their own. *)

From Stdlib Require Import ZArith Lia List String.
From stdpp Require Import base list.
From S2P Require Import Prelude Bytes Num SymTab Input Token Subst State Builtins Engine.

Local Open Scope Z_scope.

Module Invariant.
Import State Builtins Engine.

(** ** The shape of a frame *)

(** The argument buffers of a frame holding the arguments [args]: slot 0
    unused, slots 1 to [length args] allocated, the others [NULL]. *)
Definition arg_slots (args : list bytes) : list (option bytes) :=
  None :: (Some <$> args) ++ replicate (9 - length args) None.

Definition frame_ok (m : mcall) : Prop :=
  exists args, arg_buf m = arg_slots args /\ act_arg m = length args /\
    (1 <= length args <= 9)%nat /\ Forall nonff args.

(** What of a frame the invariant and [SET_OUTPUT] look at. *)
Definition frame_dims (m : mcall) : Z * nat := (bracket_depth m, act_arg m).

Lemma alter_replicate_None {A} (f : option A -> option A) n j :
  f None = None -> alter f j (replicate n None) = replicate n None.
Proof.
  intros Hf. revert j. induction n; intros [|?]; f_equal/=; auto.
Qed.

Lemma alter_ge {A} (f : A -> A) (l : list A) i : (length l <= i)%nat -> alter f i l = l.
Proof.
  revert i. induction l; intros [|?] ?; f_equal/=; auto with lia.
Qed.

Lemma alter_cons_S {A} (f : A -> A) x l i : alter f (S i) (x :: l) = x :: alter f i l.
Proof. done. Qed.

Lemma insert_cons_S {A} (y x : A) l i : <[S i := y]> (x :: l) = x :: <[i := y]> l.
Proof. done. Qed.

(** Appending to argument buffer [S i] appends to argument [i] of the list. *)
Lemma arg_slots_alter args b i :
  alter (fmap (fun a => a ++ b)) (S i) (arg_slots args) =
    arg_slots (alter (fun a => a ++ b) i args).
Proof.
  unfold arg_slots. rewrite alter_cons_S. f_equal. rewrite length_alter, alter_app.
  destruct (decide _) as [Hi|Hi]; rewrite length_fmap in Hi.
  - f_equal. symmetry. apply list_fmap_alter. by apply Forall_true.
  - rewrite alter_replicate_None by done. by rewrite alter_ge by lia.
Qed.

(** Allocating argument buffer [act_arg + 1] (line 1292). *)
Lemma arg_slots_insert args :
  (length args < 9)%nat ->
  <[S (length args) := Some []]> (arg_slots args) = arg_slots (args ++ [[]]).
Proof.
  intros Hl. unfold arg_slots. rewrite insert_cons_S. f_equal.
  replace (9 - length args)%nat with (S (8 - length args)) by lia.
  rewrite fmap_app, length_app, <- app_assoc. simpl.
  replace (9 - (length args + 1))%nat with (8 - length args)%nat by lia.
  rewrite <- (length_fmap Some args), <- (Nat.add_0_r (length (Some <$> args))).
  by rewrite insert_app_r.
Qed.

Lemma new_mcall_ok n d : frame_ok (new_mcall n d).
Proof.
  exists [[]]. split; [done|]. split; [done|]. split; [simpl; lia|].
  repeat constructor.
Qed.

Lemma arg_append_ok k b m : nonff b -> frame_ok m -> frame_ok (arg_append k b m).
Proof.
  intros Hb (args & Ha & Hn & Hl & Hf). unfold arg_append. simpl. destruct k as [|i].
  - exists args. by rewrite Ha.
  - exists (alter (fun a => a ++ b) i args). rewrite Ha, arg_slots_alter, length_alter.
    do 3 (split; [done|]). apply Forall_alter; [done|]. intros x _ Hx. by apply nonff_app.
Qed.

(** An argument of a well-formed frame holds no [0xFF]. *)
Lemma ARG_nonff m n : frame_ok m -> nonff (ARG m n).
Proof.
  intros (args & Ha & _ & _ & Hf). unfold ARG. rewrite Ha.
  destruct (arg_slots args !! n) as [[b|]|] eqn:E; [|constructor..].
  apply nonff_cstr. unfold arg_slots in E. destruct n as [|n]; [done|]. simpl in E.
  apply lookup_app_Some in E as [E|[_ E]].
  - apply list_lookup_fmap_Some in E as (x & [= ->] & Hx). eapply Forall_lookup_1; eauto.
  - by apply lookup_replicate in E as [? _].
Qed.

Lemma Forall_map_eq {A B} (f : A -> B) (P : A -> Prop) l l' :
  (forall x y, f x = f y -> P x -> P y) -> map f l = map f l' -> Forall P l -> Forall P l'.
Proof.
  intros HP. revert l'. induction l as [|x l IH]; intros [|y l'] Hm Hl; try done.
  simpl in Hm. injection Hm as Hxy Hm. apply Forall_cons in Hl as [Hx Hl].
  constructor; [by eapply HP | by apply IH].
Qed.

(** ** The invariant of the state *)

Definition depth_ok (m : mcall) : Prop := 1 <= bracket_depth m.

Definition top_ok (stk : list mcall) : Prop :=
  match stk with m :: _ => depth_ok m | [] => True end.

Section WithTable.
Context {T : Type} `{!MacroTable T}.
Implicit Types st : state T.

(** All but the cached output pointer and the depth of the top frame. *)
Definition base_inv st : Prop :=
  (act_div st <= 10)%nat /\ (length (diversion st) = 11)%nat /\
  Forall frame_ok (stack st) /\ Forall depth_ok (tail (stack st)) /\
  size_t_ok (quote_depth st) /\ mt_wf (ht st).

Definition out_ok st : Prop := output st = sink_of (stack st) (act_div st).

Definition mid_inv st : Prop := base_inv st /\ out_ok st.

Definition engine_inv st : Prop := mid_inv st /\ top_ok (stack st).

(** A frame whose every argument slot after slot 0 holds a buffer: a
    call that has collected nine arguments. *)
Definition full_frame (m : mcall) : Prop := Forall is_Some (drop 1 (arg_buf m)).

Definition has_full_frame st : Prop := exists m, m ∈ stack st /\ full_frame m.

(** What [mid_inv] and [engine_inv] look at, but the table and the
    contents of the argument buffers. *)
Definition view st := (act_div st, length (diversion st), output st, quote_depth st,
                       map frame_dims (stack st)).

(** The frame condition of most operations: the view and the table are
    unchanged, and well-formed frames stay well-formed. *)
Definition same_view st st' : Prop :=
  view st' = view st /\ ht st' = ht st /\
  (Forall frame_ok (stack st) -> Forall frame_ok (stack st')).

#[export] Instance same_view_refl : Reflexive same_view.
Proof. intros st. by repeat split. Qed.

#[export] Instance same_view_trans : Transitive same_view.
Proof.
  intros s1 s2 s3 (H1 & H2 & H3) (H4 & H5 & H6). repeat split; [congruence | congruence | auto].
Qed.

Lemma sink_of_dims stk stk' d :
  map frame_dims stk = map frame_dims stk' -> sink_of stk d = sink_of stk' d.
Proof.
  destruct stk as [|m r], stk' as [|m' r']; simpl; intros H; try done.
  injection H as _ Ha Hr.
  apply (f_equal length) in Hr. rewrite !length_map in Hr. congruence.
Qed.

Lemma top_ok_dims stk stk' :
  map frame_dims stk = map frame_dims stk' -> top_ok stk -> top_ok stk'.
Proof.
  destruct stk as [|m r], stk' as [|m' r']; simpl; intros H; try done.
  injection H as Hd _ _. unfold depth_ok. by rewrite Hd.
Qed.

Lemma tail_depth_dims stk stk' :
  map frame_dims stk = map frame_dims stk' ->
  Forall depth_ok (tail stk) -> Forall depth_ok (tail stk').
Proof.
  intros H. apply Forall_map_eq with frame_dims.
  - intros x y [= Hd _]. unfold depth_ok. by rewrite Hd.
  - destruct stk, stk'; simpl in *; congruence.
Qed.

Lemma mid_inv_view st st' : same_view st st' -> mid_inv st -> mid_inv st'.
Proof.
  intros (Hv & Ht & Hf) ((Hd & Hn & Hfr & Htl & Hqd & Hw) & Hout).
  unfold view in Hv. injection Hv as Ha Hl Ho Hq Hm.
  unfold mid_inv, base_inv, out_ok. rewrite Ha, Hl, Ho, Hq, Ht, Hout.
  split; [|apply sink_of_dims; by symmetry].
  split; [done|]. split; [done|]. split; [by apply Hf|]. split; [|done].
  eapply tail_depth_dims; [symmetry|]; done.
Qed.

Lemma engine_inv_view st st' : same_view st st' -> engine_inv st -> engine_inv st'.
Proof.
  intros Hv [Hm Ht]. split; [by eapply mid_inv_view|].
  destruct Hv as (Hv & _). unfold view in Hv. injection Hv as _ _ _ _ Hd.
  by eapply top_ok_dims.
Qed.

End WithTable.

(** Discharge a [same_view] obligation of an update of fields the view
    does not hold. *)
Ltac view_trivial := unfold same_view, view; simpl; rewrite ?length_insert; by repeat split.

(** ** Operations that keep the view *)

Section Views.
Context {T : Type} `{!MacroTable T}.
Implicit Types st : state T.

Lemma update_frame_dims f g stk :
  (forall m, frame_dims (g m) = frame_dims m) ->
  map frame_dims (update_frame f g stk) = map frame_dims stk.
Proof.
  intros Hg. induction stk as [|m r IH]; [done|]. simpl.
  destruct (Nat.eqb _ _); simpl; by rewrite ?Hg, ?IH.
Qed.

Lemma update_frame_ok f g stk :
  (forall m, frame_ok m -> frame_ok (g m)) ->
  Forall frame_ok stk -> Forall frame_ok (update_frame f g stk).
Proof.
  intros Hg. induction stk as [|m r IH]; [done|]. intros [Hm Hr]%Forall_cons. simpl.
  destruct (Nat.eqb _ _); constructor; auto.
Qed.

(** Writing bytes without [0xFF] to the output buffer keeps the view. *)
Lemma write_view st t : nonff t -> same_view st (write st (cstr t)).
Proof.
  intros Ht. unfold write. destruct (output st) as [n|f k]; unfold same_view, view; simpl.
  - by rewrite length_insert.
  - rewrite update_frame_dims by done. repeat split.
    apply update_frame_ok. intros m. apply arg_append_ok. by apply nonff_cstr.
Qed.

Lemma guar_put_str t : nonff t -> guarantee (same_view (T:=T)) (put_str t).
Proof. intros Ht. apply guar_modify. intros st. by apply write_view. Qed.

Lemma guar_OUT_DIV n : guarantee (same_view (T:=T)) (OUT_DIV n).
Proof. apply guar_modify. intros st. view_trivial. Qed.

Lemma guar_dump_div a b : guarantee (same_view (T:=T)) (dump_div a b).
Proof. apply guar_modify. intros st. view_trivial. Qed.

Lemma guar_fold_left {A} (g : M (state T) unit -> A -> M (state T) unit) l c :
  guarantee (same_view (T:=T)) c -> (forall c x, guarantee (same_view (T:=T)) c -> guarantee (same_view (T:=T)) (g c x)) ->
  guarantee (same_view (T:=T)) (fold_left g l c).
Proof. revert c. induction l as [|x l IH]; intros c Hc Hg; simpl; auto. Qed.

Lemma guar_UNDIVERT_ALL : guarantee (same_view (T:=T)) UNDIVERT_ALL.
Proof.
  apply guar_fold_left; [apply guar_ret; apply _|].
  intros c k Hc. apply guar_bind; [apply _..|done|]. intros _. apply guar_OUT_DIV.
Qed.

Lemma guar_READ_TOKEN : guarantee (same_view (T:=T)) READ_TOKEN.
Proof.
  intros s0 t s'. unfold READ_TOKEN. destruct (Token.getword _); intros [=]; subst.
  view_trivial.
Qed.

Lemma guar_unget_str b : guarantee (same_view (T:=T)) (unget_str b).
Proof.
  intros s0 a s'. unfold unget_str. destruct (Input.ungetstr _ _) as [inp []]; intros [=]; subst.
  view_trivial.
Qed.

Lemma guar_modify_err f : guarantee (same_view (T:=T)) (modify (fun st => add_err st (f st))).
Proof. apply guar_modify. intros st. view_trivial. Qed.

Lemma guar_EQUITb {A} msg : guarantee (A:=A) (same_view (T:=T)) (EQUITb msg).
Proof. apply guar_bind; [apply _..|apply guar_modify_err|]. intros _. apply guar_quit. Qed.

Lemma guar_EQUIT {A} msg : guarantee (A:=A) (same_view (T:=T)) (EQUIT msg).
Proof. apply guar_EQUITb. Qed.

End Views.

Create HintDb view.

#[export] Hint Resolve guar_put_str guar_OUT_DIV guar_dump_div guar_UNDIVERT_ALL guar_READ_TOKEN
  guar_unget_str guar_modify_err guar_EQUITb guar_EQUIT : view.

(** Prove a [same_view] guarantee by the rules of the combinators and the
    guarantees of the primitive operations. *)
Ltac guar_step :=
  lazymatch goal with
  | |- guarantee _ (get ≫= _) => apply guar_get; intros ?
  | |- guarantee_at _ _ (put _) => apply guar_at_put; view_trivial
  | |- guarantee_at _ _ (match ?x with _ => _ end) => destruct x
  | |- guarantee_at _ _ _ => apply guar_at
  | |- guarantee _ (_ ≫= _) => apply (guar_bind same_view); [|intros ?]
  | |- guarantee _ (if _ then _ else _) => apply guar_if
  | |- guarantee _ (match ?x with _ => _ end) => destruct x
  | |- guarantee _ (modify _) => apply guar_modify; intros ?; view_trivial
  | |- guarantee _ (mret _) => apply (guar_ret same_view)
  | |- guarantee _ quit => apply guar_quit
  | |- guarantee _ goto_eoi => apply guar_eoi
  | |- guarantee _ undefined => apply guar_undefined
  | |- _ => solve [eauto with view]
  end.

Ltac solve_guar := repeat guar_step.

Section Guarantees.
Context {T : Type} `{!MacroTable T}.

Lemma guar_token_loop {A} again (k : bytes -> M (state T) A) f :
  (forall t, guarantee (same_view (T:=T)) (k t)) -> guarantee (same_view (T:=T)) (token_loop again k f).
Proof. intros Hk. induction f as [|f IH]; simpl; solve_guar. Qed.

Lemma guar_EAT_WS : guarantee (same_view (T:=T)) EAT_WS.
Proof. unfold EAT_WS, run_token_loop. solve_guar. apply guar_token_loop. eauto with view. Qed.

Lemma guar_DNL : guarantee (same_view (T:=T)) DNL.
Proof. unfold DNL, run_token_loop. solve_guar. apply guar_token_loop. intros. solve_guar. Qed.

Lemma guar_DIVNUM : guarantee (same_view (T:=T)) DIVNUM.
Proof. unfold DIVNUM. solve_guar. Qed.

Lemma guar_push_num r : guarantee (same_view (T:=T)) (push_num r).
Proof. destruct r; simpl; solve_guar. Qed.

Lemma guar_bi_substr a1 a2 a3 : guarantee (same_view (T:=T)) (bi_substr a1 a2 a3).
Proof.
  unfold bi_substr. destruct (_ =? 0); [solve_guar|].
  destruct (Num.str_to_num a2), (Num.str_to_num a3); solve_guar.
Qed.

Lemma guar_bi_undivert args : guarantee (same_view (T:=T)) (bi_undivert args).
Proof.
  unfold bi_undivert. solve_guar. apply guar_fold_left; [solve_guar|].
  intros c x Hc. solve_guar.
Qed.

End Guarantees.

#[export] Hint Resolve guar_EAT_WS guar_DNL guar_DIVNUM guar_push_num guar_bi_substr
  guar_bi_undivert : view.

End Invariant.
