(* ===== verification/Safety.v ===== *)
(** * Preservation of the engine invariant and absence of undefined behaviour

    Each operation of the main loop has a Hoare triple for [engine_inv]
    (or [mid_inv] for the built-ins of a finished call); [step_inv]
    composes them into the preservation of [engine_inv] by one iteration of
    the loop.  The same triples give the safety result: from a state
    satisfying the invariant an iteration never reaches the out-of-bounds
    access of [translit], the only undefined behaviour of the model. *)

From Stdlib Require Import ZArith Lia List String.
From stdpp Require Import base list.
From S2P Require Import Prelude Bytes Num SymTab Input Token Subst State Builtins Engine Invariant.

Local Open Scope Z_scope.
Local Open Scope m4_scope.

Module Safety.
Import State Builtins Engine Invariant.

(** ** Pure facts about the stack and the diversions *)

Lemma Forall_depth_top stk :
  Forall depth_ok stk <-> top_ok stk /\ Forall depth_ok (tail stk).
Proof. destruct stk; simpl; [split; [done|constructor] | apply Forall_cons]. Qed.

Lemma divert_target_le a d : divert_target a = Some d -> (d <= 10)%nat.
Proof.
  unfold divert_target, isdigit. intros H. repeat case_match; simplify_eq; bool_to_prop; lia.
Qed.

Ltac inv_unfold := unfold engine_inv, mid_inv, base_inv, out_ok in *; simpl in *.

Section WithTable.
Context {T : Type} `{!MacroTable T}.
Implicit Types st : state T.

Lemma engine_inv_set_quote st b d :
  engine_inv st -> size_t_ok d -> engine_inv (set_quote st b d).
Proof. inv_unfold. tauto. Qed.

Lemma base_inv_map_top st g :
  base_inv st -> (forall m r, stack st = m :: r -> frame_ok m -> frame_ok (g m)) ->
  base_inv (set_stack st (map_top g (stack st))).
Proof.
  intros (? & ? & Hf & Ht & ? & ?) Hg. unfold base_inv, map_top. simpl.
  destruct (stack st) as [|m r]; [tauto|].
  apply Forall_cons in Hf as [Hm Hr]. split_and!; try done. constructor; eauto.
Qed.

Lemma out_ok_map_top st g :
  out_ok st -> (forall m r, stack st = m :: r -> act_arg (g m) = act_arg m) ->
  out_ok (set_stack st (map_top g (stack st))).
Proof.
  unfold out_ok, map_top. simpl. intros Ho Hg.
  destruct (stack st) as [|m r]; simpl in *; [done|]. by rewrite (Hg m r).
Qed.

Lemma base_inv_push st n d :
  base_inv st -> top_ok (stack st) -> base_inv (set_stack st (new_mcall n d :: stack st)).
Proof.
  intros (? & ? & Hf & Ht & ? & ?) Htop. unfold base_inv; simpl. split_and!; try done.
  - constructor; [apply new_mcall_ok | done].
  - by apply Forall_depth_top.
Qed.

Lemma pop_inv st :
  base_inv st -> base_inv (set_stack st (tail (stack st))) /\ top_ok (tail (stack st)).
Proof.
  intros (? & ? & Hf & Ht & ? & ?). apply Forall_depth_top in Ht as [Ht1 Ht2].
  unfold base_inv; simpl. split_and!; try done. by apply Forall_tail.
Qed.

Lemma base_inv_set_act_div st d :
  base_inv st -> (d <= 10)%nat -> base_inv (set_act_div st d).
Proof. inv_unfold. tauto. Qed.

(** The top frame after an operation that keeps the view has the depth
    it had before. *)
Lemma same_view_top (s0 s : state T) m r :
  same_view s0 s -> stack s0 = m :: r ->
  exists m' r', stack s = m' :: r' /\ bracket_depth m' = bracket_depth m.
Proof.
  intros (Hv & _ & _) Hs. unfold view in Hv. injection Hv as _ _ _ _ Hd.
  rewrite Hs in Hd. destruct (stack s) as [|m' r']; simpl in Hd; [discriminate|].
  unfold frame_dims in Hd. injection Hd as Hd _ _. by exists m', r'.
Qed.

Lemma engine_inv_map_top st g :
  engine_inv st -> (forall m, frame_ok m -> frame_ok (g m)) ->
  (forall m, act_arg (g m) = act_arg m) ->
  (forall m r, stack st = m :: r -> depth_ok (g m)) ->
  engine_inv (set_stack st (map_top g (stack st))).
Proof.
  intros [[Hb Ho] Ht] Hf Ha Hd. split; [split|].
  - apply base_inv_map_top; auto.
  - apply out_ok_map_top; auto.
  - unfold map_top. simpl. destruct (stack st); [done|]. by eapply Hd.
Qed.

Lemma frame_ok_next_arg m :
  frame_ok m -> act_arg m <> 9%nat ->
  frame_ok (mk_mcall (mc_name m) (mc_def m) (bracket_depth m) (S (act_arg m))
                     (<[S (act_arg m) := Some []]> (arg_buf m))).
Proof.
  intros (args & Ha & Hn & Hl & Hf) H9. exists (args ++ [[]]). simpl.
  rewrite Ha, Hn, arg_slots_insert by lia. rewrite length_app. simpl.
  split_and!; try done; try lia. apply Forall_app_2; [done | repeat constructor].
Qed.

(** The loops of [free_mcall] and [terminate_args] on the buffers of a
    well-formed frame: they read past the array exactly when the frame
    holds nine arguments. *)
Lemma free_bufs_from_slots j args k :
  (1 <= j)%nat -> (j + length args + k = 10)%nat ->
  free_bufs_from j ((Some <$> args) ++ replicate k None) = if Nat.eqb k 0 then None else Some ().
Proof.
  revert j. induction args as [|b args IH]; intros j Hj Hl; simpl in *; [by destruct k|].
  rewrite (proj2 (Nat.ltb_lt j 10)) by lia. apply IH; lia.
Qed.

Lemma terminate_from_slots j args k :
  (1 <= j)%nat -> (j + length args + k = 10)%nat ->
  terminate_from j ((Some <$> args) ++ replicate k None) =
    if Nat.eqb k 0 then None
    else Some ((Some <$> map (fun b => b ++ [0]) args) ++ replicate k None).
Proof.
  revert j. induction args as [|b args IH]; intros j Hj Hl; simpl in *; [by destruct k|].
  rewrite (proj2 (Nat.ltb_lt j 10)) by lia. rewrite IH by lia. by destruct (Nat.eqb k 0).
Qed.

Lemma free_mcall_nine m : frame_ok m -> free_mcall m = None <-> act_arg m = 9%nat.
Proof.
  intros (args & Ha & Hn & Hl & _). unfold free_mcall. rewrite Ha. unfold arg_slots.
  change (drop 1 (None :: ?l)) with l. rewrite free_bufs_from_slots by lia. destruct (Nat.eqb_spec (9 - length args) 0); split;
    intros; try discriminate; try done; lia.
Qed.

Lemma terminate_args_ok m :
  frame_ok m ->
  match terminate_args m with
  | None => act_arg m = 9%nat
  | Some m' => frame_ok m' /\ act_arg m' = act_arg m
  end.
Proof.
  intros (args & Ha & Hn & Hl & Hf). unfold terminate_args. rewrite Ha. unfold arg_slots.
  change (drop 1 (None :: ?l)) with l. rewrite terminate_from_slots by lia. destruct (Nat.eqb_spec (9 - length args) 0); simpl; [lia|].
  split; [|done]. exists (map (fun b => b ++ [0]) args). unfold arg_slots. rewrite length_map.
  split_and!; try done; try lia. apply Forall_map, (Forall_impl _ _ _ Hf).
  intros b Hb. apply nonff_app; [done | constructor; [lia | constructor]].
Qed.

(** Both loops read past the array only when every slot after 0 holds a
    buffer. *)
Lemma free_bufs_from_full j l : free_bufs_from j l = None -> Forall is_Some l.
Proof.
  revert j. induction l as [|[b|] l IH]; intros j; simpl; [constructor| |discriminate].
  destruct (j <? 10)%nat; [|discriminate]. intros H. constructor; [by eexists | by eapply IH].
Qed.

Lemma terminate_from_full j l : terminate_from j l = None -> Forall is_Some l.
Proof.
  revert j. induction l as [|[b|] l IH]; intros j; simpl; [constructor| |discriminate].
  destruct (j <? 10)%nat; [|discriminate].
  destruct (terminate_from (S j) l) eqn:E; [discriminate|]. intros _.
  constructor; [by eexists | by eapply IH].
Qed.

(** ** Triples of the operations of the main loop *)

Lemma hoare_view {A} (P : state T -> Prop) (c : M (state T) A) :
  (forall s s', same_view s s' -> P s -> P s') -> guarantee (same_view (T:=T)) c ->
  {{ P }} c {{ fun _ => P }}.
Proof. intros HP Hc s a s' Hs Hr. eapply HP; [by eapply Hc | done]. Qed.

Lemma hoare_READ_TOKEN (P : state T -> Prop) :
  (forall s s', same_view s s' -> P s -> P s') ->
  {{ P }} READ_TOKEN {{ fun t s => P s /\ nonff t }}.
Proof.
  intros HP s t s' Hs Hr. split; [eapply HP; [eapply guar_READ_TOKEN; exact Hr | done]|].
  unfold READ_TOKEN in Hr. destruct (Token.getword _) eqn:Hg; inversion Hr; subst.
  by eapply Token.getword_nonff.
Qed.

Lemma hoare_SET_OUTPUT (Q : list mcall -> Prop) :
  {{ fun s => base_inv s /\ Q (stack s) }} SET_OUTPUT (T:=T) {{ fun _ s => mid_inv s /\ Q (stack s) }}.
Proof. apply hoare_modify. intros s [Hb HQ]. inv_unfold. tauto. Qed.

Lemma hoare_delete_stack_head :
  {{ mid_inv }} delete_stack_head (T:=T) {{ fun _ s => base_inv s /\ top_ok (stack s) }}.
Proof.
  unfold delete_stack_head. apply hoare_get_bind. intros s0.
  destruct (stack s0) as [|m r] eqn:Hs.
  - apply hoare_ret. intros s [[Hb _] ->]. rewrite Hs. by split.
  - destruct (free_mcall m); [|apply hoare_undefined].
    apply hoare_put. intros s [[Hb _] ->]. pose proof (pop_inv s0 Hb) as H. by rewrite Hs in H.
Qed.

Lemma hoare_REMOVE_SH : {{ mid_inv }} REMOVE_SH (T:=T) {{ fun _ => engine_inv }}.
Proof.
  unfold REMOVE_SH. eapply hoare_bind; [apply hoare_delete_stack_head|].
  intros []. apply hoare_SET_OUTPUT.
Qed.

(** Replacing the top frame by a well-formed frame with as many arguments. *)
Lemma hoare_set_top m m' :
  frame_ok m' -> act_arg m' = act_arg m ->
  {{ fun s => mid_inv s /\ exists r, stack s = m :: r }} modify_top (T:=T) (fun _ => m')
  {{ fun _ => mid_inv }}.
Proof.
  intros Hm' Ha. apply hoare_modify. intros s [[Hb Ho] [r Hs]]. split.
  - by apply base_inv_map_top.
  - apply out_ok_map_top; [done|]. intros m1 r1 Hs1. rewrite Hs in Hs1. by injection Hs1 as -> ->.
Qed.

Lemma hoare_set_act_div_out d (Q : list mcall -> Prop) :
  (d <= 10)%nat ->
  {{ fun s => base_inv s /\ Q (stack s) }}
    (modify (fun st : state T => set_act_div st d);; SET_OUTPUT)
  {{ fun _ s => mid_inv s /\ Q (stack s) }}.
Proof.
  intros Hd. apply (hoare_bind _ (fun _ s => base_inv s /\ Q (stack s)));
    [|intros []; apply hoare_SET_OUTPUT].
  apply hoare_modify. intros s [Hb HQ]. split; [by apply base_inv_set_act_div | done].
Qed.

Context `{!MacroTableLaws T}.

(** The built-ins run on a state where the top frame's depth is 0. *)
Lemma hoare_PROCESS_BI_WITH_ARGS files m :
  {{ mid_inv }} PROCESS_BI_WITH_ARGS files m {{ fun _ => mid_inv }}.
Proof.
  unfold PROCESS_BI_WITH_ARGS. repeat (apply hoare_if; intros ?).
  all: try solve [apply hoare_view; [apply mid_inv_view | solve_guar]].
  - (* define *)
    apply hoare_modify. intros s Hs. inv_unfold. split_and!; try tauto. apply mt_upsert_wf; tauto.
  - (* undefine *)
    apply hoare_get_bind. intros s0. destruct (mt_delete _ _) as [t|] eqn:E; [|apply hoare_quit].
    apply hoare_put. intros s [Hs ->]. inv_unfold. split_and!; try tauto. eapply mt_delete_wf; [|exact E]; tauto.
  - (* divert *)
    destruct (divert_target _) as [d|] eqn:E; [|apply hoare_view; [apply mid_inv_view | solve_guar]].
    eapply hoare_conseq; [apply (hoare_set_act_div_out d (fun _ => True)) | |].
    + by eapply divert_target_le.
    + intros s [Hb _]. by split.
    + by intros _ s' [? _].
Qed.

(** [PROCESS_BI_NO_ARGS] for a token read from the input. *)
Lemma hoare_PROCESS_BI_NO_ARGS TS :
  nonff TS -> {{ engine_inv }} PROCESS_BI_NO_ARGS (T:=T) TS {{ fun _ => engine_inv }}.
Proof.
  intros HTS. unfold PROCESS_BI_NO_ARGS. repeat (apply hoare_if; intros ?).
  all: try solve [apply hoare_view; [apply engine_inv_view | solve_guar]].
  eapply hoare_conseq; [apply (hoare_set_act_div_out 0 top_ok); lia | |].
  - intros s [[Hb _] Ht]. by split.
  - done.
Qed.

Ltac by_view :=
  apply hoare_view; [first [apply engine_inv_view | apply mid_inv_view] | solve_guar].

(** Closing the bracket of the call on top: its depth drops to 0. *)
Lemma hoare_close_top :
  {{ engine_inv }}
    modify_top (T:=T) (fun m => set_bracket_depth m (bracket_depth m - 1))
  {{ fun _ => mid_inv }}.
Proof.
  apply hoare_modify. intros s [[Hb Ho] _]. split.
  - apply base_inv_map_top; [done|]. intros m r _ Hm. exact Hm.
  - by apply out_ok_map_top.
Qed.

(** The end of an argument list. *)
(** The expansion of a finished call. *)
Lemma hoare_expand_call files m :
  frame_ok m ->
  {{ fun s => mid_inv s /\ exists r, stack s = m :: r }} expand_call (T:=T) files m {{ fun _ => mid_inv }}.
Proof.
  intros Hm. unfold expand_call. destruct (mc_def m) as [def|].
  - apply (hoare_weaken _ mid_inv); [by_view | tauto].
  - pose proof (terminate_args_ok m Hm) as Ht.
    destruct (terminate_args m) as [m'|]; [|apply hoare_undefined]. destruct Ht as [Hm' Ha].
    apply (hoare_bind _ (fun _ => mid_inv)); [by apply hoare_set_top|].
    intros []. apply hoare_PROCESS_BI_WITH_ARGS.
Qed.

Lemma hoare_expand_top files s0 :
  mid_inv s0 ->
  {{ fun s => mid_inv s /\ s = s0 }}
    match stack s0 with [] => mret () | m :: _ => expand_call (T:=T) files m end
  {{ fun _ => mid_inv }}.
Proof.
  intros [(_ & _ & Hf & _) _]. destruct (stack s0) as [|m r] eqn:Hs; [apply hoare_ret; tauto|].
  apply Forall_cons in Hf as [Hm _]. eapply hoare_weaken; [by apply hoare_expand_call|].
  intros s [H ->]. split; [done | by exists r].
Qed.

(** The end of an argument list. *)
Lemma hoare_end_call files : {{ engine_inv }} end_call files {{ fun _ => engine_inv }}.
Proof.
  unfold end_call. apply (hoare_bind _ (fun _ => mid_inv)); [apply hoare_close_top|].
  intros []. apply hoare_get_bind. intros s0. apply hoare_know. intros H0.
  apply (hoare_bind _ (fun _ => mid_inv)); [by apply hoare_expand_top|].
  intros []. apply hoare_REMOVE_SH.
Qed.

(** An argument comma. *)
Lemma hoare_arg_comma : {{ engine_inv }} arg_comma (T:=T) {{ fun _ => engine_inv }}.
Proof.
  unfold arg_comma. apply hoare_get_bind. intros s0.
  destruct (stack s0) as [|m r] eqn:Hs; [by apply hoare_ret; intros s [Hi _]|].
  apply hoare_if; intros H9.
  - apply (hoare_weaken _ engine_inv); [by_view | tauto].
  - apply (hoare_bind _ (fun _ s => base_inv s /\ top_ok (stack s))).
    { apply hoare_modify. intros s [[[Hb _] Ht] ->]. split.
      - apply base_inv_map_top; [done|]. intros m' r' Hs' Hm. rewrite Hs in Hs'.
        injection Hs' as -> ->. apply frame_ok_next_arg; [done|]. by apply Nat.eqb_neq.
      - unfold map_top. rewrite Hs. rewrite Hs in Ht. exact Ht. }
    intros []. apply (hoare_bind _ (fun _ s => mid_inv s /\ top_ok (stack s)));
      [apply hoare_SET_OUTPUT | intros []; by_view].
Qed.

(** A macro name read from the input. *)
Lemma hoare_macro_token TS d :
  nonff TS -> {{ engine_inv }} macro_token (T:=T) TS d {{ fun _ => engine_inv }}.
Proof.
  intros HTS. unfold macro_token.
  apply (hoare_bind _ (fun _ => engine_inv)).
  { eapply hoare_conseq; [apply (hoare_READ_TOKEN engine_inv), engine_inv_view | done | by intros ? ? [? _]]. }
  intros NTS. apply hoare_if; intros _.
  - apply (hoare_bind _ (fun _ s => base_inv s /\ top_ok (stack s))).
    { apply hoare_modify. intros s [[Hb _] Ht]. split; [by apply base_inv_push|].
      simpl. unfold depth_ok. simpl. lia. }
    intros []. apply (hoare_bind _ (fun _ s => mid_inv s /\ top_ok (stack s)));
      [apply hoare_SET_OUTPUT | intros []; by_view].
  - apply (hoare_bind _ (fun _ => engine_inv)); [by_view|]. intros [].
    destruct d; [by_view | by apply hoare_PROCESS_BI_NO_ARGS].
Qed.

(** The statement of [step_inv], for the proofs that build on it. *)
Lemma step_engine_inv files : {{ engine_inv }} step (T:=T) files {{ fun _ => engine_inv }}.
Proof.
  unfold step. apply (hoare_bind _ (fun _ => engine_inv)); [by_view|]. intros [].
  apply (hoare_bind _ (fun t s => engine_inv s /\ nonff t));
    [apply hoare_READ_TOKEN, engine_inv_view|]. intros tok.
  apply hoare_get_bind. intros s0. apply hoare_know. intros [Hi Ht].
  assert (nonff (cstr tok)) as HTS by by apply nonff_cstr.
  apply (hoare_weaken _ (fun s => engine_inv s /\ s = s0)); [|intros s [[? _] ->]; done].
  apply hoare_if; intros _.
  { apply (hoare_bind _ (fun _ => engine_inv)); [apply (hoare_weaken _ engine_inv); [by_view | tauto]|].
    intros []. apply hoare_modify. intros s Hs. apply engine_inv_set_quote; [done | apply wrap64_range]. }
  apply hoare_if; intros _.
  { apply (hoare_bind _ (fun _ => engine_inv)); [apply (hoare_weaken _ engine_inv); [by_view | tauto]|].
    intros []. apply hoare_modify. intros s Hs. apply engine_inv_set_quote; [done | apply wrap64_range]. }
  apply hoare_if; intros _; [apply (hoare_weaken _ engine_inv); [by_view | tauto]|].
  destruct (ISMACRO _ _) as [d|].
  { apply (hoare_weaken _ engine_inv); [by apply hoare_macro_token | tauto]. }
  apply hoare_if; intros _; [apply (hoare_weaken _ engine_inv); [apply hoare_end_call | tauto]|].
  apply hoare_if; intros _; [apply (hoare_weaken _ engine_inv); [apply hoare_arg_comma | tauto]|].
  apply hoare_if; intros HCB.
  { unfold NESTED_CB in HCB. destruct (stack s0) as [|m r] eqn:Hs0; [done|]. bool_to_prop.
    apply (hoare_bind _ (fun _ s => engine_inv s /\ same_view s0 s)).
    { eapply hoare_weaken; [apply hoare_guarantee; [apply _ | intros; by eapply engine_inv_view | solve_guar]|].
      intros s [Hs ->]. split; [done | reflexivity]. }
    intros []. apply hoare_modify. intros s [Hs Hv].
    destruct (same_view_top _ _ _ _ Hv Hs0) as (m' & r' & Hs' & Hd).
    apply engine_inv_map_top; try done. intros m1 r1 Hs1. rewrite Hs' in Hs1.
    injection Hs1 as -> ->. unfold depth_ok. simpl. lia. }
  apply hoare_if; intros _; [|apply (hoare_weaken _ engine_inv); [by_view | tauto]].
  apply (hoare_bind _ (fun _ => engine_inv)); [apply (hoare_weaken _ engine_inv); [by_view | tauto]|].
  intros []. apply hoare_modify. intros s Hs. apply engine_inv_map_top; try done.
  intros m r Hsr. destruct Hs as [_ Htop]. rewrite Hsr in Htop. simpl in Htop.
  unfold depth_ok in *. simpl. lia.
Qed.

(** C2: One iteration of the main loop preserves the invariant. *)
Theorem step_inv files : {{ engine_inv }} step (T:=T) files {{ fun _ => engine_inv }}.
Proof. exact (step_engine_inv files). Qed.

End WithTable.

(** ** Absence of undefined behaviour *)

Create HintDb noub.

Ltac noub_step :=
  lazymatch goal with
  | |- no_ub (_ ≫= _) => apply no_ub_bind; [|intros ?]
  | |- no_ub (if _ then _ else _) => apply no_ub_if
  | |- no_ub (match ?x with _ => _ end) => destruct x
  | |- no_ub (mret _) => apply no_ub_ret
  | |- no_ub get => apply no_ub_get
  | |- no_ub (put _) => apply no_ub_put
  | |- no_ub (modify _) => apply no_ub_modify
  | |- no_ub quit => apply no_ub_quit
  | |- no_ub goto_eoi => apply no_ub_eoi
  | |- _ => solve [eauto with noub]
  end.

Ltac solve_no_ub := repeat noub_step.

Section NoUb.
Context {T : Type} `{!MacroTable T}.

Lemma no_ub_READ_TOKEN : no_ub (S:=state T) READ_TOKEN.
Proof. intros s s'. unfold READ_TOKEN. by destruct (Token.getword _). Qed.

Lemma no_ub_unget_str b : no_ub (S:=state T) (unget_str b).
Proof. intros s s'. unfold unget_str. by destruct (Input.ungetstr _ _) as [? []]. Qed.

Lemma no_ub_fold_left {A} (g : M (state T) unit -> A -> M (state T) unit) l c :
  no_ub c -> (forall c x, no_ub c -> no_ub (g c x)) -> no_ub (fold_left g l c).
Proof. revert c. induction l as [|x l IH]; intros c Hc Hg; simpl; auto. Qed.

Lemma no_ub_token_loop {A} again (k : bytes -> M (state T) A) f :
  (forall t, no_ub (k t)) -> no_ub (token_loop again k f).
Proof.
  intros Hk. induction f as [|f IH]; simpl; [apply no_ub_eoi|].
  apply no_ub_bind; [apply no_ub_READ_TOKEN | intros t; by apply no_ub_if].
Qed.

Lemma no_ub_put_str b : no_ub (S:=state T) (put_str b).
Proof. apply no_ub_modify. Qed.

Lemma no_ub_OUT_DIV n : no_ub (S:=state T) (OUT_DIV n).
Proof. apply no_ub_modify. Qed.

Lemma no_ub_UNDIVERT_ALL : no_ub (S:=state T) UNDIVERT_ALL.
Proof.
  apply no_ub_fold_left; [apply no_ub_ret|]. intros c x Hc.
  apply no_ub_bind; [done | intros _; apply no_ub_OUT_DIV].
Qed.

End NoUb.

#[export] Hint Resolve no_ub_READ_TOKEN no_ub_unget_str no_ub_put_str no_ub_OUT_DIV
  no_ub_UNDIVERT_ALL : noub.

Section NoUb2.
Context {T : Type} `{!MacroTable T}.

Lemma no_ub_EAT_WS : no_ub (S:=state T) EAT_WS.
Proof. unfold EAT_WS, run_token_loop. solve_no_ub. apply no_ub_token_loop. eauto with noub. Qed.

Lemma no_ub_DNL : no_ub (S:=state T) DNL.
Proof. unfold DNL, run_token_loop. solve_no_ub. apply no_ub_token_loop. intros. solve_no_ub. Qed.

Lemma no_ub_DIVNUM : no_ub (S:=state T) DIVNUM.
Proof. unfold DIVNUM. solve_no_ub. Qed.

Lemma no_ub_SET_OUTPUT : no_ub (S:=state T) SET_OUTPUT.
Proof. apply no_ub_modify. Qed.

Lemma no_ub_EQUITb {A} msg : no_ub (S:=state T) (A:=A) (EQUITb msg).
Proof. unfold EQUITb. solve_no_ub. Qed.

End NoUb2.

#[export] Hint Resolve no_ub_EAT_WS no_ub_DNL no_ub_DIVNUM no_ub_SET_OUTPUT no_ub_EQUITb : noub.
#[export] Hint Extern 1 (no_ub (EQUIT _)) => apply no_ub_EQUITb : noub.

Section NoUb3.
Context {T : Type} `{!MacroTable T}.

(** The built-ins of a call whose arguments hold no [0xFF]: the only
    undefined behaviour, [translit]'s access to [map[255]], cannot happen. *)
Lemma no_ub_PROCESS_BI_WITH_ARGS files m :
  frame_ok m -> no_ub (S:=state T) (PROCESS_BI_WITH_ARGS files m).
Proof.
  intros Hm. unfold PROCESS_BI_WITH_ARGS, push_num, bi_substr, bi_undivert, dump_div.
  rewrite translit_spec by (by apply ARG_nonff). solve_no_ub.
  apply no_ub_fold_left; [apply no_ub_ret|]. intros. solve_no_ub.
Qed.

Lemma no_ub_PROCESS_BI_NO_ARGS TS : no_ub (S:=state T) (PROCESS_BI_NO_ARGS TS).
Proof. unfold PROCESS_BI_NO_ARGS. solve_no_ub. Qed.

Lemma no_ub_macro_token TS d : no_ub (S:=state T) (macro_token TS d).
Proof. unfold macro_token, modify_top. solve_no_ub. apply no_ub_PROCESS_BI_NO_ARGS. Qed.

Lemma no_ub_arg_comma : no_ub (S:=state T) arg_comma.
Proof. unfold arg_comma, modify_top. solve_no_ub. Qed.

End NoUb3.

#[export] Hint Resolve no_ub_macro_token no_ub_arg_comma : noub.
#[export] Hint Extern 1 (no_ub (modify_top _)) => apply no_ub_modify : noub.

Section Main.
Context {T : Type} `{!MacroTable T} `{!MacroTableLaws T}.
Variable files : bytes -> option bytes.

Lemma terminate_args_full m : terminate_args m = None -> full_frame m.
Proof.
  unfold terminate_args. destruct (terminate_from _ _) eqn:E; [discriminate|].
  intros _. by eapply terminate_from_full.
Qed.

Lemma safe_delete_stack_head P : safe P (delete_stack_head (T:=T)) has_full_frame.
Proof.
  unfold delete_stack_head. apply safe_get_bind. intros s0.
  destruct (stack s0) as [|m r] eqn:Hs; [apply no_ub_safe, no_ub_ret|].
  destruct (free_mcall m) eqn:E; [apply no_ub_safe, no_ub_put|].
  apply safe_undefined. intros s [_ ->]. exists m. rewrite Hs.
  split; [apply elem_of_cons; by left | by eapply free_bufs_from_full].
Qed.

Lemma safe_REMOVE_SH : safe mid_inv (REMOVE_SH (T:=T)) has_full_frame.
Proof.
  unfold REMOVE_SH. eapply safe_bind;
    [apply safe_delete_stack_head | apply hoare_delete_stack_head | intros []].
  apply no_ub_safe, no_ub_SET_OUTPUT.
Qed.

Lemma safe_expand_call m :
  frame_ok m ->
  safe (fun s => mid_inv s /\ exists r, stack s = m :: r) (expand_call (T:=T) files m) has_full_frame.
Proof.
  intros Hm. unfold expand_call. destruct (mc_def m) as [def|]; [apply no_ub_safe; solve_no_ub|].
  pose proof (terminate_args_ok m Hm) as Ht. destruct (terminate_args m) as [m'|] eqn:E.
  - destruct Ht as [Hm' Ha]. apply (safe_bind _ (fun _ => mid_inv));
      [apply no_ub_safe, no_ub_modify | by apply hoare_set_top | intros []].
    apply no_ub_safe. by apply no_ub_PROCESS_BI_WITH_ARGS.
  - apply safe_undefined. intros s [_ [r Hs]]. exists m. rewrite Hs.
    split; [apply elem_of_cons; by left | by apply terminate_args_full].
Qed.

Lemma safe_end_call : safe engine_inv (end_call (T:=T) files) has_full_frame.
Proof.
  unfold end_call. apply (safe_bind _ (fun _ => mid_inv));
    [apply no_ub_safe, no_ub_modify | apply hoare_close_top | intros []].
  apply safe_get_bind. intros s0. apply safe_know. intros H0.
  apply (safe_bind _ (fun _ => mid_inv)); [|by apply hoare_expand_top | intros []; apply safe_REMOVE_SH].
  destruct H0 as [(_ & _ & Hf & _) _].
  destruct (stack s0) as [|m r] eqn:Hs; [apply no_ub_safe, no_ub_ret|].
  apply Forall_cons in Hf as [Hm _]. eapply safe_weaken; [by apply safe_expand_call | | done].
  intros s [H ->]. split; [done | by exists r].
Qed.

(** The statement of [step_safe], for the proofs that build on it. *)
Lemma step_safe_full : safe engine_inv (step (T:=T) files) has_full_frame.
Proof.
  unfold step. apply (safe_bind _ (fun _ => engine_inv));
    [apply no_ub_safe, no_ub_OUT_DIV | apply hoare_view; [apply engine_inv_view | solve_guar] | intros []].
  apply (safe_bind _ (fun t s => engine_inv s /\ nonff t));
    [apply no_ub_safe, no_ub_READ_TOKEN | apply hoare_READ_TOKEN, engine_inv_view | intros tok].
  apply safe_get_bind. intros s0.
  do 3 (apply safe_if; intros _; [apply no_ub_safe; solve_no_ub|]).
  destruct (ISMACRO _ _); [apply no_ub_safe; solve_no_ub|].
  apply safe_if; intros _; [|apply no_ub_safe; solve_no_ub].
  eapply safe_weaken; [apply safe_end_call | tauto | done].
Qed.

(** C3: From a state satisfying the invariant, an iteration of the main loop
    reaches undefined behaviour only when a frame of the stack holds nine
    arguments ([free_mcall] or [terminate_args] then reads [arg_buf[10]]);
    in particular the out-of-bounds access of [translit] never happens. *)
Theorem step_safe : safe engine_inv (step (T:=T) files) has_full_frame.
Proof. exact step_safe_full. Qed.

Lemma init_table_wf : mt_wf (init_table (T:=T)).
Proof.
  unfold init_table. generalize (mt_empty_wf (T:=T)).
  generalize (mt_empty (T:=T)). induction builtin_names as [|n l IH]; intros t Ht; [done|].
  simpl. apply IH. by apply mt_upsert_wf.
Qed.

Lemma init_state_inv inp sin rs : engine_inv (init_state (T:=T) inp sin rs).
Proof.
  unfold engine_inv, mid_inv, base_inv, out_ok, size_t_ok, SIZE_MAX. simpl.
  split_and!; try done; try lia. apply init_table_wf.
Qed.

(** C4: Every state the main loop reaches satisfies the invariant. *)
Theorem reachable_inv inp sin rs st :
  reachable (T:=T) files inp sin rs st -> engine_inv st.
Proof.
  induction 1 as [|st st' _ IH Hs]; [apply init_state_inv|]. by eapply step_engine_inv.
Qed.

Lemma no_ub_end_of_input : no_ub (S:=state T) end_of_input.
Proof. unfold end_of_input. solve_no_ub. Qed.

Lemma clean_up_undefined code (st st' : state T) :
  clean_up code st = Undefined st' -> has_full_frame st'.
Proof.
  unfold clean_up, free_stack. destruct (forallb _ _) eqn:E; [discriminate|]. intros [= <-].
  apply forallb_false_exists in E as (m & Hm & Hf). exists m. split; [done|].
  unfold full_frame. destruct (free_mcall m) eqn:F; [discriminate|]. by eapply free_bufs_from_full.
Qed.

Lemma finish_undefined (st st' : state T) : finish st = Undefined st' -> has_full_frame st'.
Proof.
  unfold finish. pose proof (no_ub_end_of_input st st').
  destruct (end_of_input st); try apply clean_up_undefined. congruence.
Qed.

Lemma run_undefined fuel (st st' : state T) :
  engine_inv st -> run files fuel st = Some (Undefined st') -> has_full_frame st'.
Proof.
  revert st. induction fuel as [|fuel IH]; intros st Hst; simpl; [discriminate|].
  destruct (step files st) as [[] s1|s1|s1|s1] eqn:E.
  - apply IH. by eapply step_engine_inv.
  - intros [= H]. by eapply finish_undefined.
  - intros [= H]. by eapply clean_up_undefined.
  - intros [= <-]. by eapply step_safe_full.
Qed.

(** C1: A run of [m4], on any files, arguments and standard input, ends in
    undefined behaviour only when a macro call on the stack has collected
    nine arguments. *)
Theorem m4_undefined fuel args sin (st : state T) :
  m4 files fuel args sin = Some (Undefined st) -> has_full_frame st.
Proof.
  unfold m4. destruct args; [by apply run_undefined, init_state_inv|].
  destruct (load_files files _); [by apply run_undefined, init_state_inv | discriminate].
Qed.

End Main.

(** ** A closing bracket on a frame holding nine arguments *)

Section NineArgs.
Context {T : Type} `{!MacroTable T}.
Variable files : bytes -> option bytes.

Lemma terminate_from_nine m : frame_ok m -> act_arg m = 9%nat ->
  terminate_from 1 (drop 1 (arg_buf m)) = None.
Proof.
  intros (args & Ha & Hn & Hl & _) H9. rewrite Ha. unfold arg_slots.
  change (drop 1 (None :: ?l)) with l. rewrite terminate_from_slots by lia.
  by rewrite (proj2 (Nat.eqb_eq _ 0)) by lia.
Qed.

Lemma ungetstr_ok inp s :
  all_bytes s -> Forall (fun c => c <> 255) (cstr s) -> (Input.ungetstr inp s).2 = true.
Proof.
  intros Hb Hn. unfold Input.ungetstr. rewrite Input.ungetstr_go_ok; [done| |by apply Forall_rev].
  apply Forall_rev. by apply all_bytes_cstr.
Qed.

(** The call of a user macro pushes its expanded body back onto the input:
    [sub_args] succeeds and the result holds no [0xFF]. *)
Definition body_ok (m : mcall) : Prop :=
  match mc_def m with
  | None => True
  | Some def => exists res, Subst.sub_args def (arg_buf m) = Some res /\ all_bytes res /\
                  Forall (fun c => c <> 255) (cstr res)
  end.

(** C18: When the closing bracket of a call at bracket depth 1 arrives (no
    quoting, and neither quote character is a closing bracket) while the
    call has all nine argument buffers allocated, the iteration of the main
    loop reaches undefined behaviour: for a built-in, [terminate_args] reads
    [arg_buf[10]]; for a user macro whose body is pushed back,
    [free_mcall] in [REMOVE_SH] reads [arg_buf[10]]. *)
Theorem nine_arguments_undefined (st : state T) m r tok s' :
  stack st = m :: r -> frame_ok m -> act_arg m = 9%nat -> bracket_depth m = 1 ->
  quote_on st = false -> Token.getword (strm st) = Token.GWTok tok s' -> cstr tok = [41] ->
  left_quote st <> 41 -> right_quote st <> 41 -> body_ok m ->
  exists st', step files st = Ub st'.
Proof.
  intros Hk Hf H9 Hd Hq Hg Ht Hl Hr Hb.
  unfold step, OUT_DIV, READ_TOKEN, modify, get, mbind, M_bind.
  cbn [strm set_diversion add_out]. rewrite Hg. cbn -[bool_decide end_call].
  rewrite Ht, !bool_decide_false by congruence. rewrite Hq, Hk.
  cbn -[end_call]. rewrite Hd. lazymatch goal with |- context[streq ?a ?b] => replace (streq a b) with true by reflexivity end.
  unfold end_call, modify_top, modify, get, mbind, M_bind. rewrite Z.eqb_refl. cbn [andb stack set_stack set_strm set_diversion add_out]. rewrite Hk. cbn [map_top].
  unfold expand_call. cbn [mc_def set_bracket_depth].
  unfold body_ok in Hb. destruct (mc_def m) as [def|] eqn:Hm.
  - destruct Hb as (res & Hs & Hab & Hn).
    change (arg_buf (set_bracket_depth m ?d)) with (arg_buf m). rewrite Hs.
    unfold unget_str. lazymatch goal with |- context[Input.ungetstr ?i res] =>
      pose proof (ungetstr_ok i res Hab Hn) as Hu; destruct (Input.ungetstr i res) as [inp ok] end.
    cbn in Hu. subst ok. unfold REMOVE_SH, delete_stack_head, get, mbind, M_bind.
    cbn [stack set_input set_stack set_strm].
    change (free_mcall (set_bracket_depth m ?d)) with (free_mcall m).
    rewrite (proj2 (free_mcall_nine m Hf) H9). by eexists.
  - unfold terminate_args. change (arg_buf (set_bracket_depth m ?d)) with (arg_buf m).
    rewrite (terminate_from_nine m) by done. by eexists.
Qed.
End NineArgs.

(** ** The theorems at a concrete run *)

Lemma step_inv_witness :
  exists st', step (T:=SymTab.table) (fun _ => None) (init_state [] (bs "m(a)") true) = Done () st' /\
    engine_inv st'.
Proof.
  eexists. split; [vm_compute; reflexivity|].
  apply (step_inv (T:=SymTab.table) (fun _ => None) (init_state [] (bs "m(a)") true) ()).
  - apply init_state_inv.
  - vm_compute. reflexivity.
Defined.

Lemma reachable_inv_witness : engine_inv (init_state (T:=SymTab.table) (bs "a") [] false).
Proof.
  apply (reachable_inv (T:=SymTab.table) (fun _ => None) (bs "a") [] false). constructor.
Defined.

(** The state of a run of [add(1,2,3,4,5,6,7,8,9)] just before the
    closing bracket. *)
Definition nine_state : state SymTab.table :=
  mk_state (Input.mk_stream [41; 10] [] false) init_table
    [mk_mcall (bs "add") None 1 9 (None :: map (fun c => Some [c]) (bs "123456789"))]
    false 0 96 39 0 (replicate 11 []) (SArg 0 9) [] [].

Lemma nine_state_inv : engine_inv nine_state.
Proof.
  unfold engine_inv, mid_inv, base_inv, out_ok, size_t_ok, SIZE_MAX. cbn -[init_table bs].
  split_and!.
  all: first [lia | reflexivity | apply Forall_nil | exact I
             | exact (init_table_wf (T:=SymTab.table)) | (unfold depth_ok; simpl; lia) | idtac].
  2: exact I.
  constructor; [|constructor]. exists (map (fun c => [c]) (bs "123456789")).
  split_and!; [reflexivity | reflexivity | simpl; lia | simpl; lia |].
  unfold nonff. simpl. repeat constructor; lia.
Qed.

Lemma step_safe_witness :
  match step (T:=SymTab.table) (fun _ => None) nine_state with
  | Ub st' => has_full_frame st'
  | _ => False
  end.
Proof.
  destruct (step _ nine_state) eqn:E; try (vm_compute in E; discriminate).
  eapply (step_safe (T:=SymTab.table) (fun _ => None)); [apply nine_state_inv | exact E].
Defined.

Lemma m4_undefined_witness :
  match m4 (T:=SymTab.table) (fun _ => None) 100 [] (bs "add(1,2,3,4,5,6,7,8,9)" ++ [10]) with
  | Some (Undefined st) => has_full_frame st
  | _ => False
  end.
Proof.
  destruct (m4 _ 100 [] _) as [[c st|st]|] eqn:E; try (vm_compute in E; discriminate).
  by apply (m4_undefined (T:=SymTab.table) (fun _ => None) 100 [] (bs "add(1,2,3,4,5,6,7,8,9)" ++ [10])).
Defined.

Lemma nine_arguments_undefined_witness :
  exists st', step (T:=SymTab.table) (fun _ => None) nine_state = Ub st'.
Proof.
  eapply (nine_arguments_undefined (fun _ => None) nine_state _ [] (bs ")")).
  all: try reflexivity; try exact I; try (cbn -[init_table bs]; lia).
  exists (map (fun c => [c]) (bs "123456789")).
  split_and!; [reflexivity | reflexivity | simpl; lia | simpl; lia |].
  unfold nonff. simpl. repeat constructor; lia.
Defined.

End Safety.
