(* ===== verification/Liveness.v ===== *)
(** * Progress of the main loop on input without identifiers

    The main loop of [main] need not end: a macro can expand to its own
    name.  Only a token that starts like an identifier (a letter or [_])
    can be a macro call ([ISMACRO], lines 843-844), so on input without
    such bytes, outside any call, every iteration consumes one byte of
    [stdin] and writes or toggles quotes; the loop reaches the end of the
    input, and [end_of_input] and [clean_up] give an exit status.  The
    theorem [m4_progress] bounds the iterations by the length of the
    input plus one, which is the fuel [run] needs.  [m4_text_identity]
    adds what such a run writes when the input holds no quote either:
    the input itself, unchanged. *)

From Stdlib Require Import ZArith Lia List String.
From stdpp Require Import base list.
From S2P Require Import Prelude Bytes SymTab Input Token State Engine.

Local Open Scope Z_scope.

Module Liveness.
Import State Engine.

Section WithTable.
Context {T : Type} `{!MacroTable T}.
Variable files : bytes -> option bytes.

(** A state reading [r] from [stdin] with nothing pushed back and no
    macro call in progress. *)
Definition plain (st : state T) (r : bytes) : Prop :=
  strm st = Input.mk_stream [] r true /\ stack st = [].

Lemma getword_plain c r : is_byte c -> Token.is_ident_start c = false ->
  Token.getword (Input.mk_stream [] (c :: r) true) =
  if to_char c =? EOF then Token.GWEnd (Input.mk_stream [] r true)
  else Token.GWTok [c] (Input.mk_stream [] r true).
Proof.
  intros Hb Hi. unfold Token.getword, Input.getch. simpl.
  rewrite (proj2 (Z.eqb_neq c EOF)) by (unfold is_byte, EOF in *; lia).
  unfold Input.ungetch. simpl. rewrite Hi, to_char_byte by done.
  by destruct (to_char c =? EOF).
Qed.

Lemma write_strm (st : state T) b : strm (write st b) = strm st.
Proof. unfold write. by destruct (output st). Qed.

Lemma write_stack_nil (st : state T) b : stack st = [] -> stack (write st b) = [].
Proof. unfold write. destruct (output st); simpl; [done|]. by intros ->. Qed.

(** A byte that does not start an identifier and does not read back as
    [EOF]: one iteration consumes it and stays outside any call. *)
Lemma step_plain st c r :
  plain st (c :: r) -> is_byte c -> Token.is_ident_start c = false -> to_char c <> EOF ->
  exists st', step files st = Done () st' /\ plain st' r.
Proof.
  intros [Hs Hk] Hb Hi He.
  unfold step, OUT_DIV, READ_TOKEN, modify, get, mbind, M_bind.
  cbn [strm set_diversion add_out]. rewrite Hs, getword_plain by done.
  rewrite (proj2 (Z.eqb_neq _ EOF) He). cbn -[bool_decide].
  assert (ISMACRO (ht st) (if c =? 0 then [] else [c]) = None) as ->.
  { unfold ISMACRO. destruct (Z.eqb_spec c 0); simpl; [done|].
    rewrite (proj2 (Z.eqb_neq _ _)) by done. by rewrite Hi. }
  rewrite Hk. cbn [ARG_END ARG_COMMA NESTED_CB NESTED_OB].
  unfold mret, M_ret, put_str, modify_top, modify. cbn -[bool_decide write].
  repeat case_match; simplify_eq/=; eexists; (split; [reflexivity|]); split; cbn;
    rewrite ?write_strm; try done; rewrite ?write_stack_nil; done.
Qed.

(** The end of [stdin], or a byte [0xFF], which [getword] reads back as
    [EOF]: the iteration reports the end of the input. *)
Lemma step_plain_end st r :
  plain st r -> Forall is_byte r -> Forall (fun c => Token.is_ident_start c = false) r ->
  (r = [] \/ exists c r', r = c :: r' /\ to_char c = EOF) ->
  exists st', step files st = Eoi st' /\ stack st' = [].
Proof.
  intros [Hs Hk] Hb Hi Hr. unfold step, OUT_DIV, READ_TOKEN, modify, get, mbind, M_bind.
  cbn [strm set_diversion add_out]. rewrite Hs.
  destruct Hr as [->|(c & r' & -> & He)].
  - eexists. split; [reflexivity|done].
  - invc Hb. invc Hi. rewrite getword_plain, He by done. eexists. split; [reflexivity|done].
Qed.

Lemma EQUIT_quit {A} (msg : string) (st : state T) :
  EQUIT (A:=A) msg st = Quit (add_err st (bs msg ++ [10])).
Proof. reflexivity. Qed.

Lemma fold_OUT_DIV ks (c : M (state T) unit) st :
  (exists st', c st = Done () st' /\ stack st' = stack st) ->
  exists st', fold_left (fun c k => c;; OUT_DIV k) ks c st = Done () st' /\ stack st' = stack st.
Proof.
  revert c. induction ks as [|k ks IH]; intros c Hc; simpl; [done|]. apply IH.
  destruct Hc as (st' & Hc & Hs). unfold mbind, M_bind. rewrite Hc. eexists. split; [reflexivity|done].
Qed.

Lemma clean_up_nil code (st : state T) : stack st = [] -> clean_up code st = Exit code st.
Proof. unfold clean_up. by intros ->. Qed.

(** Outside any call, [end_of_input] and [clean_up] end the run with an
    exit status: 1 with an open quote, else 0 after undiverting. *)
Lemma finish_exit (st : state T) : stack st = [] -> exists code st', finish st = Exit code st'.
Proof.
  intros Hk. unfold finish, end_of_input, get, mbind, M_bind. rewrite Hk.
  rewrite bool_decide_false by (intros Hne; by apply Hne).
  destruct (quote_on st).
  - rewrite EQUIT_quit. cbv beta iota. rewrite clean_up_nil by exact Hk. eauto.
  - destruct (fold_OUT_DIV (seq 0 10) (mret ()) st ltac:(eexists; split; reflexivity)) as (st' & Hu & Hs).
    unfold UNDIVERT_ALL. rewrite Hu. rewrite clean_up_nil by congruence. eauto.
Qed.

Lemma run_plain n st r :
  plain st r -> Forall is_byte r -> Forall (fun c => Token.is_ident_start c = false) r ->
  (length r < n)%nat -> exists code st', run files n st = Some (Exit code st').
Proof.
  revert n st. induction r as [|c r IH]; intros n st Hp Hb Hi Hn; destruct n as [|n]; simpl in Hn; [lia| |lia|].
  - destruct (step_plain_end st [] Hp Hb Hi (or_introl eq_refl)) as (st' & Hs & Hk).
    simpl. rewrite Hs. destruct (finish_exit st' Hk) as (code & st'' & ->). eauto.
  - destruct (decide (to_char c = EOF)) as [He|He].
    + destruct (step_plain_end st (c :: r) Hp Hb Hi (or_intror (ex_intro _ c (ex_intro _ r (conj eq_refl He)))))
        as (st' & Hs & Hk).
      simpl. rewrite Hs. destruct (finish_exit st' Hk) as (code & st'' & ->). eauto.
    + pose proof Hb as Hb'. pose proof Hi as Hi'. invc Hb'. invc Hi'.
      destruct (step_plain st c r Hp ltac:(done) ltac:(done) He) as (st' & Hs & Hp').
      simpl. rewrite Hs. apply IH; [done | done | done | lia].
Qed.

(** C5: On standard input without a byte that starts an identifier (a
    letter or [_]), [m4] without file arguments ends with an exit status,
    never in undefined behaviour and never out of fuel, within one
    iteration per input byte plus one. *)
Theorem m4_progress sin :
  Forall is_byte sin -> Forall (fun c => Token.is_ident_start c = false) sin ->
  exists code st, m4 files (S (length sin)) [] sin = Some (Exit code st).
Proof.
  intros Hb Hi. unfold m4. apply (run_plain _ _ sin); [split; reflexivity | done | done | lia].
Qed.

(** ** Text without macros passes through *)

(** A byte of plain text: not [NUL], not [0xFF], not an identifier byte
    and neither of the initial quotes. *)
Definition text_byte (c : Z) : bool :=
  (0 <? c) && (c <? 255) && negb (Token.is_ident_start c) && negb (c =? 96) && negb (c =? 39).

(** A state outside any call, reading [r] from [stdin], with the initial
    quotes, output to diversion 0 and the other diversions empty, that has
    written [done] so far (to [stdout] or still in diversion 0). *)
Definition text (st : state T) (r done : bytes) : Prop :=
  strm st = Input.mk_stream [] r true /\ stack st = [] /\ quote_on st = false /\
  left_quote st = 96 /\ right_quote st = 39 /\ output st = SDiv 0 /\ err st = [] /\
  exists d0, diversion st = d0 :: replicate 10 [] /\ out st ++ d0 = done.

Lemma text_byte_spec c : text_byte c = true ->
  is_byte c /\ Token.is_ident_start c = false /\ c <> 0 /\ c <> 96 /\ c <> 39 /\ to_char c <> EOF.
Proof.
  unfold text_byte. intros H. repeat rewrite andb_true_iff in H. rewrite !negb_true_iff in H.
  destruct H as ((((H1 & H2) & H3) & H4) & H5). apply Z.ltb_lt in H1, H2. apply Z.eqb_neq in H4, H5.
  split_and!; try done; try (unfold is_byte; lia). rewrite to_char_EOF by (unfold is_byte; lia). lia.
Qed.

Lemma step_text st c r done : text st (c :: r) done -> text_byte c = true ->
  exists st', step files st = Done () st' /\ text st' r (done ++ [c]).
Proof.
  intros (Hs & Hk & Hq & Hl & Hr & Ho & He & d0 & Hd & Hout) (Hb & Hi & H0 & Hlq & Hrq & Hf)%text_byte_spec.
  unfold step, OUT_DIV, READ_TOKEN, modify, get, mbind, M_bind.
  cbn [strm set_diversion add_out]. rewrite Hs, getword_plain by done.
  rewrite (proj2 (Z.eqb_neq _ EOF) Hf). cbn -[bool_decide].
  rewrite (proj2 (Z.eqb_neq _ 0) H0), Hl, Hr, Hq, Hk.
  rewrite !bool_decide_false by (intros [=]; lia).
  assert (ISMACRO (ht st) [c] = None) as ->.
  { unfold ISMACRO. simpl. rewrite (proj2 (Z.eqb_neq _ _)) by done. by rewrite Hi. }
  cbn [ARG_END ARG_COMMA NESTED_CB NESTED_OB]. unfold put_str, modify, write. cbn. rewrite Ho, Hd.
  eexists. split; [reflexivity|]. cbn.
  split_and!; try done. rewrite (proj2 (Z.eqb_neq _ 0) H0).
  eexists. split; [reflexivity|]. cbn. rewrite <- Hout. by rewrite <-?app_assoc.
Qed.

Lemma UNDIVERT_ALL_nil (st : state T) : diversion st = replicate 11 [] ->
  exists st', UNDIVERT_ALL st = Done () st' /\ out st' = out st /\ stack st' = stack st /\
    quote_on st' = quote_on st /\ err st' = err st.
Proof.
  destruct st. simpl. intros ->. eexists. split; [reflexivity|]. cbn. by rewrite !app_nil_r.
Qed.

Lemma end_text st done : text st [] done ->
  exists st', step files st = Eoi st' /\
  exists st'', finish st' = Exit 0 st'' /\ out st'' = done /\ err st'' = [].
Proof.
  destruct st as [s h k q qd lq rq ad dv o ou er].
  intros (Hs & Hk & Hq & Hl & Hr & Ho & He & d0 & Hd & Hout); simpl in *; subst.
  eexists. split; [reflexivity|].
  unfold finish, end_of_input, get, mbind, M_bind. cbn [stack set_strm set_diversion add_out quote_on].
  rewrite bool_decide_false by (intros Hne; by apply Hne).
  match goal with |- context [UNDIVERT_ALL ?X] =>
    destruct (UNDIVERT_ALL_nil X) as (st' & Hu & Ho & Hk & _ & He); [done|] end.
  rewrite Hu. rewrite clean_up_nil by done. eexists. split; [reflexivity|]. done.
Qed.

Lemma run_text n st r done : text st r done -> forallb text_byte r = true -> (length r < n)%nat ->
  exists st', run files n st = Some (Exit 0 st') /\ out st' = done ++ r /\ err st' = [].
Proof.
  revert n st done. induction r as [|c r IH]; intros n st done Ht Hr Hn; destruct n as [|n]; simpl in Hn; [lia| |lia|].
  - destruct (end_text st done Ht) as (st' & Hs & st'' & Hf & Ho & He).
    simpl. rewrite Hs, Hf. rewrite app_nil_r. eauto.
  - simpl in Hr. apply andb_true_iff in Hr as [Hc Hr].
    destruct (step_text st c r done Ht Hc) as (st' & Hs & Ht').
    simpl. rewrite Hs. rewrite (app_cons_assoc done r c). apply IH; [done | done | lia].
Qed.

(** C6: [m4] without file arguments copies plain text unchanged: on standard
    input made of bytes other than [NUL], [0xFF], letters, [_] and the two
    quotes, it writes exactly its input to
    [stdout], nothing to [stderr], and exits with status 0. *)
Theorem m4_text_identity sin : forallb text_byte sin = true ->
  exists st, m4 files (S (length sin)) [] sin = Some (Exit 0 st) /\ out st = sin /\ err st = [].
Proof.
  intros Hs. apply (run_text _ _ sin []); [| done | lia].
  split_and!; try reflexivity. exists []. split; reflexivity.
Qed.
End WithTable.

(** ** Witnesses *)

Lemma m4_progress_witness :
  exists code st, m4 (T:=SymTab.table) (fun _ => None) (S (length [49; 43; 40; 50; 41; 10])) []
                     [49; 43; 40; 50; 41; 10] = Some (Exit code st).
Proof.
  apply (m4_progress (fun _ => None)); repeat constructor; unfold is_byte; lia.
Defined.

Lemma m4_text_identity_witness :
  exists st, m4 (T:=SymTab.table) (fun _ => None) (S (length [49; 32; 43; 32; 40; 50; 44; 51; 41; 10])) []
    [49; 32; 43; 32; 40; 50; 44; 51; 41; 10] = Some (Exit 0 st) /\
    out st = [49; 32; 43; 32; 40; 50; 44; 51; 41; 10] /\ err st = [].
Proof. apply (m4_text_identity (fun _ => None)). reflexivity. Defined.

End Liveness.
