(* ===== verification/Scenarios.v ===== *)
(** * Runs of the whole program

    [run_m4 inp] runs [m4] without file arguments on the standard input
    [inp], with the hash table of [SymTab] as the symbol table, and returns
    the exit status with what was written to [stdout] and [stderr].  The
    runs below are the end-to-end scenarios of the specification and the
    behaviours the model exposed; each is checked by evaluation.  The
    fuel of 10000 iterations is far above the number of tokens of these
    inputs, and every run ends before it is exhausted (the results are
    [Some]).  The file closes with a general theorem on a stray closing
    quote. *)

From Stdlib Require Import ZArith Lia List String.
From stdpp Require Import base list.
From S2P Require Import Prelude Bytes Num SymTab Input Token Subst State Builtins Engine.

Local Open Scope Z_scope.

Module Scenarios.
Import State Engine.

Definition run_m4 (inp : bytes) : option (Z * bytes * bytes) :=
  match m4 (T:=SymTab.table) (fun _ => None) 10000 [] inp with
  | Some (Exit c st) => Some (c, out st, err st)
  | _ => None
  end.

Definition nl : bytes := [10].

(** ** The scenarios of the specification *)

(** Scenario 1: [$1] and [$2] are replaced by the arguments. *)
Example scenario_define :
  run_m4 (bs "define(cool, $1 and $2)cool(goat, mice)" ++ nl) = Some (0, bs "goat and mice" ++ nl, []).
Proof. vm_compute. reflexivity. Qed.

(** Scenarios 4 and 8: [incr], [len], [substr] and the arithmetic
    built-ins. *)
Example scenario_builtins :
  run_m4 (bs "incr(76) len(goat) substr(elephant, 2, 4) add(8, 2, 4) mult( , 5, , 3) sub(80, 20, 5) div(5, 2) mod(5, 2)" ++ nl)
    = Some (0, bs "77 4 epha 14 15 55 2 1" ++ nl, []).
Proof. vm_compute. reflexivity. Qed.

(** Scenario 5: [a] maps to [x], [b] to [y], and [s] is deleted. *)
Example scenario_translit :
  run_m4 (bs "translit(bananas, abcs, xyz)" ++ nl) = Some (0, bs "yxnxnx" ++ nl, []).
Proof. vm_compute. reflexivity. Qed.

(** Scenarios 6 and 7: [ifdef] and [ifelse]. *)
Example scenario_conditionals :
  run_m4 (bs "ifdef(`cool', yes, no) define(cool, _)ifdef(`cool', yes, no) ifelse(5, 5, T, F) ifelse(5, 6, T, F)" ++ nl)
    = Some (0, bs "no yes T F" ++ nl, []).
Proof. vm_compute. reflexivity. Qed.

(** Quoting removes one level of quotes. *)
Example scenario_quotes :
  run_m4 (bs "`X' ``X''" ++ nl) = Some (0, bs "X `X'" ++ nl, []).
Proof. vm_compute. reflexivity. Qed.

(** ** What the code does where the specification says otherwise *)

(** [index] counts from 0: "ha" starts at offset 4 of "elephant". *)
Example scenario_index :
  run_m4 (bs "index(elephant, ha)" ++ nl) = Some (0, bs "4" ++ nl, []).
Proof. vm_compute. reflexivity. Qed.

(** The newline after [divert(2)hello] goes to diversion 2 and the one
    after [divert] to the output, before [world]. *)
Example scenario_divert :
  run_m4 (bs "divert(2)hello" ++ nl ++ bs "divert" ++ nl ++ bs "world" ++ nl ++ bs "undivert(2)")
    = Some (0, nl ++ bs "world" ++ nl ++ bs "hello" ++ nl, []).
Proof. vm_compute. reflexivity. Qed.

(** An identifier that ends the input is lost: [getword] reports the end
    of input for it. *)
Example scenario_trailing_identifier :
  run_m4 (bs "changequote([, ])define([x], [hi])x") = Some (0, [], []) /\
  run_m4 (bs "changequote([, ])define([x], [hi])x" ++ nl) = Some (0, bs "hi" ++ nl, []).
Proof. split; vm_compute; reflexivity. Qed.

(** A byte of [from] beyond the length of [to] is deleted even when an
    earlier occurrence has a partner. *)
Example scenario_translit_repeat :
  run_m4 (bs "translit(a, aa, x)" ++ nl) = Some (0, nl, []).
Proof. vm_compute. reflexivity. Qed.

(** Undefining [pdu], the head of its bucket, also loses [add], which
    shares the bucket: [add(1, 2)] is no longer expanded. *)
Example scenario_undefine_collision :
  run_m4 (bs "define(`pdu', x)undefine(`pdu')add(1, 2)" ++ nl) = Some (0, bs "add(1, 2)" ++ nl, []) /\
  run_m4 (bs "define(`pdv', x)undefine(`pdv')add(1, 2)" ++ nl) = Some (0, bs "3" ++ nl, []).
Proof. split; vm_compute; reflexivity. Qed.

(** A stray closing quote wraps [quote_depth] to [SIZE_MAX]; the next
    quotes are inverted and the run fails at the end of the input. *)
Example scenario_stray_quote :
  run_m4 (bs "don't `x'" ++ nl)
    = Some (1, bs "dont `x" ++ nl, bs "Input finished without exiting quotes" ++ nl).
Proof. vm_compute. reflexivity. Qed.

Definition is_undefined (r : option (final (T:=SymTab.table))) : bool :=
  match r with Some (Undefined _) => true | _ => false end.

(** A call that collects nine arguments ends in undefined behaviour: for a
    built-in, [terminate_args] reads [arg_buf[10]]; for a user macro,
    [free_mcall] does when the frame is removed.  With eight arguments
    the runs end normally. *)
Example scenario_nine_arguments :
  is_undefined (m4 (fun _ => None) 10000 [] (bs "add(1,2,3,4,5,6,7,8,9)" ++ nl)) = true /\
  is_undefined (m4 (fun _ => None) 10000 [] (bs "define(f,x)f(1,2,3,4,5,6,7,8,9)" ++ nl)) = true /\
  run_m4 (bs "add(1,2,3,4,5,6,7,8)" ++ nl) = Some (0, bs "36" ++ nl, []) /\
  run_m4 (bs "define(f,x)f(1,2,3,4,5,6,7,8)" ++ nl) = Some (0, bs "x" ++ nl, []).
Proof. split_and!; vm_compute; reflexivity. Qed.

(** ** A stray closing quote *)

Section Quotes.
Context {T : Type} `{!MacroTable T}.
Variable files : bytes -> option bytes.

(** C17: Outside quotes ([quote_depth = 0]), reading the right quote does not
    fail: besides the flush of diversion 0 it writes nothing (the
    diversions and the argument buffers of the stack are unchanged), and it
    sets [quote_depth] to [SIZE_MAX], the wrap-around of [0 - 1], leaving
    [quote_on] as it was. *)
Theorem stray_right_quote (st : state T) tok s' :
  quote_depth st = 0 -> Token.getword (strm st) = Token.GWTok tok s' ->
  cstr tok = [right_quote st] -> cstr tok <> [left_quote st] ->
  exists st', step files st = Done () st' /\ quote_depth st' = SIZE_MAX /\ quote_on st' = quote_on st /\
    stack st' = stack st /\ diversion st' = <[0%nat := []]> (diversion st).
Proof.
  intros Hq Hg Hr Hl. unfold step, OUT_DIV, modify, READ_TOKEN, get, mbind, M_bind.
  cbn [strm set_diversion add_out]. rewrite Hg. cbn -[bool_decide].
  rewrite bool_decide_false by done. rewrite bool_decide_true by done. rewrite Hq.
  eexists. split; [reflexivity|]. cbn. rewrite Hq. done.
Qed.

End Quotes.

(** ** Witnesses *)

Lemma stray_right_quote_witness :
  exists st', step (T:=SymTab.table) (fun _ => None) (init_state [] (bs "'") true) = Done () st' /\
    quote_depth st' = SIZE_MAX /\ quote_on st' = quote_on (init_state (T:=SymTab.table) [] (bs "'") true) /\
    stack st' = stack (init_state (T:=SymTab.table) [] (bs "'") true) /\
    diversion st' = <[0%nat := []]> (diversion (init_state (T:=SymTab.table) [] (bs "'") true)).
Proof.
  apply (stray_right_quote (fun _ => None) _ [39] (Input.mk_stream [] [] true));
    [reflexivity | vm_compute; reflexivity | reflexivity | discriminate].
Defined.

End Scenarios.
